(** * FormValidator: a shallow embedding of [assets/js/form-validation.js]

    The class [FormValidator] is modelled over an explicit store: the
    document's elements, the [fieldData] and [formData] objects the class
    allocates, the listeners it registers and the timers it starts.  Objects
    are held by reference, as in the script, so that two fields sharing an
    indicator element see each other's writes. *)

From Stdlib Require Import ZArith NArith Ascii String Lia.
From stdpp Require Import gmap strings list.

Local Open Scope N_scope.

(** ** ECMAScript strings

    A string is its sequence of UTF-16 code units; [length] is the
    [.length] property. *)

Abbreviation jsstring := (list N).

Fixpoint js (s : string) : jsstring :=
  match s with
  | EmptyString => []
  | String a s' => N_of_ascii a :: js s'
  end.

Arguments js : simpl never.

(** [WhiteSpace] and [LineTerminator] code units: what [String.prototype.trim]
    strips, what [\s] matches and what [parseInt] skips. *)
Definition is_space (c : N) : bool :=
  (c =? 9) || (c =? 10) || (c =? 11) || (c =? 12) || (c =? 13) || (c =? 32)
  || (c =? 160) || (c =? 5760) || ((8192 <=? c) && (c <=? 8202))
  || (c =? 8232) || (c =? 8233) || (c =? 8239) || (c =? 8287)
  || (c =? 12288) || (c =? 65279).

Fixpoint trimStart (s : jsstring) : jsstring :=
  match s with
  | c :: s' => if is_space c then trimStart s' else s
  | [] => []
  end.

Definition trimEnd (s : jsstring) : jsstring := rev (trimStart (rev s)).

Definition trim (s : jsstring) : jsstring := trimEnd (trimStart s).

(** [s.replace(pat, '')] with a one-character string pattern: the first
    occurrence is dropped. *)
Fixpoint removeFirst (c : N) (s : jsstring) : jsstring :=
  match s with
  | [] => []
  | d :: s' => if d =? c then s' else d :: removeFirst c s'
  end.

(** JavaScript truthiness of a string, and [a || b] on strings. *)
Definition truthy (s : jsstring) : bool :=
  match s with [] => false | _ => true end.

Definition orElse (a b : jsstring) : jsstring := if truthy a then a else b.

(** [attr || dflt] where [attr] is [null] or a string. *)
Definition orDefault (a : option jsstring) (b : jsstring) : jsstring :=
  match a with
  | Some s => orElse s b
  | None => b
  end.

(** ** Regular expression literals of the script

    The literals of [runValidationRule] use character classes, sequence,
    [?], [+] and a bounded repetition, all between [^] and [$] and without
    flags: [test] asks whether the whole string belongs to the language.
    Matching is by derivatives. *)

Inductive re : Type :=
  | re_void
  | re_eps
  | re_class (p : N -> bool)
  | re_seq (r1 r2 : re)
  | re_alt (r1 r2 : re)
  | re_star (r : re).

Definition re_plus (r : re) : re := re_seq r (re_star r).
Definition re_opt (r : re) : re := re_alt r re_eps.

(** [r{0,n}] *)
Fixpoint re_upto (n : nat) (r : re) : re :=
  match n with
  | O => re_eps
  | S k => re_opt (re_seq r (re_upto k r))
  end.

Fixpoint nullable (r : re) : bool :=
  match r with
  | re_void => false
  | re_eps => true
  | re_class _ => false
  | re_seq r1 r2 => nullable r1 && nullable r2
  | re_alt r1 r2 => nullable r1 || nullable r2
  | re_star _ => true
  end.

Fixpoint deriv (c : N) (r : re) : re :=
  match r with
  | re_void => re_void
  | re_eps => re_void
  | re_class p => if p c then re_eps else re_void
  | re_seq r1 r2 =>
      if nullable r1
      then re_alt (re_seq (deriv c r1) r2) (deriv c r2)
      else re_seq (deriv c r1) r2
  | re_alt r1 r2 => re_alt (deriv c r1) (deriv c r2)
  | re_star r1 => re_seq (deriv c r1) (re_star r1)
  end.

(** [/^r$/.test(s)] *)
Fixpoint re_test (r : re) (s : jsstring) : bool :=
  match s with
  | [] => nullable r
  | c :: s' => re_test (deriv c r) s'
  end.

(** The language of an expression, for reasoning. *)
Inductive re_matches : re -> jsstring -> Prop :=
  | m_eps : re_matches re_eps []
  | m_class p c : p c = true -> re_matches (re_class p) [c]
  | m_seq r1 r2 s1 s2 :
      re_matches r1 s1 -> re_matches r2 s2 -> re_matches (re_seq r1 r2) (s1 ++ s2)
  | m_alt_l r1 r2 s : re_matches r1 s -> re_matches (re_alt r1 r2) s
  | m_alt_r r1 r2 s : re_matches r2 s -> re_matches (re_alt r1 r2) s
  | m_star_nil r : re_matches (re_star r) []
  | m_star_cons r s1 s2 :
      re_matches r s1 -> re_matches (re_star r) s2 ->
      re_matches (re_star r) (s1 ++ s2).

(** Character classes of the literals. *)
Definition chr (a : ascii) : N -> bool := fun c => c =? N_of_ascii a.

(** [\d]: the ASCII digits only. *)
Definition is_digit (c : N) : bool := (48 <=? c) && (c <=? 57).

(** [[1-9]] *)
Definition is_digit19 (c : N) : bool := (49 <=? c) && (c <=? 57).

(** [[^\s@]] *)
Definition not_space_at (c : N) : bool := negb (is_space c || chr "@" c).

(** [[\s\-\(\)]] *)
Definition is_separator (c : N) : bool :=
  is_space c || chr "-" c || chr "(" c || chr ")" c.

(** [/^[^\s@]+@[^\s@]+\.[^\s@]+$/] *)
Definition emailRegex : re :=
  re_seq (re_plus (re_class not_space_at))
    (re_seq (re_class (chr "@"))
       (re_seq (re_plus (re_class not_space_at))
          (re_seq (re_class (chr "."))
             (re_plus (re_class not_space_at))))).

(** [/^[\+]?[1-9][\d]{0,15}$/] *)
Definition phoneRegex : re :=
  re_seq (re_opt (re_class (chr "+")))
    (re_seq (re_class is_digit19) (re_upto 15 (re_class is_digit))).

(** [value.replace(/[\s\-\(\)]/g, '')]: every match of the one-character
    class is removed. *)
Definition stripSeparators (s : jsstring) : jsstring :=
  filter (fun c => is_separator c = false) s.

(** ** [parseInt] with no radix argument

    Leading white space is skipped, a sign is read, a [0x] or [0X] prefix
    selects radix 16, and the longest run of digits is converted; no digit
    gives [NaN], modelled by [None].  The result is kept exact: the script
    only compares it with a string length, and rounding to a double is
    monotone. *)

Definition digitValue (radix c : N) : option N :=
  let v :=
    if (48 <=? c) && (c <=? 57) then Some (c - 48)
    else if (97 <=? c) && (c <=? 122) then Some (c - 87)
    else if (65 <=? c) && (c <=? 90) then Some (c - 55)
    else None in
  match v with
  | Some d => if d <? radix then Some d else None
  | None => None
  end.

Fixpoint parseDigits (radix : N) (acc : option N) (s : jsstring) : option N :=
  match s with
  | [] => acc
  | c :: s' =>
      match digitValue radix c with
      | Some d => parseDigits radix (Some (default 0 acc * radix + d)) s'
      | None => acc
      end
  end.

Definition parseInt (s : jsstring) : option Z :=
  let s := trimStart s in
  let '(neg, s) :=
    match s with
    | 45 :: s' => (true, s')
    | 43 :: s' => (false, s')
    | _ => (false, s)
    end in
  let '(radix, s) :=
    match s with
    | 48 :: 120 :: s' => (16, s')
    | 48 :: 88 :: s' => (16, s')
    | _ => (10, s)
    end in
  match parseDigits radix None s with
  | Some n => Some (if neg : bool then (- Z.of_N n)%Z else Z.of_N n)
  | None => None
  end.


(** ** The [RegExp] constructor

    The [pattern] attribute is handed to [new RegExp] as it stands; the
    pattern language of the host is kept abstract.  [RegExp_new] is [None]
    where the constructor throws a [SyntaxError]; the expressions it builds
    carry no flag, so [test] is a function of the string alone. *)

Class RegExpEngine : Type := {
  RegExp : Type;
  RegExp_new : jsstring -> option RegExp;
  RegExp_test : RegExp -> jsstring -> bool
}.

(** ** The document *)

Abbreviation node := nat.

(** An element, with the properties and attributes the script reads or
    writes.  [el_type], [el_name], [el_id] and [el_placeholder] are the IDL
    properties of those names (the empty string where the element has
    none), [el_labels] the elements of [labels] (empty where it is [null]),
    [el_display] is [style.display]. *)
Record Element : Type := mkElement {
  el_tagName : string;
  el_attributes : gmap string jsstring;
  el_type : jsstring;
  el_name : jsstring;
  el_id : jsstring;
  el_placeholder : jsstring;
  el_labels : list node;
  el_defaultValue : jsstring;
  el_value : jsstring;
  el_classList : list jsstring;
  el_display : jsstring;
  el_textContent : jsstring;
  el_disabled : bool;
  el_parentNode : option node;
  el_childNodes : list node
}.

Definition set_value (v : jsstring) (e : Element) : Element :=
  mkElement (el_tagName e) (el_attributes e) (el_type e) (el_name e) (el_id e)
    (el_placeholder e) (el_labels e) (el_defaultValue e) v (el_classList e)
    (el_display e) (el_textContent e) (el_disabled e) (el_parentNode e)
    (el_childNodes e).

Definition set_classList (v : list jsstring) (e : Element) : Element :=
  mkElement (el_tagName e) (el_attributes e) (el_type e) (el_name e) (el_id e)
    (el_placeholder e) (el_labels e) (el_defaultValue e) (el_value e) v
    (el_display e) (el_textContent e) (el_disabled e) (el_parentNode e)
    (el_childNodes e).

Definition set_display (v : jsstring) (e : Element) : Element :=
  mkElement (el_tagName e) (el_attributes e) (el_type e) (el_name e) (el_id e)
    (el_placeholder e) (el_labels e) (el_defaultValue e) (el_value e)
    (el_classList e) v (el_textContent e) (el_disabled e) (el_parentNode e)
    (el_childNodes e).

Definition set_textContent (v : jsstring) (e : Element) : Element :=
  mkElement (el_tagName e) (el_attributes e) (el_type e) (el_name e) (el_id e)
    (el_placeholder e) (el_labels e) (el_defaultValue e) (el_value e)
    (el_classList e) (el_display e) v (el_disabled e) (el_parentNode e)
    (el_childNodes e).

Definition set_disabled (v : bool) (e : Element) : Element :=
  mkElement (el_tagName e) (el_attributes e) (el_type e) (el_name e) (el_id e)
    (el_placeholder e) (el_labels e) (el_defaultValue e) (el_value e)
    (el_classList e) (el_display e) (el_textContent e) v (el_parentNode e)
    (el_childNodes e).

Definition set_parentNode (v : option node) (e : Element) : Element :=
  mkElement (el_tagName e) (el_attributes e) (el_type e) (el_name e) (el_id e)
    (el_placeholder e) (el_labels e) (el_defaultValue e) (el_value e)
    (el_classList e) (el_display e) (el_textContent e) (el_disabled e) v
    (el_childNodes e).

Definition set_childNodes (v : list node) (e : Element) : Element :=
  mkElement (el_tagName e) (el_attributes e) (el_type e) (el_name e) (el_id e)
    (el_placeholder e) (el_labels e) (el_defaultValue e) (el_value e)
    (el_classList e) (el_display e) (el_textContent e) (el_disabled e)
    (el_parentNode e) v.

(** [document.createElement(tag)] *)
Definition newElement (tag : string) : Element :=
  mkElement tag ∅ [] [] [] [] [] [] [] [] [] [] false None [].

#[global] Instance Element_inhabited : Inhabited Element :=
  populate (newElement "div").

(** ** Focus

    Whether [element.focus()] moves the focus is decided by the host: the
    element has to be a focusable area, which depends on how the page is
    rendered (style sheets, [hidden], a disabled [fieldset], inert
    subtrees) as much as on the element.  [focusable els n] is the host's
    answer for the element [n] of the document [els].  What is known of it
    is that a control whose [disabled] property is set is never
    focusable. *)
Class Browser : Type := {
  focusable : gmap node Element -> node -> bool;
  focusable_disabled els n :
    el_disabled (els !!! n) = true -> focusable els n = false
}.

Definition hasAttribute (e : Element) (a : string) : bool :=
  match el_attributes e !! a with Some _ => true | None => false end.

Definition getAttribute (e : Element) (a : string) : option jsstring :=
  el_attributes e !! a.

(** [DOMTokenList]: [add] appends a token that is not there yet, [remove]
    drops every listed token. *)
Definition classList_add (c : jsstring) (l : list jsstring) : list jsstring :=
  if decide (c ∈ l) then l else l ++ [c].

Definition classList_remove (cs l : list jsstring) : list jsstring :=
  filter (fun c => c ∉ cs) l.

(** The selectors the script queries with. *)
Inductive Selector : Type :=
  | SelClass (c : jsstring)
  | SelTags (tags : list string)
  | SelTagAttr (tag attr : string)
  | SelTagAttrEq (tag attr : string) (v : jsstring).

Definition toLowerASCII (c : N) : N :=
  if (65 <=? c) && (c <=? 90) then c + 32 else c.

(** [tag[attr="v"]] is only used on [type], whose value HTML documents
    compare without regard to ASCII case. *)
Definition sel_matches (sel : Selector) (e : Element) : bool :=
  match sel with
  | SelClass c => bool_decide (c ∈ el_classList e)
  | SelTags tags => bool_decide (el_tagName e ∈ tags)
  | SelTagAttr tag attr =>
      bool_decide (el_tagName e = tag) && hasAttribute e attr
  | SelTagAttrEq tag attr v =>
      bool_decide (el_tagName e = tag) &&
      match getAttribute e attr with
      | Some w => bool_decide (map toLowerASCII w = map toLowerASCII v)
      | None => false
      end
  end.

(** Class names and selectors of the script. *)
Definition form__error : jsstring := js "form__error".
Definition form__success : jsstring := js "form__success".
Definition form__input__error : jsstring := js "form__input--error".
Definition form__input__success : jsstring := js "form__input--success".
Definition modal__active : jsstring := js "modal--active".

(** ['form[data-validate]'] *)
Definition sel_forms : Selector := SelTagAttr "form" "data-validate".
(** ['input, textarea, select'] *)
Definition sel_inputs : Selector := SelTags ["input"; "textarea"; "select"]%string.
(** ['button[type="submit"]'] *)
Definition sel_submit : Selector := SelTagAttrEq "button" "type" (js "submit").

(** ** Validation rules *)

(** The rule objects pushed by [getValidationRules]: the tag is the [type]
    member, [value] is a number ([None] for [NaN]) or a compiled pattern. *)
Inductive Rule `{RegExpEngine} : Type :=
  | Required (message : jsstring)
  | Email (message : jsstring)
  | MinLength (value : option Z) (message : jsstring)
  | Pattern (value : RegExp) (message : jsstring)
  | Phone (message : jsstring).

Arguments Required {_} _.
Arguments Email {_} _.
Arguments MinLength {_} _ _.
Arguments Pattern {_} _ _.
Arguments Phone {_} _.

(** The object returned by [runValidationRule]. *)
Record RuleResult : Type := mkResult {
  result_isValid : bool;
  result_message : jsstring
}.

(** ** The store *)

(** A [fieldData] object. *)
Record FieldData `{RegExpEngine} : Type := mkField {
  fd_element : node;
  fd_isValid : bool;
  fd_rules : list Rule;
  fd_errorElement : node;
  fd_successElement : node
}.

Arguments mkField {_} _ _ _ _ _.

(** A [formData] object; [fm_fields] is the [Map], in insertion order, from
    field identifiers to [fieldData] objects. *)
Record FormData : Type := mkForm {
  fm_element : node;
  fm_fields : list (jsstring * nat);
  fm_isValid : bool
}.

(** The closures handed to [addEventListener], by what they capture. *)
Inductive Handler : Type :=
  | OnBlur (fieldData : nat)
  | OnInput (fieldData : nat)
  | OnInputDebounced (cell : nat) (fieldData : nat)
  | OnSubmit (formData : nat).

Record Listener : Type := mkListener {
  l_target : node;
  l_type : string;
  l_handler : Handler
}.

(** The closures handed to [setTimeout]. *)
Inductive Task : Type :=
  | Later (cell : nat) (fieldData : nat)
  | Submitted (formData : nat) (form : node) (submitBtn : option node)
  | ModalActivate (modal : node)
  | ModalDeactivate (modal : node)
  | ModalRemove (modal : node).

Record Timer : Type := mkTimer {
  t_id : nat;
  t_delay : nat;
  t_task : Task
}.

Inductive Error : Type := SyntaxError | TypeError.

Section Store.

Context `{Engine : RegExpEngine}.

#[global] Instance FieldData_inhabited : Inhabited FieldData :=
  populate (mkField 0%nat false [] 0%nat 0%nat).

#[global] Instance FormData_inhabited : Inhabited FormData :=
  populate (mkForm 0%nat [] false).

(** The page: the elements of the document, the objects the validator
    has allocated, [this.forms], the registered listeners, the pending
    timers, the [timeout] variable of each debounced function, the focused
    element and whether the event being dispatched had [preventDefault]
    called. *)
Record State : Type := mkState {
  nodes : gmap node Element;
  document : node;
  body : node;
  fieldObjs : gmap nat FieldData;
  formObjs : gmap nat FormData;
  forms : list nat;
  listeners : list Listener;
  timers : list Timer;
  nextTimer : nat;
  cells : gmap nat (option nat);
  activeElement : option node;
  defaultPrevented : bool
}.

Definition set_nodes (v : gmap node Element) (σ : State) : State :=
  mkState v (document σ) (body σ) (fieldObjs σ) (formObjs σ) (forms σ)
    (listeners σ) (timers σ) (nextTimer σ) (cells σ) (activeElement σ)
    (defaultPrevented σ).

Definition set_fieldObjs (v : gmap nat FieldData) (σ : State) : State :=
  mkState (nodes σ) (document σ) (body σ) v (formObjs σ) (forms σ)
    (listeners σ) (timers σ) (nextTimer σ) (cells σ) (activeElement σ)
    (defaultPrevented σ).

Definition set_formObjs (v : gmap nat FormData) (σ : State) : State :=
  mkState (nodes σ) (document σ) (body σ) (fieldObjs σ) v (forms σ)
    (listeners σ) (timers σ) (nextTimer σ) (cells σ) (activeElement σ)
    (defaultPrevented σ).

Definition set_forms (v : list nat) (σ : State) : State :=
  mkState (nodes σ) (document σ) (body σ) (fieldObjs σ) (formObjs σ) v
    (listeners σ) (timers σ) (nextTimer σ) (cells σ) (activeElement σ)
    (defaultPrevented σ).

Definition set_listeners (v : list Listener) (σ : State) : State :=
  mkState (nodes σ) (document σ) (body σ) (fieldObjs σ) (formObjs σ)
    (forms σ) v (timers σ) (nextTimer σ) (cells σ) (activeElement σ)
    (defaultPrevented σ).

Definition set_timers (v : list Timer) (next : nat) (σ : State) : State :=
  mkState (nodes σ) (document σ) (body σ) (fieldObjs σ) (formObjs σ)
    (forms σ) (listeners σ) v next (cells σ) (activeElement σ)
    (defaultPrevented σ).

Definition set_cells (v : gmap nat (option nat)) (σ : State) : State :=
  mkState (nodes σ) (document σ) (body σ) (fieldObjs σ) (formObjs σ)
    (forms σ) (listeners σ) (timers σ) (nextTimer σ) v (activeElement σ)
    (defaultPrevented σ).

Definition set_activeElement (v : option node) (σ : State) : State :=
  mkState (nodes σ) (document σ) (body σ) (fieldObjs σ) (formObjs σ)
    (forms σ) (listeners σ) (timers σ) (nextTimer σ) (cells σ) v
    (defaultPrevented σ).

Definition set_defaultPrevented (v : bool) (σ : State) : State :=
  mkState (nodes σ) (document σ) (body σ) (fieldObjs σ) (formObjs σ)
    (forms σ) (listeners σ) (timers σ) (nextTimer σ) (cells σ)
    (activeElement σ) v.

(** A page as the browser hands it over on [DOMContentLoaded]: nothing
    allocated, nothing registered. *)
Definition pageLoad (els : gmap node Element) (doc bdy : node) : State :=
  mkState els doc bdy ∅ ∅ [] [] [] 1%nat ∅ None false.

(** *** Reading and writing through references *)

Definition getNode (σ : State) (n : node) : Element := nodes σ !!! n.

Definition updNode (n : node) (f : Element -> Element) (σ : State) : State :=
  set_nodes (<[n := f (getNode σ n)]> (nodes σ)) σ.

Definition getField (σ : State) (fd : nat) : FieldData := fieldObjs σ !!! fd.

Definition set_isValid (v : bool) (f : FieldData) : FieldData :=
  mkField (fd_element f) v (fd_rules f) (fd_errorElement f)
    (fd_successElement f).

Definition updField (fd : nat) (f : FieldData -> FieldData) (σ : State)
  : State :=
  set_fieldObjs (<[fd := f (getField σ fd)]> (fieldObjs σ)) σ.

Definition getForm (σ : State) (fm : nat) : FormData := formObjs σ !!! fm.

(** [new Map().set(k, v)]: an existing key keeps its place. *)
Fixpoint Map_set (k : jsstring) (v : nat) (m : list (jsstring * nat))
  : list (jsstring * nat) :=
  match m with
  | [] => [(k, v)]
  | (k', v') :: m' =>
      if decide (k' = k) then (k, v) :: m' else (k', v') :: Map_set k v m'
  end.

(** *** Tree queries *)

(** The descendants of [n] in document order; no chain of children is
    longer than the number of elements. *)
Fixpoint descendants (fuel : nat) (σ : State) (n : node) : list node :=
  match fuel with
  | O => []
  | S fuel' =>
      flat_map (fun c => c :: descendants fuel' σ c)
        (el_childNodes (getNode σ n))
  end.

Definition querySelectorAll (σ : State) (root : node) (sel : Selector)
  : list node :=
  List.filter (fun n => sel_matches sel (getNode σ n))
    (descendants (size (nodes σ)) σ root).

Definition querySelector (σ : State) (root : node) (sel : Selector)
  : option node :=
  head (querySelectorAll σ root sel).

(** [document.createElement] followed by the given initialisation. *)
Definition createElement (e : Element) (σ : State) : node * State :=
  let n := fresh (dom (nodes σ)) in
  (n, set_nodes (<[n := e]> (nodes σ)) σ).

(** [parent.appendChild(child)] for a [child] that has no parent yet. *)
Definition appendChild (parent child : node) (σ : State) : State :=
  let σ := updNode child (set_parentNode (Some parent)) σ in
  updNode parent
    (fun e => set_childNodes (el_childNodes e ++ [child]) e) σ.

(** [parent.removeChild(child)] for a child of [parent]. *)
Definition removeChild (parent child : node) (σ : State) : State :=
  let σ := updNode child (set_parentNode None) σ in
  updNode parent
    (fun e => set_childNodes (filter (fun c => c ≠ child) (el_childNodes e)) e)
    σ.

Definition addEventListener (target : node) (type : string) (h : Handler)
    (σ : State) : State :=
  set_listeners (listeners σ ++ [mkListener target type h]) σ.

Definition setTimeout (task : Task) (delay : nat) (σ : State) : nat * State :=
  let id := nextTimer σ in
  (id, set_timers (timers σ ++ [mkTimer id delay task]) (S id) σ).

(** [clearTimeout(id)]; [None] is [undefined]. *)
Definition clearTimeout (id : option nat) (σ : State) : State :=
  match id with
  | Some i =>
      set_timers (filter (fun t => t_id t ≠ i) (timers σ)) (nextTimer σ) σ
  | None => σ
  end.

End Store.

(** ** The class [FormValidator] *)

Section FormValidator.

Context `{Engine : RegExpEngine} `{Host : Browser}.

(** How a call ends: normally, with its value, or by a thrown error; the
    store is the one reached at that point. *)
Inductive Completion (A : Type) : Type :=
  | Normal (a : A) (σ : State)
  | Thrown (e : Error) (σ : State).
Arguments Normal {A} a σ.
Arguments Thrown {A} e σ.

Definition final {A} (c : Completion A) : State :=
  match c with Normal _ σ => σ | Thrown _ σ => σ end.

(** [list.forEach(f)]: a throw leaves the loop. *)
Fixpoint forEach {A} (f : A -> State -> Completion unit) (l : list A)
    (σ : State) : Completion unit :=
  match l with
  | [] => Normal tt σ
  | x :: l' =>
      match f x σ with
      | Normal _ σ' => forEach f l' σ'
      | Thrown e σ' => Thrown e σ'
      end
  end.

(** *** Rule derivation *)

Definition attr (e : Element) (a : string) : jsstring :=
  default [] (getAttribute e a).

Definition getRequiredMessage (σ : State) (input : node) : jsstring :=
  let e := getNode σ input in
  let label :=
    match el_labels e with
    | l :: _ =>
        Some (trim (removeFirst (N_of_ascii "*") (el_textContent (getNode σ l))))
    | [] => None
    end in
  let fieldName :=
    orDefault (getAttribute e "data-field-name")
      (orDefault label (orElse (el_placeholder e) (js "This field"))) in
  fieldName ++ js " is required".

(** [None]: [new RegExp] threw. *)
Definition getValidationRules (σ : State) (input : node)
  : option (list Rule) :=
  let e := getNode σ input in
  let rules := [] in
  let rules :=
    if hasAttribute e "required"
    then rules ++ [Required (getRequiredMessage σ input)]
    else rules in
  let rules :=
    if bool_decide (el_type e = js "email")
    then rules ++ [Email (js "Please enter a valid email address")]
    else rules in
  let rules :=
    if hasAttribute e "minlength"
    then rules ++ [MinLength (parseInt (attr e "minlength"))
                     (js "Minimum " ++ attr e "minlength"
                        ++ js " characters required")]
    else rules in
  let rules :=
    if hasAttribute e "pattern"
    then
      match RegExp_new (attr e "pattern") with
      | Some r =>
          Some (rules ++ [Pattern r
                  (orDefault (getAttribute e "data-pattern-message")
                     (js "Please match the requested format"))])
      | None => None
      end
    else Some rules in
  match rules with
  | None => None
  | Some rules =>
      let fieldName := orElse (el_name e) (el_id e) in
      Some (if bool_decide (fieldName = js "phone")
            then rules ++ [Phone (js "Please enter a valid phone number")]
            else rules)
  end.

(** *** Indicator elements *)

Definition createErrorElement (input : node) (σ : State) : Completion node :=
  match el_parentNode (getNode σ input) with
  | None => Thrown TypeError σ
  | Some parent =>
      match querySelector σ parent (SelClass form__error) with
      | Some existing => Normal existing σ
      | None =>
          let '(errorElement, σ) :=
            createElement (set_classList [form__error] (newElement "div")) σ in
          Normal errorElement (appendChild parent errorElement σ)
      end
  end.

(** The text is a check mark (U+2713) followed by [" Looks good"]. *)
Definition createSuccessElement (input : node) (σ : State)
  : Completion node :=
  match el_parentNode (getNode σ input) with
  | None => Thrown TypeError σ
  | Some parent =>
      match querySelector σ parent (SelClass form__success) with
      | Some existing => Normal existing σ
      | None =>
          let '(successElement, σ) :=
            createElement
              (set_textContent (10003 :: js " Looks good")
                 (set_classList [form__success] (newElement "div"))) σ in
          Normal successElement (appendChild parent successElement σ)
      end
  end.

(** *** Field state *)

Definition clearFieldState (fieldData : nat) (σ : State) : State :=
  let f := getField σ fieldData in
  let σ := updNode (fd_element f)
             (fun e => set_classList
                (classList_remove [form__input__error; form__input__success]
                   (el_classList e)) e) σ in
  let σ := updNode (fd_errorElement f) (set_display (js "none")) σ in
  let σ := updNode (fd_successElement f) (set_display (js "none")) σ in
  updField fieldData (set_isValid false) σ.

Definition setFieldError (fieldData : nat) (message : jsstring) (σ : State)
  : State :=
  let f := getField σ fieldData in
  let σ := updNode (fd_element f)
             (fun e => set_classList
                (classList_add form__input__error (el_classList e)) e) σ in
  let σ := updNode (fd_element f)
             (fun e => set_classList
                (classList_remove [form__input__success] (el_classList e)) e)
             σ in
  let σ := updNode (fd_errorElement f) (set_textContent message) σ in
  let σ := updNode (fd_errorElement f) (set_display (js "block")) σ in
  updField fieldData (set_isValid false) σ.

Definition setFieldSuccess (fieldData : nat) (σ : State) : State :=
  let f := getField σ fieldData in
  let σ := updNode (fd_element f)
             (fun e => set_classList
                (classList_add form__input__success (el_classList e)) e) σ in
  let σ := updNode (fd_element f)
             (fun e => set_classList
                (classList_remove [form__input__error] (el_classList e)) e)
             σ in
  let σ := updNode (fd_successElement f) (set_display (js "block")) σ in
  updField fieldData (set_isValid true) σ.

(** *** Rule evaluation *)

Definition runValidationRule (rule : Rule) (value : jsstring) : RuleResult :=
  match rule with
  | Required message =>
      mkResult (0 <? length value)%nat message
  | Email message =>
      mkResult (negb (truthy value) || re_test emailRegex value) message
  | MinLength n message =>
      mkResult
        (negb (truthy value) ||
         match n with
         | Some n => (n <=? Z.of_nat (length value))%Z
         | None => false
         end)
        message
  | Pattern r message =>
      mkResult (negb (truthy value) || RegExp_test r value) message
  | Phone message =>
      mkResult
        (negb (truthy value) || re_test phoneRegex (stripSeparators value))
        message
  end.

(** The [for ... of] loop of [validateField] and what follows it. *)
Fixpoint validateField_rules (fieldData : nat) (rules : list Rule)
    (value : jsstring) (σ : State) : bool * State :=
  match rules with
  | [] => (true, setFieldSuccess fieldData σ)
  | rule :: rules' =>
      let result := runValidationRule rule value in
      if negb (result_isValid result)
      then (false, setFieldError fieldData (result_message result) σ)
      else validateField_rules fieldData rules' value σ
  end.

Definition validateField (fieldData : nat) (σ : State) : bool * State :=
  let f := getField σ fieldData in
  let value := trim (el_value (getNode σ (fd_element f))) in
  let σ := clearFieldState fieldData σ in
  validateField_rules fieldData (fd_rules f) value σ.

(** *** The form *)

(** The [forEach] of [validateForm], threading the local [isValid]. *)
Fixpoint validateForm_fields (fields : list (jsstring * nat))
    (isValid : bool) (σ : State) : bool * State :=
  match fields with
  | [] => (isValid, σ)
  | (_, fieldData) :: fields' =>
      let '(ok, σ) := validateField fieldData σ in
      validateForm_fields fields' (if negb ok then false else isValid) σ
  end.

Definition validateForm (formData : nat) (σ : State) : bool * State :=
  validateForm_fields (fm_fields (getForm σ formData)) true σ.

(** The modal is kept as one element; its inner markup, a static text and
    a close button, is not modelled. *)
Definition createSuccessModal (σ : State) : node * State :=
  createElement (set_classList [js "modal"] (newElement "div")) σ.

Definition showSuccessMessage (form : node) (σ : State) : State :=
  let '(successModal, σ) := createSuccessModal σ in
  let σ := appendChild (body σ) successModal σ in
  let σ := snd (setTimeout (ModalActivate successModal) 100 σ) in
  snd (setTimeout (ModalDeactivate successModal) 3000 σ).

(** [form.reset()]: every control of the form goes back to its default
    value. *)
Definition reset (form : node) (σ : State) : State :=
  foldl (fun σ n => updNode n (fun e => set_value (el_defaultValue e) e) σ)
    σ (querySelectorAll σ form sel_inputs).

(** The script reads the button's text into [originalText] before it
    relabels the button, and does not use it afterwards. *)
Definition submitForm (formData : nat) (σ : State) : State :=
  let form := fm_element (getForm σ formData) in
  let submitBtn := querySelector σ form sel_submit in
  let σ :=
    match submitBtn with
    | Some b =>
        let σ := updNode b (set_textContent (js "Submitting...")) σ in
        updNode b (set_disabled true) σ
    | None => σ
    end in
  snd (setTimeout (Submitted formData form submitBtn) 2000 σ).

(** The callback [submitForm] hands to [setTimeout]. *)
Definition submitted (formData : nat) (form : node) (submitBtn : option node)
    (σ : State) : State :=
  let σ := showSuccessMessage form σ in
  let σ := reset form σ in
  let σ :=
    foldl (fun σ '(_, fieldData) => clearFieldState fieldData σ)
      σ (fm_fields (getForm σ formData)) in
  match submitBtn with
  | Some b =>
      let σ :=
        updNode b
          (fun e => set_textContent
             (orDefault (getAttribute e "data-original-text") (js "Submit")) e)
          σ in
      updNode b (set_disabled false) σ
  | None => σ
  end.

(** [element.focus()]: the element becomes [document.activeElement] where
    the host can focus it; on a disabled, hidden or unrendered control the
    call does nothing.  The blur event of the element that loses the focus
    is the event [Blur] of [step] below: [focus()] is the last statement of
    [handleSubmit], so the blur listeners run on the page it leaves. *)
Definition focus (n : node) (σ : State) : State :=
  if focusable (nodes σ) n then set_activeElement (Some n) σ else σ.

Definition handleSubmit (formData : nat) (σ : State) : State :=
  let '(isValid, σ) := validateForm formData σ in
  if isValid
  then submitForm formData σ
  else
    let firstInvalidField :=
      find (fun '(_, fieldData) => negb (fd_isValid (getField σ fieldData)))
        (fm_fields (getForm σ formData)) in
    match firstInvalidField with
    | Some (_, fieldData) => focus (fd_element (getField σ fieldData)) σ
    | None => σ
    end.

(** *** Initialisation *)

(** [this.debounce(func, wait)]: a fresh [timeout] variable. *)
Definition debounce (σ : State) : nat * State :=
  let cell := fresh (dom (cells σ)) in
  (cell, set_cells (<[cell := None]> (cells σ)) σ).

Definition initializeField (formData : nat) (input : node) (σ : State)
  : Completion unit :=
  match getValidationRules σ input with
  | None => Thrown SyntaxError σ
  | Some rules =>
      match createErrorElement input σ with
      | Thrown e σ => Thrown e σ
      | Normal errorElement σ =>
          match createSuccessElement input σ with
          | Thrown e σ => Thrown e σ
          | Normal successElement σ =>
              let fieldData := fresh (dom (fieldObjs σ)) in
              let σ :=
                set_fieldObjs
                  (<[fieldData :=
                       mkField input false rules errorElement successElement]>
                     (fieldObjs σ)) σ in
              let σ := addEventListener input "blur" (OnBlur fieldData) σ in
              let σ := addEventListener input "input" (OnInput fieldData) σ in
              let σ :=
                if bool_decide (el_type (getNode σ input) = js "email")
                then
                  let '(cell, σ) := debounce σ in
                  addEventListener input "input"
                    (OnInputDebounced cell fieldData) σ
                else σ in
              let e := getNode σ input in
              let fm := getForm σ formData in
              Normal tt
                (set_formObjs
                   (<[formData :=
                        mkForm (fm_element fm)
                          (Map_set (orElse (el_name e) (el_id e)) fieldData
                             (fm_fields fm))
                          (fm_isValid fm)]> (formObjs σ)) σ)
          end
      end
  end.

(** The object literal [initializeForm] starts with. *)
Definition newFormData (form : node) (σ : State) : nat * State :=
  let formData := fresh (dom (formObjs σ)) in
  (formData,
   set_formObjs (<[formData := mkForm form [] false]> (formObjs σ)) σ).

Definition initializeForm (form : node) (σ : State) : Completion unit :=
  let '(formData, σ) := newFormData form σ in
  let inputs := querySelectorAll σ form sel_inputs in
  match forEach (initializeField formData) inputs σ with
  | Thrown e σ => Thrown e σ
  | Normal _ σ =>
      let σ := addEventListener form "submit" (OnSubmit formData) σ in
      Normal tt (set_forms (forms σ ++ [formData]) σ)
  end.

Definition setupFormValidation (σ : State) : Completion unit :=
  let forms := querySelectorAll σ (document σ) sel_forms in
  forEach initializeForm forms σ.

(** [new FormValidator()] *)
Definition FormValidator_new (σ : State) : Completion unit :=
  setupFormValidation (set_forms [] σ).

(** *** Events and timers *)

Definition runHandler (h : Handler) (σ : State) : State :=
  match h with
  | OnBlur fieldData => snd (validateField fieldData σ)
  | OnInput fieldData => clearFieldState fieldData σ
  | OnInputDebounced cell fieldData =>
      let σ := clearTimeout (default None (cells σ !! cell)) σ in
      let '(id, σ) := setTimeout (Later cell fieldData) 500 σ in
      set_cells (<[cell := Some id]> (cells σ)) σ
  | OnSubmit formData => handleSubmit formData (set_defaultPrevented true σ)
  end.

(** The listeners of [target] for [type] run in registration order. *)
Definition dispatchEvent (target : node) (type : string) (σ : State) : State :=
  foldl (fun σ l => runHandler (l_handler l) σ)
    (set_defaultPrevented false σ)
    (List.filter
       (fun l => bool_decide (l_target l = target) &&
                 bool_decide (l_type l = type))
       (listeners σ)).

Definition runTask (task : Task) (σ : State) : State :=
  match task with
  | Later cell fieldData =>
      let σ := clearTimeout (default None (cells σ !! cell)) σ in
      snd (validateField fieldData σ)
  | Submitted formData form submitBtn => submitted formData form submitBtn σ
  | ModalActivate modal =>
      updNode modal
        (fun e => set_classList (classList_add modal__active (el_classList e)) e)
        σ
  | ModalDeactivate modal =>
      let σ :=
        updNode modal
          (fun e => set_classList
             (classList_remove [modal__active] (el_classList e)) e) σ in
      snd (setTimeout (ModalRemove modal) 300 σ)
  | ModalRemove modal => removeChild (body σ) modal σ
  end.

(** What the page reacts to: the user leaves a field, edits it, submits a
    form, or a pending timer comes due. *)
Inductive Event : Type :=
  | Blur (target : node)
  | Input (target : node) (value : jsstring)
  | Submit (target : node)
  | TimerFired (id : nat).

Definition step (ev : Event) (σ : State) : State :=
  match ev with
  | Blur target => dispatchEvent target "blur" σ
  | Input target value =>
      dispatchEvent target "input" (updNode target (set_value value) σ)
  | Submit target => dispatchEvent target "submit" σ
  | TimerFired id =>
      match List.find (fun t => bool_decide (t_id t = id)) (timers σ) with
      | Some t =>
          runTask (t_task t)
            (set_timers (filter (fun t => t_id t ≠ id) (timers σ))
               (nextTimer σ) σ)
      | None => σ
      end
  end.

End FormValidator.

Arguments Normal {_ _} a σ.
Arguments Thrown {_ _} e σ.

(** ** What is observed of a field *)

Section Observations.

Context `{Engine : RegExpEngine} `{Host : Browser}.

(** The [message] member of a rule object. *)
Definition rule_message (rule : Rule) : jsstring :=
  match rule with
  | Required m | Email m | MinLength _ m | Pattern _ m | Phone m => m
  end.

(** The place of a rule kind in the sequence Required, Email, MinLength,
    Pattern, Phone. *)
Definition rule_rank (rule : Rule) : nat :=
  match rule with
  | Required _ => 0
  | Email _ => 1
  | MinLength _ _ => 2
  | Pattern _ _ => 3
  | Phone _ => 4
  end.

Definition passes (rule : Rule) (value : jsstring) : bool :=
  result_isValid (runValidationRule rule value).

(** The value a validation of the field reads. *)
Definition currentValue (σ : State) (fieldData : nat) : jsstring :=
  trim (el_value (getNode σ (fd_element (getField σ fieldData)))).

Definition hidden (σ : State) (n : node) : Prop :=
  el_display (getNode σ n) = js "none".

Definition shown (σ : State) (n : node) : Prop :=
  el_display (getNode σ n) = js "block".

Definition hasClass (σ : State) (n : node) (c : jsstring) : Prop :=
  c ∈ el_classList (getNode σ n).

(** The neutral state of a field: not valid, both indicators hidden, no
    state class on the control. *)
Definition neutral (σ : State) (fieldData : nat) : Prop :=
  let f := getField σ fieldData in
  fd_isValid f = false /\
  hidden σ (fd_errorElement f) /\
  hidden σ (fd_successElement f) /\
  ~ hasClass σ (fd_element f) form__input__error /\
  ~ hasClass σ (fd_element f) form__input__success.

(** The invalid state, showing [message]. *)
Definition invalidWith (σ : State) (fieldData : nat) (message : jsstring)
  : Prop :=
  let f := getField σ fieldData in
  fd_isValid f = false /\
  shown σ (fd_errorElement f) /\
  el_textContent (getNode σ (fd_errorElement f)) = message /\
  hasClass σ (fd_element f) form__input__error /\
  ~ hasClass σ (fd_element f) form__input__success.

(** The valid state. *)
Definition validShown (σ : State) (fieldData : nat) : Prop :=
  let f := getField σ fieldData in
  fd_isValid f = true /\
  shown σ (fd_successElement f) /\
  hasClass σ (fd_element f) form__input__success /\
  ~ hasClass σ (fd_element f) form__input__error.

Definition classesExclusive (σ : State) (fieldData : nat) : Prop :=
  let f := getField σ fieldData in
  ~ (hasClass σ (fd_element f) form__input__error /\
     hasClass σ (fd_element f) form__input__success).

(** At most one indicator is on display. *)
Definition indicatorsExclusive (σ : State) (fieldData : nat) : Prop :=
  let f := getField σ fieldData in
  hidden σ (fd_errorElement f) \/ hidden σ (fd_successElement f).

(** Only white space, as [trim] sees it. *)
Definition blank (value : jsstring) : Prop :=
  Forall (fun c => is_space c = true) value.

(** The specification's wording of the phone format: an optional [+], a
    digit from 1 to 9, then at most fifteen digits. *)
Definition phoneShape (s : jsstring) : Prop :=
  exists sign d ds,
    s = sign ++ d :: ds /\ (sign = [] \/ sign = js "+") /\
    is_digit19 d = true /\ Forall (fun c => is_digit c = true) ds /\
    (length ds <= 15)%nat.

(** Every tracked field of the form is flagged valid. *)
Definition allFieldsValid (σ : State) (formData : nat) : bool :=
  forallb (fun '(_, fieldData) => fd_isValid (getField σ fieldData))
    (fm_fields (getForm σ formData)).

(** The field would pass validation on its current value. *)
Definition fieldPasses (σ : State) (fieldData : nat) : bool :=
  forallb (fun rule => passes rule (currentValue σ fieldData))
    (fd_rules (getField σ fieldData)).

(** Two elements that differ at most in what the field operations write:
    the class list, [style.display] and the text. *)
Definition sameControl (e e' : Element) : Prop :=
  el_tagName e' = el_tagName e /\ el_attributes e' = el_attributes e /\
  el_type e' = el_type e /\ el_name e' = el_name e /\ el_id e' = el_id e /\
  el_placeholder e' = el_placeholder e /\ el_labels e' = el_labels e /\
  el_defaultValue e' = el_defaultValue e /\ el_value e' = el_value e /\
  el_disabled e' = el_disabled e /\ el_parentNode e' = el_parentNode e /\
  el_childNodes e' = el_childNodes e.

(** Two [fieldData] objects that differ at most in [isValid]. *)
Definition sameField (f f' : FieldData) : Prop :=
  fd_element f' = fd_element f /\ fd_rules f' = fd_rules f /\
  fd_errorElement f' = fd_errorElement f /\
  fd_successElement f' = fd_successElement f.

(** What validating and clearing fields leaves as it was: every element up
    to its class list, display and text, every [fieldData] up to
    [isValid], and the rest of the page. *)
Definition fieldFrame (σ σ' : State) : Prop :=
  (forall n, sameControl (getNode σ n) (getNode σ' n)) /\
  (forall fd, sameField (getField σ fd) (getField σ' fd)) /\
  formObjs σ' = formObjs σ /\ forms σ' = forms σ /\
  listeners σ' = listeners σ /\ timers σ' = timers σ /\
  nextTimer σ' = nextTimer σ /\ cells σ' = cells σ /\
  activeElement σ' = activeElement σ /\
  defaultPrevented σ' = defaultPrevented σ /\
  document σ' = document σ /\ body σ' = body σ.

(** [validateField] run over the fields of a [Map] in insertion order. *)
Definition validatedAll (fields : list (jsstring * nat)) (σ : State) : State :=
  foldl (fun σ '(_, fieldData) => snd (validateField fieldData σ)) σ fields.

(** [clearFieldState] run over the fields of a [Map] in insertion order. *)
Definition clearedAll (fields : list (jsstring * nat)) (σ : State) : State :=
  foldl (fun σ '(_, fieldData) => clearFieldState fieldData σ) σ fields.

(** The loop of [reset] over the controls. *)
Definition resetAll (controls : list node) (σ : State) : State :=
  foldl (fun σ n => updNode n (fun e => set_value (el_defaultValue e) e) σ)
    σ controls.

(** The [isValid] member of every [formData] object is [false]. *)
Definition formsFalse (σ : State) : Prop :=
  forall fm f, formObjs σ !! fm = Some f -> fm_isValid f = false.

(** The form elements of [this.forms], in order. *)
Definition registeredForms (σ : State) : list node :=
  map (fun fm => fm_element (getForm σ fm)) (forms σ).

(** Every object of [this.forms] is allocated. *)
Definition formsAllocated (σ : State) : Prop :=
  forall fm, fm ∈ forms σ -> is_Some (formObjs σ !! fm).

(** Two pages with the same objects, listeners and timers: they differ in
    the document only. *)
Definition sameRegistry (σ σ' : State) : Prop :=
  fieldObjs σ' = fieldObjs σ /\ formObjs σ' = formObjs σ /\
  forms σ' = forms σ /\ listeners σ' = listeners σ /\
  timers σ' = timers σ /\ nextTimer σ' = nextTimer σ /\ cells σ' = cells σ.

(** From [σ] to [σ'], [this.forms] is the same list, the [formData]
    objects there were are still there, for the same form element, and
    the new listeners are on elements of [targets]. *)
Definition initFrame (targets : list node) (σ σ' : State) : Prop :=
  forms σ' = forms σ /\
  (forall k f, formObjs σ !! k = Some f ->
               exists f', formObjs σ' !! k = Some f' /\
                          fm_element f' = fm_element f) /\
  exists added, listeners σ' = listeners σ ++ added /\
                Forall (fun l => l_target l ∈ targets) added.

End Observations.

(** ** Reachable pages *)

Section Reachable.

Context `{Engine : RegExpEngine} `{Host : Browser}.

(** The pages the script can be in: the one left by the
    [DOMContentLoaded] listener, however [new FormValidator()] ended, and
    those that follow by events. *)
Inductive reachable : State -> Prop :=
  | reach_load els doc bdy :
      reachable (final (FormValidator_new (pageLoad els doc bdy)))
  | reach_step σ ev : reachable σ -> reachable (step ev σ).

End Reachable.

(** ** Example pages *)

(** An engine for the examples below.  A pattern of ASCII letters and digits
    is searched for as it stands, as ECMAScript does; the one other pattern
    the examples use, a lone opening parenthesis, is rejected, as ECMAScript
    rejects it (unterminated group).  The examples build no other pattern;
    this engine rejects them all. *)
Module ExampleEngine.

Definition is_alnum (c : N) : bool :=
  ((48 <=? c) && (c <=? 57)) || ((65 <=? c) && (c <=? 90))
  || ((97 <=? c) && (c <=? 122)).

Fixpoint startsWith (p s : jsstring) : bool :=
  match p, s with
  | [], _ => true
  | c :: p', d :: s' => (c =? d) && startsWith p' s'
  | _ :: _, [] => false
  end.

Fixpoint includes (p s : jsstring) : bool :=
  startsWith p s ||
  match s with
  | [] => false
  | _ :: s' => includes p s'
  end.

#[export] Instance engine : RegExpEngine := {
  RegExp := jsstring;
  RegExp_new p := if forallb is_alnum p then Some p else None;
  RegExp_test := includes
}.

(** The host of the examples focuses every control that is enabled, is not
    of type [hidden] and whose own [style.display] is not [none]. *)
Definition canFocus (els : gmap node Element) (n : node) : bool :=
  negb (el_disabled (els !!! n))
  && negb (bool_decide (el_type (els !!! n) = js "hidden"))
  && negb (bool_decide (el_display (els !!! n) = js "none")).

Lemma canFocus_disabled els n :
  el_disabled (els !!! n) = true -> canFocus els n = false.
Proof. unfold canFocus. by intros ->. Qed.

#[export] Instance browser : Browser := {
  focusable := canFocus;
  focusable_disabled := canFocus_disabled
}.

End ExampleEngine.

Module Examples.

Import ExampleEngine.

(** Markup helpers: an element with a tag, attributes and children; a
    control with its [type], [name], attributes and value. *)
Definition elem (tag : string) (attrs : list (string * jsstring))
    (classes : list jsstring) (text : jsstring) (parent : option node)
    (children : list node) : Element :=
  mkElement tag (list_to_map attrs) [] [] [] [] [] [] [] classes [] text
    false parent children.

Definition control (tag : string) (type name : jsstring)
    (attrs : list (string * jsstring)) (value : jsstring) (parent : node)
  : Element :=
  mkElement tag (list_to_map attrs) type name [] [] [] value value [] [] []
    false (Some parent) [].

Definition page (els : list (node * Element)) : State :=
  pageLoad (list_to_map els) 0%nat 1%nat.

(** A registration form of three controls, each in a group of its own (a
    required e-mail address, a code with a pattern, a phone number whose
    default value is a country prefix) and a submit button; then a contact
    form with a required message and a company name. *)
Definition twoForms (codePattern : jsstring) : State :=
  page
    [ (0, elem "html" [] [] [] None [1])
    ; (1, elem "body" [] [] [] (Some 0) [2; 10])
    ; (2, elem "form" [("data-validate", [])] [] [] (Some 1) [3; 5; 7; 9])
    ; (3, elem "div" [] [] [] (Some 2) [4])
    ; (4, control "input" (js "email") (js "email") [("required", [])] [] 3)
    ; (5, elem "div" [] [] [] (Some 2) [6])
    ; (6, control "input" (js "text") (js "code")
            [("pattern", codePattern)] [] 5)
    ; (7, elem "div" [] [] [] (Some 2) [8])
    ; (8, control "input" (js "tel") (js "phone") [] (js "+1") 7)
    ; (9, elem "button" [("type", js "submit")] [] (js "Register") (Some 2) [])
    ; (10, elem "form" [("data-validate", [])] [] [] (Some 1) [11; 13])
    ; (11, elem "div" [] [] [] (Some 10) [12])
    ; (12, control "textarea" (js "textarea") (js "message")
             [("required", [])] [] 11)
    ; (13, elem "div" [] [] [] (Some 10) [14])
    ; (14, control "input" (js "text") (js "company") [] [] 13)
    ]%nat.

(** The page once the validator is set up: fields 0 to 4 are the e-mail
    address, the code, the phone number, the message and the company;
    forms 0 and 1 the registration and the contact form. *)
Definition ready : State := final (FormValidator_new (twoForms (js "abc"))).

(** A group whose markup provides one element for both indicators. *)
Definition sharedIndicator : State :=
  page
    [ (0, elem "html" [] [] [] None [1])
    ; (1, elem "body" [] [] [] (Some 0) [2])
    ; (2, elem "form" [("data-validate", [])] [] [] (Some 1) [3])
    ; (3, elem "div" [] [] [] (Some 2) [4; 5])
    ; (4, control "input" (js "text") (js "nick") [("required", [])] [] 3)
    ; (5, elem "div" [] [form__error; form__success] [] (Some 3) [])
    ]%nat.

(** A form whose one control, a required text input, is disabled, and the
    page once the validator is set up on it. *)
Definition lockedForm : State :=
  page
    [ (0, elem "html" [] [] [] None [1])
    ; (1, elem "body" [] [] [] (Some 0) [2])
    ; (2, elem "form" [("data-validate", [])] [] [] (Some 1) [3; 5])
    ; (3, elem "div" [] [] [] (Some 2) [4])
    ; (4, set_disabled true
            (control "input" (js "text") (js "code")
               [("required", []); ("disabled", [])] [] 3))
    ; (5, elem "button" [("type", js "submit")] [] (js "Send") (Some 2) [])
    ]%nat.

Definition lockedReady : State := final (FormValidator_new lockedForm).

End Examples.

(** ** Further observations *)

Section MoreObservations.

Context `{Engine : RegExpEngine} `{Host : Browser}.

(** A character the e-mail literal admits outside its [@] and its dot. *)
Definition emailChar (c : N) : Prop := is_space c = false /\ c ≠ 64.

(** The e-mail format in words: a local part, an [@], a domain and, after a
    dot of the domain, a last part; the three parts are not empty and hold
    neither white space nor [@]. *)
Definition emailShape (s : jsstring) : Prop :=
  exists a b c,
    s = a ++ 64 :: b ++ 46 :: c /\
    a ≠ [] /\ b ≠ [] /\ c ≠ [] /\
    Forall emailChar a /\ Forall emailChar b /\ Forall emailChar c.

(** A decimal numeral, a run of ASCII digits that is not empty, and the
    number it denotes. *)
Definition numeral (s : jsstring) : Prop :=
  s ≠ [] /\ Forall (fun c => is_digit c = true) s.

Definition decimal (s : jsstring) : N :=
  foldl (fun n c => n * 10 + (c - 48)) 0 s.

(** The identifiers of a [Map], in insertion order. *)
Definition Map_keys (m : list (jsstring * nat)) : list jsstring := m.*1.

(** The identifier a control is tracked under. *)
Definition fieldKey (σ : State) (input : node) : jsstring :=
  orElse (el_name (getNode σ input)) (el_id (getNode σ input)).

(** The pending timers of the debounced function that owns [cell]. *)
Definition pendingLater (cell : nat) (σ : State) : list Timer :=
  List.filter
    (fun t => match t_task t with
              | Later c _ => bool_decide (c = cell)
              | _ => false
              end)
    (timers σ).

(** Timer identifiers are distinct and below the next one to be handed
    out, and a pending timer of a debounced function is the one its
    [timeout] variable holds. *)
Definition debounceInv (σ : State) : Prop :=
  NoDup (t_id <$> timers σ) /\
  (forall t, t ∈ timers σ -> (t_id t < nextTimer σ)%nat) /\
  (forall t cell fd,
      t ∈ timers σ -> t_task t = Later cell fd ->
      cells σ !! cell = Some (Some (t_id t))).

(** Listeners are registered for the event their closure is written for. *)
Definition listenerTyped (l : Listener) : Prop :=
  match l_handler l with
  | OnBlur _ => l_type l = "blur"%string
  | OnInput _ | OnInputDebounced _ _ => l_type l = "input"%string
  | OnSubmit _ => l_type l = "submit"%string
  end.

(** A flag that is up in [σ'] was up in [σ] or is backed by the rules on
    the value the field holds in [σ']. *)
Definition flagsSound (σ σ' : State) : Prop :=
  forall fd,
    fd_isValid (getField σ' fd) = true ->
    fd_isValid (getField σ fd) = true \/ fieldPasses σ' fd = true.

(** A sequence of writes to elements, each computed from the element as it
    then stands. *)
Definition writeNodes (ws : list (node * (Element -> Element)))
    (els : gmap node Element) : gmap node Element :=
  foldl (fun els w => <[w.1 := w.2 (els !!! w.1)]> els) els ws.

(** What a sequence of writes does to the element [n]. *)
Definition writesAt (ws : list (node * (Element -> Element))) (n : node)
    (e : Element) : Element :=
  foldl (fun e w => if decide (w.1 = n) then w.2 e else e) e ws.

(** The writes of [clearFieldState], [setFieldError] and [setFieldSuccess]
    on the elements of a field. *)
Definition clearWrites (f : FieldData) : list (node * (Element -> Element)) :=
  [ (fd_element f,
     fun e => set_classList
                (classList_remove [form__input__error; form__input__success]
                   (el_classList e)) e)
  ; (fd_errorElement f, set_display (js "none"))
  ; (fd_successElement f, set_display (js "none")) ].

Definition errorWrites (f : FieldData) (message : jsstring)
  : list (node * (Element -> Element)) :=
  [ (fd_element f,
     fun e => set_classList
                (classList_add form__input__error (el_classList e)) e)
  ; (fd_element f,
     fun e => set_classList
                (classList_remove [form__input__success] (el_classList e)) e)
  ; (fd_errorElement f, set_textContent message)
  ; (fd_errorElement f, set_display (js "block")) ].

Definition successWrites (f : FieldData)
  : list (node * (Element -> Element)) :=
  [ (fd_element f,
     fun e => set_classList
                (classList_add form__input__success (el_classList e)) e)
  ; (fd_element f,
     fun e => set_classList
                (classList_remove [form__input__error] (el_classList e)) e)
  ; (fd_successElement f, set_display (js "block")) ].

(** A sequence of writes to elements together with one to the flag of a
    [fieldData] object. *)
Definition writeField (fd : nat) (v : bool)
    (ws : list (node * (Element -> Element))) (σ : State) : State :=
  set_fieldObjs (<[fd := set_isValid v (getField σ fd)]> (fieldObjs σ))
    (set_nodes (writeNodes ws (nodes σ)) σ).

(** Every object of [this.forms] is allocated and has its submit listener
    on its form element. *)
Definition submitWired (σ : State) : Prop :=
  forall fm,
    fm ∈ forms σ ->
    is_Some (formObjs σ !! fm) /\
    mkListener (fm_element (getForm σ fm)) "submit" (OnSubmit fm)
    ∈ listeners σ.

(** What [createErrorElement] and [createSuccessElement] have in common:
    the indicator of class [c] of the control's group is looked up, and
    the element [e0] is created for it when there is none. *)
Definition createIndicator (c : jsstring) (e0 : Element) (input : node)
    (σ : State) : Completion node :=
  match el_parentNode (getNode σ input) with
  | None => Thrown TypeError σ
  | Some parent =>
      match querySelector σ parent (SelClass c) with
      | Some existing => Normal existing σ
      | None =>
          let '(indicator, σ) := createElement e0 σ in
          Normal indicator (appendChild parent indicator σ)
      end
  end.

(** A chain of children below [r]: the first element of [l] is a child of
    [r], each of the others a child of the one before it. *)
Fixpoint walk (σ : State) (r : node) (l : list node) : Prop :=
  match l with
  | [] => True
  | y :: l' => y ∈ el_childNodes (getNode σ r) /\ walk σ y l'
  end.

(** The identifiers of the fields a form tracks are distinct. *)
Definition keysDistinct (σ : State) : Prop :=
  forall fm f, formObjs σ !! fm = Some f -> NoDup (Map_keys (fm_fields f)).

(** What creating and appending elements leaves of an element that was
    there: all but its children, classes, display and text. *)
Definition sameIdentity (e e' : Element) : Prop :=
  el_tagName e' = el_tagName e /\ el_attributes e' = el_attributes e /\
  el_type e' = el_type e /\ el_name e' = el_name e /\ el_id e' = el_id e /\
  el_placeholder e' = el_placeholder e /\ el_labels e' = el_labels e /\
  el_defaultValue e' = el_defaultValue e /\ el_value e' = el_value e /\
  el_parentNode e' = el_parentNode e.

(** From [σ] to [σ'] the listeners, [this.forms] and the [formData] objects
    are the same, and every [fieldData] object is the same up to its
    flag. *)
Definition sameWiring (σ σ' : State) : Prop :=
  listeners σ' = listeners σ /\ forms σ' = forms σ /\
  formObjs σ' = formObjs σ /\
  (forall fd, sameField (getField σ fd) (getField σ' fd)).

(** What a listener leaves as it was: the wiring and the value of every
    control. *)
Definition handlerFrame (σ σ' : State) : Prop :=
  sameWiring σ σ' /\
  (forall n, el_value (getNode σ' n) = el_value (getNode σ n)).

(** The fields the forms track are allocated. *)
Definition trackedAllocated (σ : State) : Prop :=
  forall fm f k fd,
    formObjs σ !! fm = Some f -> (k, fd) ∈ fm_fields f ->
    is_Some (fieldObjs σ !! fd).

(** Every field a form tracks has its blur and its input listener on its
    control. *)
Definition trackedWired (σ : State) : Prop :=
  forall fm f k fd,
    formObjs σ !! fm = Some f -> (k, fd) ∈ fm_fields f ->
    mkListener (fd_element (getField σ fd)) "blur" (OnBlur fd) ∈ listeners σ /\
    mkListener (fd_element (getField σ fd)) "input" (OnInput fd) ∈ listeners σ.

(** What holds of the wiring while the page is set up, and afterwards. *)
Definition setupInv (σ : State) : Prop :=
  trackedAllocated σ /\ trackedWired σ /\ Forall listenerTyped (listeners σ).

Definition wiredInv (σ : State) : Prop :=
  trackedWired σ /\ Forall listenerTyped (listeners σ).

End MoreObservations.

(** ** Further example pages *)

Module MoreExamples.

Import ExampleEngine Examples.

(** A sign-up form: a user name of at least three characters, labelled
    [Name *] and required, an optional e-mail address, then two check boxes
    that share the name [topics], all in one group. *)
Definition signup : State :=
  page
    [ (0, elem "html" [] [] [] None [1])
    ; (1, elem "body" [] [] [] (Some 0) [2])
    ; (2, elem "form" [("data-validate", [])] [] [] (Some 1) [3])
    ; (3, elem "div" [] [] [] (Some 2) [4; 5; 6; 7; 8])
    ; (4, elem "label" [] [] (js "Name *") (Some 3) [])
    ; (5, mkElement "input" (list_to_map [("required", []); ("minlength", js "3")])
            (js "text") (js "user") [] (js "Your name") [4] [] (js " ab ")
            [] [] [] false (Some 3) [])
    ; (6, control "input" (js "email") (js "mail") [] (js "a@b") 3)
    ; (7, control "input" (js "checkbox") (js "topics") [] (js "news") 3)
    ; (8, control "input" (js "checkbox") (js "topics") [] (js "offers") 3)
    ]%nat.

(** The page once the validator is set up: fields 0 to 3 are the user
    name, the e-mail address and the two check boxes; the indicators of the
    group are the elements 9 and 10. *)
Definition signupReady : State := final (FormValidator_new signup).

End MoreExamples.

(** * ThemeToggle: a shallow embedding of [assets/js/theme-toggle.js]

    The class [ThemeToggle] is modelled over the document of the store
    above, of which only the elements matter here, together with
    [localStorage], the [prefers-color-scheme] media query and the two
    members of the object. *)

Module ThemeToggle.

Section Model.

Context `{Engine : RegExpEngine}.

(** Class names, selectors and strings of the script.  The icons are a sun,
    U+2600 U+FE0F, and a crescent moon, U+1F319, in UTF-16. *)
Definition theme__dark : jsstring := js "theme--dark".
Definition theme__light : jsstring := js "theme--light".
Definition dark : jsstring := js "dark".
Definition light : jsstring := js "light".
Definition sel_toggle : Selector := SelClass (js "theme-toggle").
Definition sel_header : Selector := SelClass (js "header__container").
Definition sun : jsstring := [9728; 65039].
Definition moon : jsstring := [55356; 57113].

(** What the script finds when it is loaded: the document, its root
    element, the storage of the origin and whether the system asks for a
    dark scheme. *)
Record Env : Type := mkEnv {
  env_page : State;
  env_html : node;
  env_storage : gmap string jsstring;
  env_prefersDark : bool
}.

(** The page with a [ThemeToggle] object: [toggleButton] is [None] while
    the member is undefined. *)
Record Theme : Type := mkTheme {
  page : State;
  html : node;
  localStorage : gmap string jsstring;
  prefersDark : bool;
  currentTheme : jsstring;
  toggleButton : option node
}.

Definition set_page (v : State) (s : Theme) : Theme :=
  mkTheme v (html s) (localStorage s) (prefersDark s) (currentTheme s)
    (toggleButton s).

Definition set_localStorage (v : gmap string jsstring) (s : Theme) : Theme :=
  mkTheme (page s) (html s) v (prefersDark s) (currentTheme s)
    (toggleButton s).

Definition set_prefersDark (v : bool) (s : Theme) : Theme :=
  mkTheme (page s) (html s) (localStorage s) v (currentTheme s)
    (toggleButton s).

Definition set_currentTheme (v : jsstring) (s : Theme) : Theme :=
  mkTheme (page s) (html s) (localStorage s) (prefersDark s) v
    (toggleButton s).

Definition set_toggleButton (v : option node) (s : Theme) : Theme :=
  mkTheme (page s) (html s) (localStorage s) (prefersDark s) (currentTheme s)
    v.

(** [element.setAttribute(name, value)] *)
Definition setAttribute (a : string) (v : jsstring) (e : Element) : Element :=
  mkElement (el_tagName e) (<[a := v]> (el_attributes e)) (el_type e)
    (el_name e) (el_id e) (el_placeholder e) (el_labels e)
    (el_defaultValue e) (el_value e) (el_classList e) (el_display e)
    (el_textContent e) (el_disabled e) (el_parentNode e) (el_childNodes e).

(** [element.closest(selector)]: the element or its nearest ancestor that
    matches. *)
Fixpoint closest_from (fuel : nat) (σ : State) (sel : Selector) (n : node)
  : option node :=
  match fuel with
  | O => None
  | S fuel' =>
      if sel_matches sel (getNode σ n) then Some n
      else
        match el_parentNode (getNode σ n) with
        | Some p => closest_from fuel' σ sel p
        | None => None
        end
  end.

Definition closest (σ : State) (sel : Selector) (n : node) : option node :=
  closest_from (S (size (nodes σ))) σ sel n.

(** [localStorage.getItem('theme')]; [None] is [null]. *)
Definition getStoredTheme (s : Theme) : option jsstring :=
  localStorage s !! "theme"%string.

Definition getPreferredTheme (s : Theme) : jsstring :=
  if prefersDark s then dark else light.

Definition setStoredTheme (theme : jsstring) (s : Theme) : Theme :=
  set_localStorage (<["theme"%string := theme]> (localStorage s)) s.

(** The strings assigned to [innerHTML] hold no markup; they are kept as
    the text of the button. *)
Definition updateToggleButton (s : Theme) : Theme :=
  match toggleButton s with
  | None => s
  | Some b =>
      let isDark := bool_decide (currentTheme s = dark) in
      let σ := page s in
      let σ :=
        updNode b (set_textContent (if isDark then sun else moon)) σ in
      let σ :=
        updNode b
          (setAttribute "aria-label"
             (if isDark then js "Switch to light theme"
              else js "Switch to dark theme")) σ in
      let σ :=
        updNode b
          (setAttribute "title"
             (if isDark then js "Switch to light theme"
              else js "Switch to dark theme")) σ in
      set_page σ s
  end.

Definition applyTheme (theme : jsstring) (s : Theme) : Theme :=
  let σ := page s in
  let σ :=
    if bool_decide (theme = dark)
    then
      let σ :=
        updNode (html s)
          (fun e => set_classList (classList_add theme__dark (el_classList e)) e)
          σ in
      updNode (html s)
        (fun e => set_classList
                    (classList_remove [theme__light] (el_classList e)) e) σ
    else
      let σ :=
        updNode (html s)
          (fun e => set_classList (classList_add theme__light (el_classList e)) e)
          σ in
      updNode (html s)
        (fun e => set_classList
                    (classList_remove [theme__dark] (el_classList e)) e) σ in
  updateToggleButton (set_currentTheme theme (set_page σ s)).

Definition toggleTheme (s : Theme) : Theme :=
  let newTheme := if bool_decide (currentTheme s = dark) then light else dark in
  setStoredTheme newTheme (applyTheme newTheme s).

Definition createToggleButton (s : Theme) : Theme :=
  match querySelector (page s) (document (page s)) sel_toggle with
  | Some existingButton => s
  | None =>
      let '(button, σ) :=
        createElement
          (setAttribute "title" (js "Toggle dark/light theme")
             (setAttribute "aria-label" (js "Toggle theme")
                (set_classList [js "theme-toggle"] (newElement "button"))))
          (page s) in
      let σ :=
        match querySelector σ (document σ) sel_header with
        | Some headerContainer => appendChild headerContainer button σ
        | None => appendChild (body σ) button σ
        end in
      updateToggleButton (set_toggleButton (Some button) (set_page σ s))
  end.

(** [init]; the three listeners of [setupEventListeners] are the cases of
    [step] below. *)
Definition init (s : Theme) : Theme :=
  createToggleButton (applyTheme (currentTheme s) s).

(** [new ThemeToggle()] *)
Definition ThemeToggle_new (env : Env) : Theme :=
  let s :=
    mkTheme (env_page env) (env_html env) (env_storage env)
      (env_prefersDark env) [] None in
  init (set_currentTheme
          (orDefault (getStoredTheme s) (getPreferredTheme s)) s).

(** What the object reacts to: the system scheme changes, a click, a key
    goes down. *)
Inductive Event : Type :=
  | SystemChange (matches : bool)
  | Click (target : node)
  | KeyDown (ctrlKey metaKey shiftKey : bool) (key : jsstring).

Definition step (ev : Event) (s : Theme) : Theme :=
  match ev with
  | SystemChange matches =>
      let s := set_prefersDark matches s in
      if negb (truthy (default [] (getStoredTheme s)))
      then applyTheme (if matches then dark else light) s
      else s
  | Click target =>
      match closest (page s) sel_toggle target with
      | Some _ => toggleTheme s
      | None => s
      end
  | KeyDown ctrlKey metaKey shiftKey key =>
      if (ctrlKey || metaKey) && shiftKey && bool_decide (key = js "D")
      then toggleTheme s
      else s
  end.

(** The states of a page on which the script was loaded. *)
Inductive reachable : Theme -> Prop :=
  | reach_load env : reachable (ThemeToggle_new env)
  | reach_step s ev : reachable s -> reachable (step ev s).

(** *** What is observed *)

Definition htmlClasses (s : Theme) : list jsstring :=
  el_classList (getNode (page s) (html s)).

(** The theme the page shows: dark for ['dark'], light for anything else. *)
Definition shows (s : Theme) (theme : jsstring) : Prop :=
  (theme__dark ∈ htmlClasses s <-> theme = dark) /\
  (theme__light ∈ htmlClasses s <-> theme ≠ dark).

(** The button of the object, if it has one, offers the other theme. *)
Definition labelled (s : Theme) : Prop :=
  match toggleButton s with
  | None => True
  | Some b =>
      let e := getNode (page s) b in
      let isDark := bool_decide (currentTheme s = dark) in
      el_textContent e = (if isDark then sun else moon) /\
      getAttribute e "aria-label"
      = Some (if isDark then js "Switch to light theme"
              else js "Switch to dark theme") /\
      getAttribute e "title"
      = Some (if isDark then js "Switch to light theme"
              else js "Switch to dark theme")
  end.

End Model.

End ThemeToggle.

(** ** Example pages for the theme toggle *)

Module ThemeExamples.

Import ExampleEngine Examples ThemeToggle.

(** A document whose header has a container, and one whose header already
    has a toggle button in its markup, labelled by hand. *)
Definition plainPage : State :=
  pageLoad
    (list_to_map
       [ (0, elem "#document" [] [] [] None [1])
       ; (1, elem "html" [] [js "no-js"] [] (Some 0) [2])
       ; (2, elem "body" [] [] [] (Some 1) [3])
       ; (3, elem "div" [] [js "header__container"] [] (Some 2) [])
       ]%nat) 0%nat 2%nat.

Definition markupPage : State :=
  pageLoad
    (list_to_map
       [ (0, elem "#document" [] [] [] None [1])
       ; (1, elem "html" [] [] [] (Some 0) [2])
       ; (2, elem "body" [] [] [] (Some 1) [3])
       ; (3, elem "div" [] [js "header__container"] [] (Some 2) [4])
       ; (4, elem "button" [("aria-label", js "Theme")] [js "theme-toggle"]
               (js "Theme") (Some 3) [])
       ]%nat) 0%nat 2%nat.

(** A first visit on a system that asks for a dark scheme. *)
Definition firstVisit : Env := mkEnv plainPage 1%nat ∅ true.

Definition firstVisitMarkup : Env := mkEnv markupPage 1%nat ∅ true.

End ThemeExamples.

(** * MainApp: parts of the class [MainApp] of [assets/js/form-validation.js]

    The active navigation link, the tabs and the lightbox.  Scrolling,
    lazy loading and the mobile navigation are left out. *)

Module MainApp.

(** ** [setupActiveNavigation] *)

(** [s.split(sep)] with a separator of one character. *)
Fixpoint split (sep : N) (s : jsstring) : list jsstring :=
  match s with
  | [] => [[]]
  | c :: s' =>
      if c =? sep then [] :: split sep s'
      else
        match split sep s' with
        | seg :: segs => (c :: seg) :: segs
        | [] => [[c]]
        end
  end.

(** [array.pop()] on an array that is not empty. *)
Definition pop (l : list jsstring) : jsstring := List.last l [].

(** [window.location.pathname.split('/').pop() || 'index.html'] *)
Definition currentPage (pathname : jsstring) : jsstring :=
  orElse (pop (split 47 pathname)) (js "index.html").

(** The condition under which a link is marked; [linkHref] is [None] when
    the link has no [href] attribute. *)
Definition isActiveLink (currentPage : jsstring) (linkHref : option jsstring)
  : bool :=
  bool_decide (linkHref = Some currentPage)
  || (bool_decide (currentPage = []) &&
      bool_decide (linkHref = Some (js "index.html")))
  || (bool_decide (currentPage = js "index.html") &&
      bool_decide (linkHref = Some (js "/"))).

Section Document.

Context `{Engine : RegExpEngine}.

Definition nav__link__active : jsstring := js "nav__link--active".
Definition tabs__btn__active : jsstring := js "tabs__btn--active".
Definition tabs__content__active : jsstring := js "tabs__content--active".

Definition setupActiveNavigation (pathname : jsstring) (σ : State) : State :=
  let navLinks := querySelectorAll σ (document σ) (SelClass (js "nav__link")) in
  let currentPage := currentPage pathname in
  foldl
    (fun σ link =>
       let linkHref := getAttribute (getNode σ link) "href" in
       if isActiveLink currentPage linkHref
       then updNode link
              (fun e => set_classList
                          (classList_add nav__link__active (el_classList e)) e)
              σ
       else σ)
    σ navLinks.

(** ** [initializeTabs]

    The click listener of the button [btn], the [index]-th of the buttons
    of a container, with the buttons and the contents the container had
    when the listeners were registered. *)
Definition tabClick (tabButtons tabContents : list node) (btn : node)
    (index : nat) (σ : State) : State :=
  let σ :=
    foldl
      (fun σ b =>
         updNode b
           (fun e => set_classList
                       (classList_remove [tabs__btn__active] (el_classList e))
                       e) σ)
      σ tabButtons in
  let σ :=
    foldl
      (fun σ c =>
         updNode c
           (fun e => set_classList
                       (classList_remove [tabs__content__active]
                          (el_classList e)) e) σ)
      σ tabContents in
  let σ :=
    updNode btn
      (fun e => set_classList (classList_add tabs__btn__active (el_classList e))
                  e) σ in
  match tabContents !! index with
  | Some c =>
      updNode c
        (fun e => set_classList
                    (classList_add tabs__content__active (el_classList e)) e)
        σ
  | None => σ
  end.

End Document.

(** ** The lightbox

    The lightbox element is kept as what the script reads and writes of it:
    whether it carries [lightbox--active], and the value last assigned to
    the [src] of its image, where [None] is [undefined].  The members
    [currentLightboxImages] and [currentLightboxIndex] are assigned
    together and are kept as one optional pair; an image source is [None]
    where the expression [getAttribute('data-lightbox') || el.src || el.href]
    gives [undefined]. *)

Record Lightbox : Type := mkLightbox {
  lb_active : bool;
  lb_imageSrc : option jsstring
}.

Record App : Type := mkApp {
  lightbox : option Lightbox;
  gallery : option (list (option jsstring) * Z);
  bodyOverflow : jsstring
}.

Inductive Direction : Type := Prev | Next.

(** How a call ends: normally, or with the [TypeError] of a member access
    on [undefined]. *)
Inductive Outcome : Type :=
  | Done (a : App)
  | Failed (a : App).

(** The lightbox [createLightbox] builds: not active, its image with an
    empty [src]. *)
Definition createLightbox (a : App) : App :=
  mkApp (Some (mkLightbox false (Some []))) (gallery a) (bodyOverflow a).

(** [initializeLightbox]: the lightbox is created unless the markup has an
    element of class [lightbox]; [this.lightbox] is set nowhere else. *)
Definition initializeLightbox (markupHasLightbox : bool) : App :=
  let a := mkApp None None [] in
  if negb markupHasLightbox then createLightbox a else a.

(** [array.indexOf(x)]: the first position of [x], or [-1]. *)
Fixpoint indexOf (x : option jsstring) (l : list (option jsstring)) : Z :=
  match l with
  | [] => -1
  | y :: l' =>
      if decide (y = x) then 0
      else
        let i := indexOf x l' in
        if (i <? 0)%Z then -1 else (i + 1)%Z
  end.

(** [array[i]]; out of range it is [undefined]. *)
Definition at_index (l : list (option jsstring)) (i : Z) : option jsstring :=
  if (i <? 0)%Z then None else mjoin (l !! Z.to_nat i).

(** [openLightbox(imageSrc)]; [images] is what the query for
    [[data-lightbox]] elements yields at the time of the call. *)
Definition openLightbox (imageSrc : option jsstring)
    (images : list (option jsstring)) (a : App) : App :=
  match lightbox a with
  | None => a
  | Some lb =>
      mkApp (Some (mkLightbox true imageSrc))
        (Some (images, indexOf imageSrc images)) (js "hidden")
  end.

Definition closeLightbox (a : App) : App :=
  match lightbox a with
  | Some lb => mkApp (Some (mkLightbox false (lb_imageSrc lb))) (gallery a) []
  | None => a
  end.

(** [%] is the remainder that takes the sign of the dividend. *)
Definition lightboxNav (direction : Direction) (a : App) : Outcome :=
  match gallery a with
  | None => Done a
  | Some (images, index) =>
      if (length images <=? 1)%nat then Done a
      else
        let len := Z.of_nat (length images) in
        let index :=
          match direction with
          | Next => Z.rem (index + 1) len
          | Prev => if (index =? 0)%Z then (len - 1)%Z else (index - 1)%Z
          end in
        let a := mkApp (lightbox a) (Some (images, index)) (bodyOverflow a) in
        let newImageSrc := at_index images index in
        match lightbox a with
        | None => Failed a
        | Some lb =>
            Done (mkApp (Some (mkLightbox (lb_active lb) newImageSrc))
                    (gallery a) (bodyOverflow a))
        end
  end.

(** What happens to the lightbox: a trigger is clicked, it is closed, or
    the user navigates. *)
Inductive Event : Type :=
  | Open (imageSrc : option jsstring) (images : list (option jsstring))
  | Close
  | Nav (direction : Direction).

Definition step (ev : Event) (a : App) : Outcome :=
  match ev with
  | Open imageSrc images => Done (openLightbox imageSrc images a)
  | Close => Done (closeLightbox a)
  | Nav direction => lightboxNav direction a
  end.

(** The states the lightbox can be in; a failed call ends the listener and
    leaves the state it reached. *)
Definition after (o : Outcome) : App :=
  match o with Done a => a | Failed a => a end.

Inductive reachable : App -> Prop :=
  | reach_init markup : reachable (initializeLightbox markup)
  | reach_step a ev : reachable a -> reachable (after (step ev a)).

(** The index is a position of the list and the image shows the source at
    that position. *)
Definition coherent (a : App) : Prop :=
  match gallery a with
  | None => True
  | Some (images, index) =>
      (0 <= index < Z.of_nat (length images))%Z /\
      exists lb, lightbox a = Some lb /\
                 lb_imageSrc lb = at_index images index
  end.

(** The lightbox is there whenever the gallery is. *)
Definition galleryHasLightbox (a : App) : Prop :=
  gallery a = None \/ exists lb, lightbox a = Some lb.

(** The index one step further, in either direction. *)
Definition moved (direction : Direction) (len index : Z) : Z :=
  match direction with
  | Next => ((index + 1) mod len)%Z
  | Prev => ((index - 1) mod len)%Z
  end.

(** [n] times the navigation in one direction. *)
Fixpoint navigate (direction : Direction) (n : nat) (a : App) : App :=
  match n with
  | O => a
  | S n' => navigate direction n' (after (lightboxNav direction a))
  end.

End MainApp.

(** ** An example gallery *)

Module MainAppExamples.

Import MainApp.

(** Three pictures; the second was clicked on a page where the script made
    the lightbox. *)
Definition pictures : list (option jsstring) :=
  [Some (js "a.jpg"); Some (js "b.jpg"); Some (js "c.jpg")].

Definition opened : App :=
  openLightbox (Some (js "b.jpg")) pictures (initializeLightbox false).

End MainAppExamples.
(** ** The derivative matcher decides the language *)

Section RegexFacts.

Lemma matches_void_iff s : re_matches re_void s <-> False.
Proof. split; [inversion 1 | tauto]. Qed.

Lemma matches_eps_iff s : re_matches re_eps s <-> s = [].
Proof. split; [by inversion 1 | intros ->; constructor]. Qed.

Lemma matches_class_iff p s :
  re_matches (re_class p) s <-> exists c, s = [c] /\ p c = true.
Proof.
  split.
  - inversion 1; subst; eauto.
  - intros (c & -> & Hc). by constructor.
Qed.

Lemma matches_seq_iff r1 r2 s :
  re_matches (re_seq r1 r2) s <->
  exists s1 s2, s = s1 ++ s2 /\ re_matches r1 s1 /\ re_matches r2 s2.
Proof.
  split.
  - inversion 1; subst; eauto.
  - intros (s1 & s2 & -> & H1 & H2). by constructor.
Qed.

Lemma matches_alt_iff r1 r2 s :
  re_matches (re_alt r1 r2) s <-> re_matches r1 s \/ re_matches r2 s.
Proof.
  split.
  - inversion 1; subst; eauto.
  - intros [H | H]; [by apply m_alt_l | by apply m_alt_r].
Qed.

(** A non-empty match of [r*] starts with a non-empty match of [r]. *)
Lemma matches_star_cons r c s :
  re_matches (re_star r) (c :: s) <->
  exists s1 s2, s = s1 ++ s2 /\ re_matches r (c :: s1) /\ re_matches (re_star r) s2.
Proof.
  split.
  - intros H. remember (re_star r) as r' eqn:Er. remember (c :: s) as t eqn:Et.
    revert s Et. induction H as [| | | | | |r0 s1 s2 H1 _ H2 IH2]; try discriminate.
    injection Er as ->. intros s Et. destruct s1 as [|d s1]; simpl in Et.
    + by apply IH2.
    + injection Et as -> <-. eauto.
  - intros (s1 & s2 & -> & H1 & H2). by apply (m_star_cons r (c :: s1) s2).
Qed.

Lemma nullable_spec r : nullable r = true <-> re_matches r [].
Proof.
  induction r as [| |p|r1 IH1 r2 IH2|r1 IH1 r2 IH2|r IH]; simpl.
  - rewrite matches_void_iff. split; [done | tauto].
  - rewrite matches_eps_iff. tauto.
  - rewrite matches_class_iff. split; [done | by intros (c & ? & _)].
  - rewrite andb_true_iff, matches_seq_iff, IH1, IH2. split.
    + intros [H1 H2]. by exists [], [].
    + intros (s1 & s2 & E & H1 & H2). symmetry in E.
      apply app_eq_nil in E as [-> ->]. tauto.
  - rewrite orb_true_iff, matches_alt_iff, IH1, IH2. tauto.
  - split; [constructor | done].
Qed.

Lemma deriv_spec r c s : re_matches (deriv c r) s <-> re_matches r (c :: s).
Proof.
  revert s.
  induction r as [| |p|r1 IH1 r2 IH2|r1 IH1 r2 IH2|r IH]; intros s; simpl.
  - rewrite !matches_void_iff. tauto.
  - rewrite matches_void_iff, matches_eps_iff. split; [tauto | done].
  - rewrite matches_class_iff. destruct (p c) eqn:Hp.
    + rewrite matches_eps_iff. split.
      * intros ->. eauto.
      * by intros (d & [= -> ->] & _).
    + rewrite matches_void_iff. split; [tauto |].
      intros (d & [= -> ->] & Hd). congruence.
  - assert (Hseq : re_matches (re_seq (deriv c r1) r2) s <->
                   exists s1 s2, s = s1 ++ s2 /\ re_matches r1 (c :: s1)
                                 /\ re_matches r2 s2).
    { rewrite matches_seq_iff. by setoid_rewrite IH1. }
    rewrite (matches_seq_iff r1 r2 (c :: s)).
    destruct (nullable r1) eqn:Hn.
    + rewrite matches_alt_iff, Hseq, IH2. split.
      * intros [(s1 & s2 & -> & H1 & H2) | H2].
        -- by exists (c :: s1), s2.
        -- exists [], (c :: s). by rewrite <- nullable_spec.
      * intros (s1 & s2 & E & H1 & H2). destruct s1 as [|d s1]; simpl in E.
        -- right. by rewrite E.
        -- injection E as <- ->. left. eauto.
    + rewrite Hseq. split.
      * intros (s1 & s2 & -> & H1 & H2). by exists (c :: s1), s2.
      * intros (s1 & s2 & E & H1 & H2). destruct s1 as [|d s1]; simpl in E.
        -- apply nullable_spec in H1. congruence.
        -- injection E as <- ->. eauto.
  - rewrite !matches_alt_iff, IH1, IH2. tauto.
  - rewrite matches_star_cons, matches_seq_iff. by setoid_rewrite IH.
Qed.

Theorem re_test_spec r s : re_test r s = true <-> re_matches r s.
Proof.
  revert r. induction s as [|c s IH]; intros r; simpl.
  - apply nullable_spec.
  - by rewrite IH, deriv_spec.
Qed.

End RegexFacts.

Example js_phone : js "phone" = [112; 104; 111; 110; 101].
Proof. reflexivity. Qed.

Example trim_example : trim (js "  a b ") = js "a b".
Proof. reflexivity. Qed.

Example parseInt_examples :
  parseInt (js "8") = Some 8%Z /\ parseInt (js " 12px") = Some 12%Z /\
  parseInt (js "abc") = None /\ parseInt (js "0x1f") = Some 31%Z /\
  parseInt (js "-3") = Some (-3)%Z /\ parseInt (js "0x") = None /\
  parseInt (js "") = None.
Proof. repeat split; reflexivity. Qed.

Example emailRegex_examples :
  re_test emailRegex (js "bob") = false /\
  re_test emailRegex (js "bob@example.com") = true /\
  re_test emailRegex (js "bob@example") = false /\
  re_test emailRegex (js "a b@example.com") = false.
Proof. repeat split; vm_compute; reflexivity. Qed.

Example phoneRegex_examples :
  re_test phoneRegex (stripSeparators (js "(555) 123-4567")) = true /\
  re_test phoneRegex (js "0123") = false /\
  re_test phoneRegex (js "+15551234567") = true /\
  re_test phoneRegex (js "12345678901234567") = false.
Proof. repeat split; vm_compute; reflexivity. Qed.


(** ** Reading the store after a write *)

Section StoreFacts.

Context `{Engine : RegExpEngine} `{Host : Browser}.

Implicit Types (σ : State) (n m : node) (fd : nat).

Lemma getNode_updNode n m f σ :
  getNode (updNode n f σ) m
  = if decide (n = m) then f (getNode σ n) else getNode σ m.
Proof.
  unfold getNode, updNode; simpl. case_decide as Hnm.
  - subst. by rewrite lookup_total_insert_eq.
  - by rewrite lookup_total_insert_ne.
Qed.

Lemma getNode_updField n fd g σ : getNode (updField fd g σ) n = getNode σ n.
Proof. reflexivity. Qed.

Lemma getField_updNode n fd f σ : getField (updNode n f σ) fd = getField σ fd.
Proof. reflexivity. Qed.

Lemma getField_updField fd fd' g σ :
  getField (updField fd g σ) fd'
  = if decide (fd = fd') then g (getField σ fd) else getField σ fd'.
Proof.
  unfold getField, updField; simpl. case_decide as Hnm.
  - subst. by rewrite lookup_total_insert_eq.
  - by rewrite lookup_total_insert_ne.
Qed.

(** A write that leaves a property alone leaves it alone on every
    element. *)
Lemma getNode_updNode_frame {A} (P : Element -> A) n m f σ :
  (forall e, P (f e) = P e) ->
  P (getNode (updNode n f σ) m) = P (getNode σ m).
Proof.
  intros Hf. rewrite getNode_updNode. case_decide; [subst; apply Hf | done].
Qed.

Lemma classList_remove_spec cs l c :
  c ∈ classList_remove cs l <-> c ∈ l /\ c ∉ cs.
Proof. unfold classList_remove. rewrite list_elem_of_filter. tauto. Qed.

Lemma classList_add_spec c' l c :
  c ∈ classList_add c' l <-> c ∈ l \/ c = c'.
Proof.
  unfold classList_add. case_decide.
  - split; [tauto | intros [?| ->]; done].
  - rewrite elem_of_app, list_elem_of_singleton. tauto.
Qed.

End StoreFacts.

Arguments classList_remove : simpl never.
Arguments classList_add : simpl never.

(** Rewrites a read through the writes before it, and splits on whether the
    references coincide. *)
Ltac reads :=
  repeat first
    [ rewrite getField_updField
    | rewrite getField_updNode
    | rewrite getNode_updField
    | rewrite getNode_updNode ];
  repeat (case_decide; simplify_eq); simpl.

(** ** Field operations *)

Section FieldFacts.

Context `{Engine : RegExpEngine} `{Host : Browser}.

Implicit Types (σ : State) (n m : node) (fd : nat).

Lemma error_success_distinct : form__input__error ≠ form__input__success.
Proof. by vm_compute. Qed.

Lemma clearFieldState_field fd fd' σ :
  getField (clearFieldState fd σ) fd'
  = if decide (fd = fd') then set_isValid false (getField σ fd)
    else getField σ fd'.
Proof. unfold clearFieldState. by rewrite getField_updField. Qed.

Lemma setFieldError_field fd fd' msg σ :
  getField (setFieldError fd msg σ) fd'
  = if decide (fd = fd') then set_isValid false (getField σ fd)
    else getField σ fd'.
Proof. unfold setFieldError. by rewrite getField_updField. Qed.

Lemma setFieldSuccess_field fd fd' σ :
  getField (setFieldSuccess fd σ) fd'
  = if decide (fd = fd') then set_isValid true (getField σ fd)
    else getField σ fd'.
Proof. unfold setFieldSuccess. by rewrite getField_updField. Qed.

Lemma clearFieldState_neutral fd σ : neutral (clearFieldState fd σ) fd.
Proof.
  unfold neutral, hidden, hasClass. rewrite clearFieldState_field.
  case_decide; [simpl | done]. unfold clearFieldState.
  destruct (getField σ fd) as [elem v rules err succ]; simpl.
  repeat split.
  - by reads.
  - by reads.
  - reads; rewrite classList_remove_spec; set_solver.
  - reads; rewrite classList_remove_spec; set_solver.
Qed.

Lemma setFieldError_classes fd msg σ :
  let f := getField σ fd in
  hasClass (setFieldError fd msg σ) (fd_element f) form__input__error /\
  ~ hasClass (setFieldError fd msg σ) (fd_element f) form__input__success.
Proof.
  unfold hasClass, setFieldError.
  destruct (getField σ fd) as [elem v rules err succ]; simpl. split.
  - reads; rewrite ?classList_remove_spec, classList_add_spec;
      pose proof error_success_distinct; set_solver.
  - reads; rewrite ?classList_remove_spec; set_solver.
Qed.

Lemma setFieldSuccess_classes fd σ :
  let f := getField σ fd in
  hasClass (setFieldSuccess fd σ) (fd_element f) form__input__success /\
  ~ hasClass (setFieldSuccess fd σ) (fd_element f) form__input__error.
Proof.
  unfold hasClass, setFieldSuccess.
  destruct (getField σ fd) as [elem v rules err succ]; simpl. split.
  - reads; rewrite ?classList_remove_spec, classList_add_spec;
      pose proof error_success_distinct; set_solver.
  - reads; rewrite ?classList_remove_spec; set_solver.
Qed.

Lemma setFieldError_invalid fd msg σ : invalidWith (setFieldError fd msg σ) fd msg.
Proof.
  unfold invalidWith, shown. rewrite setFieldError_field.
  case_decide; [simpl | done].
  split; [done |].
  split; [unfold setFieldError; destruct (getField σ fd); by reads |].
  split; [unfold setFieldError; destruct (getField σ fd); by reads |].
  apply setFieldError_classes.
Qed.

Lemma setFieldSuccess_valid fd σ : validShown (setFieldSuccess fd σ) fd.
Proof.
  unfold validShown, shown. rewrite setFieldSuccess_field.
  case_decide; [simpl | done].
  split; [done |].
  split; [unfold setFieldSuccess; destruct (getField σ fd); by reads |].
  apply setFieldSuccess_classes.
Qed.

End FieldFacts.

(** ** Validation of one field *)

Section ValidateFacts.

Context `{Engine : RegExpEngine} `{Host : Browser}.

Implicit Types (σ : State) (n m : node) (fd : nat).

Lemma sameControl_refl e : sameControl e e.
Proof. by repeat split. Qed.

Lemma sameControl_trans e1 e2 e3 :
  sameControl e1 e2 -> sameControl e2 e3 -> sameControl e1 e3.
Proof. unfold sameControl. intros H1 H2. naive_solver congruence. Qed.

Lemma sameField_refl (f : FieldData) : sameField f f.
Proof. by repeat split. Qed.

Lemma sameField_trans (f1 f2 f3 : FieldData) :
  sameField f1 f2 -> sameField f2 f3 -> sameField f1 f3.
Proof. unfold sameField. intros H1 H2. naive_solver congruence. Qed.

Lemma fieldFrame_refl σ : fieldFrame σ σ.
Proof.
  unfold fieldFrame. repeat split; auto using sameControl_refl, sameField_refl.
Qed.

Lemma fieldFrame_trans σ1 σ2 σ3 :
  fieldFrame σ1 σ2 -> fieldFrame σ2 σ3 -> fieldFrame σ1 σ3.
Proof.
  unfold fieldFrame.
  intros (Hn1 & Hf1 & H1) (Hn2 & Hf2 & H2).
  split; [intros n; eapply sameControl_trans; eauto |].
  split; [intros fd; eapply sameField_trans; eauto |].
  naive_solver congruence.
Qed.

Lemma fieldFrame_formObjs σ σ' : fieldFrame σ σ' -> formObjs σ' = formObjs σ.
Proof. by intros (_ & _ & H & _). Qed.

Lemma updNode_frame n f σ :
  (forall e, sameControl e (f e)) -> fieldFrame σ (updNode n f σ).
Proof.
  intros Hf. unfold fieldFrame. split; [| by repeat split].
  intros m. rewrite getNode_updNode. case_decide; subst.
  - apply Hf.
  - apply sameControl_refl.
Qed.

Lemma updField_frame fd b σ : fieldFrame σ (updField fd (set_isValid b) σ).
Proof.
  unfold fieldFrame. split; [intros n; apply sameControl_refl |].
  split; [| by repeat split].
  intros fd'. rewrite getField_updField. case_decide; subst.
  - by repeat split.
  - apply sameField_refl.
Qed.

Ltac frame_steps :=
  repeat (eapply fieldFrame_trans;
          [| first [ apply updField_frame
                   | apply updNode_frame; intros e; by repeat split ]]);
  apply fieldFrame_refl.

Lemma clearFieldState_frame fd σ : fieldFrame σ (clearFieldState fd σ).
Proof. unfold clearFieldState. frame_steps. Qed.

Lemma setFieldError_frame fd msg σ : fieldFrame σ (setFieldError fd msg σ).
Proof. unfold setFieldError. frame_steps. Qed.

Lemma setFieldSuccess_frame fd σ : fieldFrame σ (setFieldSuccess fd σ).
Proof. unfold setFieldSuccess. frame_steps. Qed.

Lemma result_message_rule rule value :
  result_message (runValidationRule rule value) = rule_message rule.
Proof. by destruct rule. Qed.

(** The loop reports the first rule that fails, if there is one. *)
Lemma validateField_rules_find fd rules value σ :
  validateField_rules fd rules value σ
  = match List.find (fun rule => negb (passes rule value)) rules with
    | Some rule => (false, setFieldError fd (rule_message rule) σ)
    | None => (true, setFieldSuccess fd σ)
    end.
Proof.
  induction rules as [|rule rules IH]; simpl; [done |].
  unfold passes at 1. destruct (result_isValid _); simpl; [done |].
  by rewrite result_message_rule.
Qed.

Lemma find_first_failure (rules pre post : list Rule) rule value :
  rules = pre ++ rule :: post ->
  Forall (fun r => passes r value = true) pre ->
  passes rule value = false ->
  List.find (fun r => negb (passes r value)) rules = Some rule.
Proof.
  intros -> Hpre Hrule. induction Hpre as [|r pre Hr _ IH]; simpl.
  - by rewrite Hrule.
  - by rewrite Hr.
Qed.

Lemma find_none_passes (rules : list Rule) value :
  List.find (fun r => negb (passes r value)) rules = None <->
  forallb (fun r => passes r value) rules = true.
Proof.
  induction rules as [|r rules IH]; simpl; [done |].
  destruct (passes r value); simpl; [done |]. split; discriminate.
Qed.

Lemma find_some_fails (rules : list Rule) value rule :
  List.find (fun r => negb (passes r value)) rules = Some rule ->
  forallb (fun r => passes r value) rules = false.
Proof.
  intros H. destruct (forallb _ rules) eqn:E; [| done].
  apply find_none_passes in E. congruence.
Qed.

Lemma validateField_frame fd σ : fieldFrame σ (snd (validateField fd σ)).
Proof.
  unfold validateField. rewrite validateField_rules_find.
  destruct (List.find _ _); simpl;
    (eapply fieldFrame_trans; [apply clearFieldState_frame |]).
  - apply setFieldError_frame.
  - apply setFieldSuccess_frame.
Qed.

(** The verdict is that of the rules on the trimmed value. *)
Lemma validateField_verdict fd σ : fst (validateField fd σ) = fieldPasses σ fd.
Proof.
  unfold validateField, fieldPasses, currentValue.
  rewrite validateField_rules_find.
  destruct (List.find _ _) eqn:E; simpl.
  - symmetry. by eapply find_some_fails.
  - symmetry. by apply find_none_passes.
Qed.

(** The return value is the flag left on the object. *)
Lemma validateField_flag fd σ :
  fd_isValid (getField (snd (validateField fd σ)) fd) = fst (validateField fd σ).
Proof.
  unfold validateField. rewrite validateField_rules_find.
  destruct (List.find _ _); simpl.
  - rewrite setFieldError_field. by case_decide.
  - rewrite setFieldSuccess_field. by case_decide.
Qed.

Lemma validateField_other fd fd' σ :
  fd ≠ fd' -> getField (snd (validateField fd σ)) fd' = getField σ fd'.
Proof.
  intros Hne. unfold validateField. rewrite validateField_rules_find.
  destruct (List.find _ _); simpl.
  - rewrite setFieldError_field, !clearFieldState_field. by repeat case_decide.
  - rewrite setFieldSuccess_field, !clearFieldState_field. by repeat case_decide.
Qed.

(** A frame step changes neither the value a field is validated on nor
    its rules. *)
Lemma fieldFrame_currentValue σ σ' fd :
  fieldFrame σ σ' -> currentValue σ' fd = currentValue σ fd.
Proof.
  intros (Hn & Hf & _). unfold currentValue.
  destruct (Hf fd) as (-> & _).
  by destruct (Hn (fd_element (getField σ fd))) as (_&_&_&_&_&_&_&_& -> &_).
Qed.

Lemma fieldFrame_passes σ σ' fd :
  fieldFrame σ σ' -> fieldPasses σ' fd = fieldPasses σ fd.
Proof.
  intros H. unfold fieldPasses. rewrite (fieldFrame_currentValue _ _ _ H).
  destruct H as (_ & Hf & _). by destruct (Hf fd) as (_ & -> & _).
Qed.

End ValidateFacts.

(** ** Rules *)

Section RuleFacts.

Context `{Engine : RegExpEngine} `{Host : Browser}.

Implicit Types (σ : State) (n m : node) (fd : nat).

Lemma trimStart_blank s : blank s -> trimStart s = [].
Proof. induction 1 as [|c s Hc _ IH]; simpl; [done | by rewrite Hc]. Qed.

Lemma trim_blank s : blank s -> trim s = [].
Proof. intros H. unfold trim. by rewrite trimStart_blank. Qed.

(** On the empty string every rule but Required passes. *)
Lemma passes_empty (rule : Rule) :
  passes rule [] = match rule with Required _ => false | _ => true end.
Proof. by destruct rule. Qed.

Lemma find_required (rules : list Rule) msg :
  Required msg ∈ rules ->
  exists message,
    Required message ∈ rules /\
    List.find (fun r => negb (passes r [])) rules = Some (Required message).
Proof.
  induction rules as [|r rules IH]; [by intros ?%elem_of_nil |].
  intros Hin. simpl. rewrite passes_empty. destruct r as [m| | | |]; simpl.
  - exists m. split; [left | done].
  - apply elem_of_cons in Hin as [? | Hin]; [done |].
    destruct (IH Hin) as (m & ? & ?). exists m. split; [by right | done].
  - apply elem_of_cons in Hin as [? | Hin]; [done |].
    destruct (IH Hin) as (m & ? & ?). exists m. split; [by right | done].
  - apply elem_of_cons in Hin as [? | Hin]; [done |].
    destruct (IH Hin) as (m & ? & ?). exists m. split; [by right | done].
  - apply elem_of_cons in Hin as [? | Hin]; [done |].
    destruct (IH Hin) as (m & ? & ?). exists m. split; [by right | done].
Qed.

(** The rules come out in the order Required, Email, MinLength, Pattern,
    Phone, each kind at most once. *)
Lemma getValidationRules_order σ input rules :
  getValidationRules σ input = Some rules ->
  sublist (map rule_rank rules) [0; 1; 2; 3; 4]%nat.
Proof.
  unfold getValidationRules.
  destruct (hasAttribute _ "required"), (bool_decide (el_type _ = _)),
    (hasAttribute _ "minlength"), (hasAttribute _ "pattern");
    try destruct (RegExp_new _); try discriminate;
    destruct (bool_decide (orElse _ _ = _));
    intros [= <-]; simpl; repeat constructor.
Qed.

Lemma getValidationRules_required σ input rules :
  getValidationRules σ input = Some rules ->
  hasAttribute (getNode σ input) "required" = true ->
  exists rest, rules = Required (getRequiredMessage σ input) :: rest /\
               Forall (fun r => rule_rank r ≠ 0%nat) rest.
Proof.
  unfold getValidationRules. intros H Hreq. rewrite Hreq in H. revert H.
  destruct (bool_decide (el_type _ = _)),
    (hasAttribute _ "minlength"), (hasAttribute _ "pattern");
    try destruct (RegExp_new _); try discriminate;
    destruct (bool_decide (orElse _ _ = _));
    intros [= <-]; simpl; eexists; (split; [reflexivity |]);
    repeat constructor; done.
Qed.

(** No activating attribute, no rule. *)
Lemma getValidationRules_none σ input :
  let e := getNode σ input in
  hasAttribute e "required" = false ->
  el_type e ≠ js "email" ->
  hasAttribute e "minlength" = false ->
  hasAttribute e "pattern" = false ->
  orElse (el_name e) (el_id e) ≠ js "phone" ->
  getValidationRules σ input = Some [].
Proof.
  intros e Hreq Htype Hmin Hpat Hphone. unfold getValidationRules.
  fold e. rewrite Hreq, Hmin, Hpat.
  by rewrite !bool_decide_eq_false_2.
Qed.

(** *** The phone format *)

Lemma re_upto_class n p s :
  re_matches (re_upto n (re_class p)) s <->
  Forall (fun c => p c = true) s /\ (length s <= n)%nat.
Proof.
  revert s. induction n as [|n IH]; intros s; simpl.
  - rewrite matches_eps_iff. split.
    + intros ->. split; [constructor | done].
    + intros [_ Hlen]. destruct s; [done | simpl in Hlen; lia].
  - unfold re_opt. rewrite matches_alt_iff, matches_seq_iff, matches_eps_iff.
    split.
    + intros [(s1 & s2 & -> & H1 & H2) | ->].
      * apply matches_class_iff in H1 as (c & -> & Hc).
        apply IH in H2 as [H2 Hlen]. split; [by constructor | simpl; lia].
      * split; [constructor | simpl; lia].
    + intros [Hall Hlen]. destruct Hall as [|c s Hc Hall]; [by right |].
      left. exists [c], s. split; [done |]. split.
      * apply matches_class_iff. eauto.
      * apply IH. split; [done | simpl in Hlen; lia].
Qed.

Lemma phoneRegex_shape s : re_test phoneRegex s = true <-> phoneShape s.
Proof.
  rewrite re_test_spec. unfold phoneRegex, phoneShape, re_opt.
  rewrite matches_seq_iff. split.
  - intros (s1 & s2 & -> & H1 & H2).
    apply matches_seq_iff in H2 as (t1 & t2 & -> & Hd & Hds).
    apply matches_class_iff in Hd as (d & -> & Hd).
    apply re_upto_class in Hds as [Hds Hlen].
    exists s1, d, t2. repeat split; try done.
    apply matches_alt_iff in H1 as [H1 | H1].
    + apply matches_class_iff in H1 as (c & -> & Hc).
      apply N.eqb_eq in Hc as ->. by right.
    + apply matches_eps_iff in H1. by left.
  - intros (sign & d & ds & -> & Hsign & Hd & Hds & Hlen).
    exists sign, (d :: ds). split; [done |]. split.
    + apply matches_alt_iff. destruct Hsign as [-> | ->].
      * right. constructor.
      * left. by constructor.
    + apply matches_seq_iff. exists [d], ds. split; [done |]. split.
      * by constructor.
      * by apply re_upto_class.
Qed.

Lemma truthy_false_iff (s : jsstring) : truthy s = false <-> s = [].
Proof. by destruct s. Qed.

Lemma passes_phone msg value :
  passes (Phone msg) value = true <->
  value = [] \/ phoneShape (stripSeparators value).
Proof.
  unfold passes; simpl.
  rewrite orb_true_iff, negb_true_iff, truthy_false_iff, phoneRegex_shape.
  tauto.
Qed.

End RuleFacts.

(** ** Validation of a form *)

Section FormFacts.

Context `{Engine : RegExpEngine} `{Host : Browser}.

Implicit Types (σ : State) (n m : node) (fd : nat)
  (fields : list (jsstring * nat)).

(** Validation writes text on the field's error element only. *)
Lemma validateField_textContent fd σ n :
  n ≠ fd_errorElement (getField σ fd) ->
  el_textContent (getNode (snd (validateField fd σ)) n)
  = el_textContent (getNode σ n).
Proof.
  intros Hn. unfold validateField. rewrite validateField_rules_find.
  destruct (List.find _ _); simpl.
  - unfold setFieldError. rewrite !clearFieldState_field.
    case_decide; [| done]. unfold clearFieldState.
    destruct (getField σ fd) as [elem v rules err succ]; simpl in *.
    by reads.
  - unfold setFieldSuccess. rewrite !clearFieldState_field.
    case_decide; [| done]. unfold clearFieldState.
    destruct (getField σ fd) as [elem v rules err succ]; simpl in *.
    by reads.
Qed.

Lemma validateForm_fields_state fields acc σ :
  snd (validateForm_fields fields acc σ) = validatedAll fields σ.
Proof.
  revert acc σ. induction fields as [|[k fd] fields IH]; intros acc σ; simpl.
  - done.
  - destruct (validateField fd σ) as [ok σ1] eqn:E. by rewrite IH.
Qed.

Lemma validatedAll_frame fields σ : fieldFrame σ (validatedAll fields σ).
Proof.
  revert σ. induction fields as [|[k fd] fields IH]; intros σ; simpl.
  - apply fieldFrame_refl.
  - eapply fieldFrame_trans; [apply validateField_frame | apply IH].
Qed.

(** The verdict: every field passes on its current value, whatever its
    flag was. *)
Lemma validateForm_fields_verdict fields acc σ :
  fst (validateForm_fields fields acc σ)
  = acc && forallb (fun '(_, fd) => fieldPasses σ fd) fields.
Proof.
  revert acc σ. induction fields as [|[k fd] fields IH]; intros acc σ; simpl.
  - by rewrite andb_true_r.
  - destruct (validateField fd σ) as [ok σ1] eqn:E. rewrite IH.
    pose proof (validateField_verdict fd σ) as Hv.
    pose proof (validateField_frame fd σ) as Hfr.
    rewrite E in Hv, Hfr; simpl in Hv, Hfr. subst ok.
    assert (forallb (fun '(_, fd0) => fieldPasses σ1 fd0) fields
            = forallb (fun '(_, fd0) => fieldPasses σ fd0) fields) as ->.
    { clear IH E. induction fields as [|[k' fd'] fields IHf]; simpl; [done |].
      by rewrite IHf, (fieldFrame_passes _ _ _ Hfr). }
    destruct (fieldPasses σ fd), acc; simpl; done.
Qed.

Lemma validatedAll_untracked fields σ fd :
  fd ∉ fields.*2 ->
  getField (validatedAll fields σ) fd = getField σ fd.
Proof.
  revert σ. induction fields as [|[k fd'] fields IH]; intros σ Hfd; simpl.
  - done.
  - simpl in Hfd. apply not_elem_of_cons in Hfd as [Hne Hfd].
    rewrite IH by done. by apply validateField_other.
Qed.

(** Afterwards the flag of every tracked field is its verdict. *)
Lemma validatedAll_flags fields σ fd :
  fd ∈ fields.*2 ->
  fd_isValid (getField (validatedAll fields σ) fd) = fieldPasses σ fd.
Proof.
  revert σ. induction fields as [|[k fd'] fields IH]; intros σ Hfd; simpl.
  - by apply elem_of_nil in Hfd.
  - destruct (decide (fd ∈ fields.*2)) as [Hin | Hnin].
    + rewrite IH by done. apply fieldFrame_passes, validateField_frame.
    + simpl in Hfd. apply elem_of_cons in Hfd as [-> | Hfd]; [| done].
      rewrite validatedAll_untracked by done.
      by rewrite validateField_flag, validateField_verdict.
Qed.

Lemma validatedAll_textContent fields σ n :
  (forall fd, fd ∈ fields.*2 -> fd_errorElement (getField σ fd) ≠ n) ->
  el_textContent (getNode (validatedAll fields σ) n)
  = el_textContent (getNode σ n).
Proof.
  revert σ. induction fields as [|[k fd] fields IH]; intros σ Hn; simpl.
  - done.
  - rewrite IH.
    + apply validateField_textContent. intros ->.
      apply (Hn fd); [simpl; left | done].
    + intros fd' Hfd'.
      destruct (validateField_frame fd σ) as (_ & Hf & _).
      destruct (Hf fd') as (_ & _ & -> & _). apply Hn. simpl. by right.
Qed.

Lemma allFieldsValid_frame σ σ' fm :
  formObjs σ' = formObjs σ ->
  allFieldsValid σ' fm
  = forallb (fun '(_, fd) => fd_isValid (getField σ' fd))
      (fm_fields (getForm σ fm)).
Proof. intros H. unfold allFieldsValid, getForm. by rewrite H. Qed.

(** [find] returns the first element satisfying the test. *)
Lemma find_split {A} (p : A -> bool) (l : list A) x :
  List.find p l = Some x ->
  exists pre post,
    l = pre ++ x :: post /\ Forall (fun y => p y = false) pre /\ p x = true.
Proof.
  induction l as [|y l IH]; simpl; [done |].
  destruct (p y) eqn:Hy.
  - intros [= ->]. by exists [], l.
  - intros (pre & post & -> & Hpre & Hx)%IH.
    exists (y :: pre), post. repeat split; [| done]. by constructor.
Qed.

End FormFacts.

(** ** The submission sequence *)

Section SubmitFacts.

Context `{Engine : RegExpEngine} `{Host : Browser}.

Implicit Types (σ : State) (n m : node) (fd : nat)
  (fields : list (jsstring * nat)).

(** Clearing a field keeps every neutral field neutral. *)
Lemma clearFieldState_keeps_neutral fd fd' σ :
  neutral σ fd -> neutral (clearFieldState fd' σ) fd.
Proof.
  destruct (decide (fd' = fd)) as [-> | Hne];
    [intros _; apply clearFieldState_neutral |].
  unfold neutral, hidden, hasClass. rewrite clearFieldState_field.
  case_decide; [done |]. unfold clearFieldState.
  destruct (getField σ fd) as [elem v rules err succ],
    (getField σ fd') as [elem' v' rules' err' succ']; simpl.
  intros (Hv & He & Hs & Hce & Hcs). repeat split; try done.
  - by reads.
  - by reads.
  - reads; rewrite ?classList_remove_spec; tauto.
  - reads; rewrite ?classList_remove_spec; tauto.
Qed.

(** A write of text, of the disabled flag or of the value does not show
    on a field's state. *)
Lemma updNode_keeps_neutral n f fd σ :
  (forall e, el_display (f e) = el_display e) ->
  (forall e, el_classList (f e) = el_classList e) ->
  neutral σ fd -> neutral (updNode n f σ) fd.
Proof.
  intros Hd Hc. unfold neutral, hidden, hasClass.
  rewrite getField_updNode.
  by rewrite !(getNode_updNode_frame el_display),
    !(getNode_updNode_frame el_classList).
Qed.

Lemma clearedAll_frame fields σ : fieldFrame σ (clearedAll fields σ).
Proof.
  revert σ. induction fields as [|[k fd] fields IH]; intros σ; simpl.
  - apply fieldFrame_refl.
  - eapply fieldFrame_trans; [apply clearFieldState_frame | apply IH].
Qed.

Lemma clearedAll_keeps_neutral fields σ fd :
  neutral σ fd -> neutral (clearedAll fields σ) fd.
Proof.
  revert σ. induction fields as [|[k fd'] fields IH]; intros σ H; simpl.
  - done.
  - by apply IH, clearFieldState_keeps_neutral.
Qed.

Lemma clearedAll_neutral fields σ fd :
  fd ∈ fields.*2 -> neutral (clearedAll fields σ) fd.
Proof.
  revert σ. induction fields as [|[k fd'] fields IH]; intros σ Hfd; simpl.
  - by apply elem_of_nil in Hfd.
  - simpl in Hfd. apply elem_of_cons in Hfd as [-> | Hfd].
    + apply clearedAll_keeps_neutral, clearFieldState_neutral.
    + by apply IH.
Qed.

(** [reset] leaves every control it visits at its default value. *)
Lemma resetAll_defaultValue l σ n :
  el_defaultValue (getNode (resetAll l σ) n) = el_defaultValue (getNode σ n).
Proof.
  revert σ. induction l as [|m l IH]; intros σ; simpl; [done |].
  rewrite IH. by apply (getNode_updNode_frame el_defaultValue).
Qed.

Lemma resetAll_keeps l σ n :
  el_value (getNode σ n) = el_defaultValue (getNode σ n) ->
  el_value (getNode (resetAll l σ) n) = el_defaultValue (getNode σ n).
Proof.
  revert σ. induction l as [|m l IH]; intros σ H; simpl; [done |].
  rewrite IH; rewrite getNode_updNode; case_decide; subst; simpl; done.
Qed.

Lemma resetAll_value l σ n :
  n ∈ l -> el_value (getNode (resetAll l σ) n) = el_defaultValue (getNode σ n).
Proof.
  revert σ. induction l as [|m l IH]; intros σ Hn; simpl.
  - by apply elem_of_nil in Hn.
  - apply elem_of_cons in Hn as [-> | Hn].
    + rewrite resetAll_keeps; rewrite getNode_updNode; by case_decide.
    + rewrite IH by done. by apply (getNode_updNode_frame el_defaultValue).
Qed.

Lemma resetAll_formObjs l σ : formObjs (resetAll l σ) = formObjs σ.
Proof. revert σ. induction l as [|m l IH]; intros σ; simpl; [done | by rewrite IH]. Qed.

Lemma showSuccessMessage_formObjs form σ :
  formObjs (showSuccessMessage form σ) = formObjs σ.
Proof. reflexivity. Qed.

Lemma submitForm_formObjs fm σ : formObjs (submitForm fm σ) = formObjs σ.
Proof. unfold submitForm. by destruct (querySelector _ _ _). Qed.

Lemma submitted_formObjs fm form b σ :
  formObjs (submitted fm form b σ) = formObjs σ.
Proof.
  unfold submitted.
  set (σa := showSuccessMessage form σ).
  set (σb := reset form σa).
  assert (formObjs σb = formObjs σ) as Hb.
  { unfold σb, reset. fold (resetAll (querySelectorAll σa form sel_inputs) σa).
    by rewrite resetAll_formObjs. }
  fold (clearedAll (fm_fields (getForm σb fm)) σb).
  pose proof (clearedAll_frame (fm_fields (getForm σb fm)) σb)
    as (_ & _ & Hc & _).
  destruct b; simpl; congruence.
Qed.

(** What [submitForm] does to the submit button, and the timer it
    starts. *)
Lemma submitForm_button fm σ b :
  querySelector σ (fm_element (getForm σ fm)) sel_submit = Some b ->
  let σ1 := submitForm fm σ in
  el_disabled (getNode σ1 b) = true /\
  el_textContent (getNode σ1 b) = js "Submitting..." /\
  timers σ1
  = timers σ
    ++ [mkTimer (nextTimer σ) 2000
          (Submitted fm (fm_element (getForm σ fm)) (Some b))].
Proof.
  intros Hb. unfold submitForm. rewrite Hb. simpl.
  change (getNode (set_timers ?t ?k ?s) ?n) with (getNode s n).
  repeat split; rewrite !getNode_updNode; by repeat case_decide.
Qed.

(** What the timer's callback leaves behind. *)
Lemma submitted_effect fm form b σ :
  let σ2 := submitted fm form (Some b) σ in
  (forall n, n ∈ querySelectorAll (showSuccessMessage form σ) form sel_inputs ->
             el_value (getNode σ2 n) = el_defaultValue (getNode σ2 n)) /\
  (forall fd, fd ∈ (fm_fields (getForm σ fm)).*2 -> neutral σ2 fd) /\
  el_disabled (getNode σ2 b) = false.
Proof.
  unfold submitted.
  set (σa := showSuccessMessage form σ).
  set (σb := reset form σa).
  assert (formObjs σb = formObjs σ) as Hb.
  { unfold σb, reset. fold (resetAll (querySelectorAll σa form sel_inputs) σa).
    by rewrite resetAll_formObjs. }
  assert (getForm σb fm = getForm σ fm) as -> by (unfold getForm; by rewrite Hb).
  fold (clearedAll (fm_fields (getForm σ fm)) σb).
  set (σc := clearedAll (fm_fields (getForm σ fm)) σb).
  pose proof (clearedAll_frame (fm_fields (getForm σ fm)) σb) as [Hctl _].
  fold σc in Hctl. simpl. split; [| split].
  - intros n Hn.
    rewrite !(getNode_updNode_frame el_value) by done.
    rewrite !(getNode_updNode_frame el_defaultValue) by done.
    destruct (Hctl n) as (_&_&_&_&_&_&_& -> & -> &_).
    unfold σb, reset. fold (resetAll (querySelectorAll σa form sel_inputs) σa).
    by rewrite resetAll_value, resetAll_defaultValue.
  - intros fd Hfd. do 2 (apply updNode_keeps_neutral; [done | done |]).
    by apply clearedAll_neutral.
  - by rewrite getNode_updNode, decide_True.
Qed.

(** The label the callback leaves on the button: its [data-original-text]
    attribute, or ["Submit"]. *)
Lemma submitted_label fm form b σ :
  el_textContent (getNode (submitted fm form (Some b) σ) b)
  = orDefault
      (getAttribute (getNode (showSuccessMessage form σ) b) "data-original-text")
      (js "Submit").
Proof.
  unfold submitted.
  set (σa := showSuccessMessage form σ).
  set (σb := reset form σa).
  rewrite (getNode_updNode_frame el_textContent) by done.
  rewrite getNode_updNode, decide_True by done.
  change (el_textContent (set_textContent ?v ?e)) with v.
  unfold getAttribute. f_equal.
  match goal with |- context [getNode (foldl ?f σb ?l) b] =>
    fold (clearedAll l σb);
    destruct (clearedAll_frame l σb) as [Hc _] end.
  destruct (Hc b) as (_ & -> & _).
  unfold σb, reset. fold (resetAll (querySelectorAll σa form sel_inputs) σa).
  generalize (querySelectorAll σa form sel_inputs). intros l.
  generalize σa. clear. induction l as [|m l IH]; intros σ; simpl; [done |].
  rewrite IH. by rewrite (getNode_updNode_frame el_attributes).
Qed.

End SubmitFacts.

(** ** Initialisation and events *)

Section InitFacts.

Context `{Engine : RegExpEngine} `{Host : Browser}.

Implicit Types (σ : State) (n m : node) (fd fm : nat).

Lemma forEach_final {A} (P : State -> Prop)
    (f : A -> State -> Completion unit) l σ :
  (forall x σ, P σ -> P (final (f x σ))) ->
  P σ -> P (final (forEach f l σ)).
Proof.
  intros Hf. revert σ. induction l as [|x l IH]; intros σ Hσ; simpl; [done |].
  specialize (Hf x σ Hσ). destruct (f x σ) as [[] σ' | e σ']; simpl in *; auto.
Qed.

(** A throw on [x] ends the loop in the state [x] was reached in. *)
Lemma forEach_throw {A} (f : A -> State -> Completion unit) pre x post
    σ σ1 e σ2 :
  forEach f pre σ = Normal tt σ1 ->
  f x σ1 = Thrown e σ2 ->
  forEach f (pre ++ x :: post) σ = Thrown e σ2.
Proof.
  revert σ. induction pre as [|y pre IH]; intros σ Hpre Hx; simpl in *.
  - injection Hpre as <-. by rewrite Hx.
  - destruct (f y σ) as [[] σ' | e' σ']; [auto | discriminate].
Qed.

(** *** A malformed pattern *)

Lemma initializeField_pattern_error fm input σ p :
  getAttribute (getNode σ input) "pattern" = Some p ->
  RegExp_new p = None ->
  initializeField fm input σ = Thrown SyntaxError σ.
Proof.
  intros Hp Hnew.
  unfold initializeField, getValidationRules, attr, hasAttribute, getAttribute in *.
  rewrite Hp. change (default [] (Some p)) with p. by rewrite Hnew.
Qed.

(** *** What initialisation leaves in place *)

Lemma initFrame_refl targets σ : initFrame targets σ σ.
Proof.
  split; [done |]. split; [eauto |].
  exists []. by rewrite app_nil_r.
Qed.

Lemma initFrame_trans targets σ1 σ2 σ3 :
  initFrame targets σ1 σ2 -> initFrame targets σ2 σ3 ->
  initFrame targets σ1 σ3.
Proof.
  intros (Hf1 & Ho1 & L1 & Hl1 & HL1) (Hf2 & Ho2 & L2 & Hl2 & HL2).
  split; [congruence |]. split.
  - intros k f Hk. destruct (Ho1 k f Hk) as (f' & Hk' & He').
    destruct (Ho2 k f' Hk') as (f'' & Hk'' & He''). exists f''.
    split; [done | congruence].
  - exists (L1 ++ L2). rewrite Hl2, Hl1, app_assoc. split; [done |].
    by apply Forall_app.
Qed.

Lemma initFrame_weaken targets targets' σ σ' :
  targets ⊆ targets' -> initFrame targets σ σ' -> initFrame targets' σ σ'.
Proof.
  intros Hsub (Hf & Ho & L & Hl & HL). split; [done |]. split; [done |].
  exists L. split; [done |]. eapply Forall_impl; [exact HL |]. set_solver.
Qed.

Lemma createErrorElement_registry input σ :
  sameRegistry σ (final (createErrorElement input σ)).
Proof.
  unfold createErrorElement, createElement.
  repeat case_match; simplify_eq; by repeat split.
Qed.

Lemma createSuccessElement_registry input σ :
  sameRegistry σ (final (createSuccessElement input σ)).
Proof.
  unfold createSuccessElement, createElement.
  repeat case_match; simplify_eq; by repeat split.
Qed.

Lemma initializeField_frame fm input σ :
  initFrame [input] σ (final (initializeField fm input σ)).
Proof.
  unfold initializeField.
  destruct (getValidationRules σ input) as [rules|]; [| apply initFrame_refl].
  pose proof (createErrorElement_registry input σ) as H1.
  destruct (createErrorElement input σ) as [err σ1 | e σ1]; simpl in H1.
  2: { destruct H1 as (_ & Ho & Hf & Hl & _). unfold initFrame; cbn [final].
       split; [done |].
       split; [rewrite Ho; eauto |]. exists []. rewrite app_nil_r.
       split; [done | constructor]. }
  pose proof (createSuccessElement_registry input σ1) as H2.
  destruct (createSuccessElement input σ1) as [succ σ2 | e σ2]; simpl in H2.
  2: { destruct H1 as (_ & Ho & Hf & Hl & _), H2 as (_ & Ho2 & Hf2 & Hl2 & _).
       unfold initFrame; cbn [final].
       split; [congruence |]. split; [rewrite Ho2, Ho; eauto |].
       exists []. rewrite app_nil_r. split; [congruence | constructor]. }
  destruct H1 as (_ & Ho & Hf & Hl & _), H2 as (_ & Ho2 & Hf2 & Hl2 & _).
  unfold initFrame, final, debounce, addEventListener.
  destruct (bool_decide _); cbn -[js].
  all: split; [congruence |].
  all: split;
    [ intros k f Hk; unfold getForm; cbn -[js]; rewrite Ho2, Ho;
      rewrite lookup_insert; case_decide; subst;
      [ eexists; split; [done |]; cbn; by rewrite lookup_total_alt, Hk
      | eauto ]
    | ].
  all: rewrite Hl2, Hl, <- !app_assoc; eexists; split; [done |].
  all: repeat constructor; set_solver.
Qed.

Lemma forEach_initializeField_frame fm inputs σ :
  initFrame inputs σ (final (forEach (initializeField fm) inputs σ)).
Proof.
  revert σ. induction inputs as [|x inputs IH]; intros σ; simpl.
  - apply initFrame_refl.
  - pose proof (initializeField_frame fm x σ) as Hx.
    destruct (initializeField fm x σ) as [[] σ' | e σ']; simpl in Hx.
    + eapply initFrame_trans.
      * eapply initFrame_weaken; [| exact Hx]. set_solver.
      * eapply initFrame_weaken; [| apply IH]. set_solver.
    + eapply initFrame_weaken; [| exact Hx]. set_solver.
Qed.

Lemma initializeField_formsFalse fm input σ :
  formsFalse σ -> formsFalse (final (initializeField fm input σ)).
Proof.
  intros HI. unfold initializeField.
  destruct (getValidationRules σ input) as [rules|]; [| done].
  pose proof (createErrorElement_registry input σ) as H1.
  destruct (createErrorElement input σ) as [err σ1 | e σ1]; simpl in H1;
    destruct H1 as (_ & Ho & _).
  2: { unfold formsFalse; cbn [final]. by rewrite Ho. }
  pose proof (createSuccessElement_registry input σ1) as H2.
  destruct (createSuccessElement input σ1) as [succ σ2 | e σ2]; simpl in H2;
    destruct H2 as (_ & Ho2 & _).
  2: { unfold formsFalse; cbn [final]. by rewrite Ho2, Ho. }
  unfold formsFalse, final, debounce, addEventListener.
  destruct (bool_decide _); cbn -[js].
  all: intros k f; unfold getForm; cbn -[js]; rewrite Ho2, Ho.
  all: rewrite lookup_insert; case_decide; subst; [| by apply HI].
  all: intros [= <-]; cbn; rewrite lookup_total_alt.
  all: destruct (formObjs σ !! k) as [f0|] eqn:Hk; [by apply (HI k) | done].
Qed.

Lemma initializeForm_formsFalse form σ :
  formsFalse σ -> formsFalse (final (initializeForm form σ)).
Proof.
  intros HI. unfold initializeForm, newFormData.
  set (fm := fresh (dom (formObjs σ))).
  set (σa := set_formObjs _ σ).
  assert (formsFalse σa) as Ha.
  { intros k f. unfold σa; simpl. rewrite lookup_insert. case_decide.
    - by intros [= <-].
    - apply HI. }
  pose proof (forEach_final formsFalse (initializeField fm)
                (querySelectorAll σa form sel_inputs) σa
                (initializeField_formsFalse fm) Ha) as Hb.
  by destruct (forEach _ _ σa) as [[] σb | e σb].
Qed.

Lemma FormValidator_new_formsFalse σ :
  formsFalse σ -> formsFalse (final (FormValidator_new σ)).
Proof.
  intros HI. unfold FormValidator_new, setupFormValidation.
  by apply forEach_final; [apply initializeForm_formsFalse |].
Qed.

(** *** Registered forms *)

Lemma registeredForms_frame targets σ σ' :
  formsAllocated σ -> initFrame targets σ σ' ->
  formsAllocated σ' /\ registeredForms σ' = registeredForms σ.
Proof.
  intros Hal (Hf & Ho & _). split.
  - intros k Hk. rewrite Hf in Hk. destruct (Hal k Hk) as [f Hkf].
    destruct (Ho k f Hkf) as (f' & -> & _). eauto.
  - unfold registeredForms. rewrite Hf. apply map_ext_in.
    intros k Hk%list_elem_of_In. destruct (Hal k Hk) as [f Hkf].
    destruct (Ho k f Hkf) as (f' & Hkf' & He). unfold getForm.
    by rewrite !lookup_total_alt, Hkf, Hkf'.
Qed.

Lemma newFormData_keeps form σ k f :
  formObjs σ !! k = Some f -> formObjs (newFormData form σ).2 !! k = Some f.
Proof.
  intros Hk. unfold newFormData; simpl. rewrite lookup_insert_ne; [done |].
  intros Heq. pose proof (is_fresh (dom (formObjs σ))) as Hfresh.
  rewrite Heq in Hfresh. apply Hfresh, elem_of_dom. eauto.
Qed.

Lemma newFormData_frame form σ :
  initFrame [] σ (newFormData form σ).2.
Proof.
  split; [done |]. split.
  - intros k f Hk. exists f. split; [by apply newFormData_keeps | done].
  - exists []. by rewrite app_nil_r.
Qed.

(** A form that initialises normally is appended to [this.forms]; its
    listeners are on the form and its controls. *)
Lemma initializeForm_normal form σ σ' :
  formsAllocated σ ->
  initializeForm form σ = Normal tt σ' ->
  formsAllocated σ' /\
  registeredForms σ' = registeredForms σ ++ [form] /\
  exists added, listeners σ' = listeners σ ++ added.
Proof.
  intros Hal. unfold initializeForm.
  pose proof (newFormData_frame form σ) as Hnew.
  assert (formObjs (newFormData form σ).2 !! (newFormData form σ).1
          = Some (mkForm form [] false)) as Hfm
    by (unfold newFormData; simpl; apply lookup_insert_eq).
  destruct (newFormData form σ) as [fm σa]; simpl in Hnew, Hfm.
  pose proof (forEach_initializeField_frame fm
                (querySelectorAll σa form sel_inputs) σa) as Hin.
  destruct (forEach _ _ σa) as [[] σb | e σb]; [| discriminate].
  simpl in Hin. intros [= <-].
  destruct (registeredForms_frame _ _ _ Hal Hnew) as [Hala Hra].
  destruct (registeredForms_frame _ _ _ Hala Hin) as [Halb Hrb].
  destruct Hin as (Hf & Ho & L & HL & _), Hnew as (Hfa & _ & La & HLa & _).
  destruct (Ho fm _ Hfm) as (f' & Hfm' & He').
  split; [| split].
  - intros k. simpl. rewrite elem_of_app, list_elem_of_singleton.
    intros [Hk | ->]; [by apply Halb | eauto].
  - unfold registeredForms in *. cbn -[js]. rewrite map_app. simpl.
    unfold getForm in *. cbn -[js]. rewrite Hrb, Hra. f_equal.
    rewrite lookup_total_alt, Hfm'. simpl. by rewrite He'.
  - cbn -[js]. rewrite HL, HLa, <- !app_assoc. eauto.
Qed.

Lemma forEach_initializeForm_normal F σ σ' :
  formsAllocated σ ->
  forEach initializeForm F σ = Normal tt σ' ->
  formsAllocated σ' /\ registeredForms σ' = registeredForms σ ++ F.
Proof.
  revert σ. induction F as [|form F IH]; intros σ Hal; simpl.
  - intros [= <-]. by rewrite app_nil_r.
  - destruct (initializeForm form σ) as [[] σ1 | e σ1] eqn:E; [| discriminate].
    destruct (initializeForm_normal _ _ _ Hal E) as (Hal1 & Hr1 & _).
    intros (Hal' & Hr')%IH; [| done]. split; [done |].
    by rewrite Hr', Hr1, <- app_assoc.
Qed.

End InitFacts.

(** ** Submission gate and events *)

Section EventFacts.

Context `{Engine : RegExpEngine} `{Host : Browser}.

Implicit Types (σ : State) (n m : node) (fd fm : nat).

Lemma validateForm_eq fm σ :
  validateForm fm σ
  = (forallb (fun '(_, fd) => fieldPasses σ fd) (fm_fields (getForm σ fm)),
     validatedAll (fm_fields (getForm σ fm)) σ).
Proof.
  unfold validateForm.
  rewrite (surjective_pairing (validateForm_fields _ _ _)).
  by rewrite validateForm_fields_verdict, validateForm_fields_state.
Qed.

Lemma getForm_frame σ σ' fm : fieldFrame σ σ' -> getForm σ' fm = getForm σ fm.
Proof. intros (_ & _ & Ho & _). unfold getForm. by rewrite Ho. Qed.

Lemma find_invalid σ (l : list (jsstring * nat)) :
  forallb (fun '(_, fd) => fd_isValid (getField σ fd)) l = false ->
  exists kv,
    List.find (fun '(_, fd) => negb (fd_isValid (getField σ fd))) l = Some kv.
Proof.
  induction l as [|[k fd] l IH]; simpl; [done |].
  destruct (fd_isValid _); simpl; eauto.
Qed.

(** After the pass over [fields], the flags of tracked fields are their
    verdicts. *)
Lemma validatedAll_forallb fields σ (l : list (jsstring * nat)) :
  l ⊆ fields ->
  forallb (fun '(_, fd) => fd_isValid (getField (validatedAll fields σ) fd)) l
  = forallb (fun '(_, fd) => fieldPasses σ fd) l.
Proof.
  induction l as [|[k fd] l IH]; intros Hsub; simpl; [done |].
  rewrite validatedAll_flags.
  - rewrite IH; [done |]. set_solver.
  - apply (list_elem_of_fmap_2 snd _ (k, fd)). set_solver.
Qed.

(** [focus] writes [document.activeElement] and nothing else. *)
Lemma focus_cases n σ :
  focus n σ = set_activeElement (Some n) σ \/ focus n σ = σ.
Proof. unfold focus. destruct (focusable _ _); [by left | by right]. Qed.

Lemma focus_activeElement n σ :
  activeElement (focus n σ)
  = if focusable (nodes σ) n then Some n else activeElement σ.
Proof. unfold focus. by destruct (focusable _ _). Qed.

Lemma getNode_focus n σ m : getNode (focus n σ) m = getNode σ m.
Proof. by destruct (focus_cases n σ) as [-> | ->]. Qed.

Lemma getField_focus n σ fd : getField (focus n σ) fd = getField σ fd.
Proof. by destruct (focus_cases n σ) as [-> | ->]. Qed.

Lemma formObjs_focus n σ : formObjs (focus n σ) = formObjs σ.
Proof. by destruct (focus_cases n σ) as [-> | ->]. Qed.

Lemma timers_focus n σ : timers (focus n σ) = timers σ.
Proof. by destruct (focus_cases n σ) as [-> | ->]. Qed.

Lemma handleSubmit_valid fm σ :
  let fields := fm_fields (getForm σ fm) in
  forallb (fun '(_, fd) => fieldPasses σ fd) fields = true ->
  handleSubmit fm σ = submitForm fm (validatedAll fields σ).
Proof.
  intros fields Hok. unfold handleSubmit. rewrite validateForm_eq.
  fold fields. by rewrite Hok.
Qed.

(** A failed validation moves the focus to the first tracked field whose
    flag is down, and does nothing else. *)
Lemma handleSubmit_invalid fm σ :
  let fields := fm_fields (getForm σ fm) in
  let σv := validatedAll fields σ in
  forallb (fun '(_, fd) => fieldPasses σ fd) fields = false ->
  exists pre k fd post,
    fields = pre ++ (k, fd) :: post /\
    Forall (fun kv => fd_isValid (getField σv kv.2) = true) pre /\
    fd_isValid (getField σv fd) = false /\
    handleSubmit fm σ = focus (fd_element (getField σ fd)) σv.
Proof.
  intros fields σv Hbad. unfold handleSubmit. rewrite validateForm_eq.
  fold fields σv. rewrite Hbad.
  pose proof (validatedAll_frame fields σ) as Hfr. fold σv in Hfr.
  rewrite (getForm_frame _ _ _ Hfr). fold fields.
  assert (forallb (fun '(_, fd) => fd_isValid (getField σv fd)) fields = false)
    as Hflags by (unfold σv; by rewrite validatedAll_forallb).
  destruct (find_invalid _ _ Hflags) as [[k fd] Hfind]. rewrite Hfind.
  apply find_split in Hfind as (pre & post & Hsplit & Hpre & Hfd).
  exists pre, k, fd, post. split; [done |]. split; [| split].
  - eapply Forall_impl; [exact Hpre |]. intros [k' fd']; simpl.
    by intros ?%negb_false_iff.
  - by apply negb_true_iff in Hfd.
  - destruct Hfr as (_ & Hf & _). by destruct (Hf fd) as (-> & _).
Qed.

Lemma handleSubmit_formObjs fm σ : formObjs (handleSubmit fm σ) = formObjs σ.
Proof.
  destruct (forallb (fun '(_, fd) => fieldPasses σ fd)
              (fm_fields (getForm σ fm))) eqn:E.
  - rewrite handleSubmit_valid by done. rewrite submitForm_formObjs.
    apply fieldFrame_formObjs, validatedAll_frame.
  - destruct (handleSubmit_invalid fm σ E) as (?&?&?&?&_&_&_& ->).
    rewrite formObjs_focus.
    apply (fieldFrame_formObjs _ _ (validatedAll_frame _ σ)).
Qed.

Lemma runHandler_formObjs h σ : formObjs (runHandler h σ) = formObjs σ.
Proof.
  destruct h as [fd | fd | cell fd | fm]; simpl.
  - apply fieldFrame_formObjs, validateField_frame.
  - done.
  - by destruct (default None (cells σ !! cell)).
  - by rewrite handleSubmit_formObjs.
Qed.

Lemma dispatchEvent_formObjs target type σ :
  formObjs (dispatchEvent target type σ) = formObjs σ.
Proof.
  unfold dispatchEvent.
  generalize (List.filter
                (fun l => bool_decide (l_target l = target)
                          && bool_decide (l_type l = type)) (listeners σ)).
  intros ls.
  change (formObjs σ) with (formObjs (set_defaultPrevented false σ)).
  generalize (set_defaultPrevented false σ). clear σ.
  induction ls as [|l ls IH]; intros σ; simpl; [done |].
  by rewrite IH, runHandler_formObjs.
Qed.

Lemma runTask_formObjs task σ : formObjs (runTask task σ) = formObjs σ.
Proof.
  destruct task as [cell fd | fm form b | modal | modal | modal]; simpl.
  - rewrite (fieldFrame_formObjs _ _ (validateField_frame fd _)).
    by destruct (default None (cells σ !! cell)).
  - apply submitted_formObjs.
  - done.
  - done.
  - done.
Qed.

Lemma step_formObjs ev σ : formObjs (step ev σ) = formObjs σ.
Proof.
  destruct ev as [target | target value | target | id]; simpl.
  - apply dispatchEvent_formObjs.
  - by rewrite dispatchEvent_formObjs.
  - apply dispatchEvent_formObjs.
  - destruct (List.find _ _); [| done]. by rewrite runTask_formObjs.
Qed.

(** A [submit] event on a form with its one listener runs [handleSubmit]
    once the default action is prevented. *)
Lemma step_submit form fm σ :
  List.filter
    (fun l => bool_decide (l_target l = form) && bool_decide (l_type l = "submit"))
    (listeners σ)
  = [mkListener form "submit" (OnSubmit fm)] ->
  step (Submit form) σ = handleSubmit fm (set_defaultPrevented true σ).
Proof. intros H. unfold step, dispatchEvent. by rewrite H. Qed.

Lemma reachable_formsFalse σ : reachable σ -> formsFalse σ.
Proof.
  induction 1 as [els doc bdy | σ ev _ IH].
  - apply FormValidator_new_formsFalse. intros fm f.
    unfold pageLoad; simpl. by rewrite lookup_empty.
  - unfold formsFalse. by rewrite step_formObjs.
Qed.

(** After [validateForm], its verdict is the conjunction of the flags. *)
Lemma validateForm_flags fm σ :
  fst (validateForm fm σ) = allFieldsValid (snd (validateForm fm σ)) fm.
Proof.
  rewrite validateForm_eq; simpl.
  set (fields := fm_fields (getForm σ fm)).
  pose proof (validatedAll_frame fields σ) as Hfr.
  rewrite (allFieldsValid_frame σ) by apply (fieldFrame_formObjs _ _ Hfr).
  fold fields.
  by rewrite validatedAll_forallb.
Qed.

End EventFacts.

(** ** Indicators *)

Section IndicatorFacts.

Context `{Engine : RegExpEngine} `{Host : Browser}.

Implicit Types (σ : State) (n m : node) (fd fm : nat).

(** [setFieldError] changes the display of the error element only, and
    [setFieldSuccess] that of the success element only. *)
Lemma setFieldError_display fd msg σ n :
  n ≠ fd_errorElement (getField σ fd) ->
  el_display (getNode (setFieldError fd msg σ) n) = el_display (getNode σ n).
Proof.
  intros Hn. unfold setFieldError.
  destruct (getField σ fd) as [elem v rules err succ]; simpl in *. by reads.
Qed.

Lemma setFieldSuccess_display fd σ n :
  n ≠ fd_successElement (getField σ fd) ->
  el_display (getNode (setFieldSuccess fd σ) n) = el_display (getNode σ n).
Proof.
  intros Hn. unfold setFieldSuccess.
  destruct (getField σ fd) as [elem v rules err succ]; simpl in *. by reads.
Qed.

Lemma neutral_classesExclusive σ fd : neutral σ fd -> classesExclusive σ fd.
Proof. unfold neutral, classesExclusive. tauto. Qed.

Lemma invalidWith_classesExclusive σ fd msg :
  invalidWith σ fd msg -> classesExclusive σ fd.
Proof. unfold invalidWith, classesExclusive. tauto. Qed.

Lemma validShown_classesExclusive σ fd : validShown σ fd -> classesExclusive σ fd.
Proof. unfold validShown, classesExclusive. tauto. Qed.

(** What [validateField] leaves: the valid state, or the invalid state
    with the message of a rule of the field. *)
Lemma validateField_outcome fd σ :
  (fst (validateField fd σ) = true /\ validShown (snd (validateField fd σ)) fd)
  \/ (fst (validateField fd σ) = false /\
      exists rule, rule ∈ fd_rules (getField σ fd) /\
                   invalidWith (snd (validateField fd σ)) fd (rule_message rule)).
Proof.
  unfold validateField. rewrite validateField_rules_find.
  destruct (List.find _ _) as [rule|] eqn:E; simpl.
  - right. split; [done |]. exists rule. split.
    + apply find_some in E as [Hin _]. by apply list_elem_of_In.
    + apply setFieldError_invalid.
  - left. split; [done |]. apply setFieldSuccess_valid.
Qed.

Lemma validateField_indicators fd σ :
  fd_errorElement (getField σ fd) ≠ fd_successElement (getField σ fd) ->
  indicatorsExclusive (snd (validateField fd σ)) fd.
Proof.
  intros Hne. pose proof (clearFieldState_neutral fd σ) as (_ & He & Hs & _).
  pose proof (clearFieldState_field fd fd σ) as Hf.
  rewrite decide_True in Hf by done.
  unfold validateField. rewrite validateField_rules_find.
  unfold indicatorsExclusive, hidden in *.
  destruct (List.find _ _) as [rule|]; simpl.
  - right. rewrite setFieldError_field, decide_True by done. simpl.
    rewrite Hf in *. simpl in *.
    rewrite setFieldError_display; [done |]. rewrite Hf. simpl. congruence.
  - left. rewrite setFieldSuccess_field, decide_True by done. simpl.
    rewrite Hf in *. simpl in *.
    rewrite setFieldSuccess_display; [done |]. by rewrite Hf.
Qed.

Lemma getValidationRules_required_message σ input rules message :
  getValidationRules σ input = Some rules ->
  Required message ∈ rules -> message = getRequiredMessage σ input.
Proof.
  unfold getValidationRules.
  destruct (hasAttribute _ "required"), (bool_decide (el_type _ = _)),
    (hasAttribute _ "minlength"), (hasAttribute _ "pattern");
    try destruct (RegExp_new _); try discriminate;
    destruct (bool_decide (orElse _ _ = _));
    intros [= <-]; cbn -[js]; rewrite ?elem_of_cons, ?elem_of_nil;
    naive_solver.
Qed.

End IndicatorFacts.

(** * The claims of the specification *)

Section Claims.

Context `{Engine : RegExpEngine} `{Host : Browser}.

Implicit Types (σ : State) (n : node) (fd fm : nat).

(** C1.  The rules of a field come out of [getValidationRules] in the order
    Required, Email, MinLength, Pattern, Phone; and [validateField] on a
    field whose rules are [pre ++ rule :: post], where every rule of [pre]
    passes on the trimmed value and [rule] fails, returns [false] and
    leaves the field invalid with the message of [rule], and of [rule]
    alone, on display, whatever [post] holds. *)
Theorem validateField_reports_first_failure :
  (forall σ input rules,
      getValidationRules σ input = Some rules ->
      sublist (map rule_rank rules) [0; 1; 2; 3; 4]%nat) /\
  (forall σ fd pre rule post,
      fd_rules (getField σ fd) = pre ++ rule :: post ->
      Forall (fun r => passes r (currentValue σ fd) = true) pre ->
      passes rule (currentValue σ fd) = false ->
      fst (validateField fd σ) = false /\
      invalidWith (snd (validateField fd σ)) fd (rule_message rule)).
Proof.
  split; [apply getValidationRules_order |].
  intros σ fd pre rule post Hrules Hpre Hrule.
  unfold validateField. rewrite validateField_rules_find.
  fold (currentValue σ fd).
  rewrite (find_first_failure _ pre post rule _ Hrules Hpre Hrule). simpl.
  split; [done | apply setFieldError_invalid].
Qed.

(** C2.  A field with a Required rule, validated on a value that is empty
    or all white space, comes out invalid: [validateField] returns
    [false], [isValid] is [false], and the message on display is that of a
    Required rule of the field, which for rules derived by
    [getValidationRules] is the message of [getRequiredMessage]; the other
    rules of the field play no part. *)
Theorem required_blank_invalid σ fd msg :
  Required msg ∈ fd_rules (getField σ fd) ->
  blank (el_value (getNode σ (fd_element (getField σ fd)))) ->
  fst (validateField fd σ) = false /\
  fd_isValid (getField (snd (validateField fd σ)) fd) = false /\
  exists message,
    Required message ∈ fd_rules (getField σ fd) /\
    invalidWith (snd (validateField fd σ)) fd message /\
    forall σ0 input,
      getValidationRules σ0 input = Some (fd_rules (getField σ fd)) ->
      message = getRequiredMessage σ0 input.
Proof.
  intros Hreq Hblank.
  destruct (find_required _ _ Hreq) as (message & Hin & Hfind).
  assert (validateField fd σ
          = (false, setFieldError fd message (clearFieldState fd σ))) as ->.
  { unfold validateField. rewrite validateField_rules_find.
    rewrite (trim_blank _ Hblank), Hfind. done. }
  simpl. pose proof (setFieldError_invalid fd message (clearFieldState fd σ))
    as Hinv.
  split; [done |]. split; [apply Hinv |]. exists message.
  split; [done |]. split; [done |].
  intros σ0 input Hrules.
  by eapply getValidationRules_required_message.
Qed.


(** C4.  Whatever state a field is in, [clearFieldState] leaves it
    neutral: [isValid] is [false], the error and the success element are
    hidden, and the control carries neither the error nor the success
    class. *)
Theorem clearFieldState_returns_to_neutral fd σ :
  neutral (clearFieldState fd σ) fd.
Proof. apply clearFieldState_neutral. Qed.

(** C5, as amended.  A [submit] event on a form whose one listener is the
    validator's runs [handleSubmit].  [handleSubmit] validates every tracked
    field afresh, in insertion order: the verdict is the conjunction of the
    rules' verdicts on the current values, and each field's flag is set to
    its own verdict.  When every field passes, the submission sequence runs
    on the validated page and starts its timer.  Otherwise no timer is
    started, no element is disabled, no text other than that of error
    elements changes, and [focus()] is called on the control of the first
    field, in insertion order, whose flag is down: the focus is on that
    control where the host can focus it on the validated page, and stays
    where it was where the host cannot, as for a disabled control. *)
Theorem submit_gate fm σ :
  let fields := fm_fields (getForm σ fm) in
  let verdict := forallb (fun '(_, fd) => fieldPasses σ fd) fields in
  let σv := validatedAll fields σ in
  (forall form σ0,
      List.filter
        (fun l => bool_decide (l_target l = form)
                  && bool_decide (l_type l = "submit"))
        (listeners σ0)
      = [mkListener form "submit" (OnSubmit fm)] ->
      σ = set_defaultPrevented true σ0 ->
      step (Submit form) σ0 = handleSubmit fm σ) /\
  validateForm fm σ = (verdict, σv) /\
  (forall fd, fd ∈ fields.*2 ->
              fd_isValid (getField σv fd) = fieldPasses σ fd) /\
  if verdict
  then
    handleSubmit fm σ = submitForm fm σv /\
    exists submitBtn,
      timers (handleSubmit fm σ)
      = timers σ
        ++ [mkTimer (nextTimer σ) 2000
              (Submitted fm (fm_element (getForm σ fm)) submitBtn)]
  else
    timers (handleSubmit fm σ) = timers σ /\
    (forall n, el_disabled (getNode (handleSubmit fm σ) n)
               = el_disabled (getNode σ n)) /\
    (forall n, (forall fd, fd ∈ fields.*2 ->
                           fd_errorElement (getField σ fd) ≠ n) ->
               el_textContent (getNode (handleSubmit fm σ) n)
               = el_textContent (getNode σ n)) /\
    exists pre k fd post,
      fields = pre ++ (k, fd) :: post /\
      Forall (fun kv => fd_isValid (getField σv kv.2) = true) pre /\
      fd_isValid (getField σv fd) = false /\
      activeElement (handleSubmit fm σ)
      = (if focusable (nodes σv) (fd_element (getField σ fd))
         then Some (fd_element (getField σ fd))
         else activeElement σ) /\
      (el_disabled (getNode σ (fd_element (getField σ fd))) = true ->
       activeElement (handleSubmit fm σ) = activeElement σ).
Proof.
  intros fields verdict σv.
  split; [intros form σ0 Hl ->; by apply step_submit |].
  split; [apply validateForm_eq |].
  split; [intros fd Hfd; by apply validatedAll_flags |].
  pose proof (validatedAll_frame fields σ) as Hfr. fold σv in Hfr.
  destruct verdict eqn:Hv.
  - rewrite handleSubmit_valid by done. fold fields σv.
    split; [done |]. unfold submitForm.
    rewrite (getForm_frame _ _ _ Hfr).
    destruct Hfr as (_&_&_&_&_& Ht & Hn &_).
    exists (querySelector σv (fm_element (getForm σ fm)) sel_submit).
    destruct (querySelector _ _ _); simpl; by rewrite Ht, Hn.
  - destruct (handleSubmit_invalid fm σ Hv)
      as (pre & k & fd & post & Hsplit & Hpre & Hfd & ->).
    fold fields σv in Hsplit, Hpre, Hfd |- *.
    assert (forall n, el_disabled (getNode σv n) = el_disabled (getNode σ n))
      as Hdis.
    { intros n. destruct Hfr as (Hctl & _).
      by destruct (Hctl n) as (_&_&_&_&_&_&_&_&_& -> &_). }
    assert (activeElement σv = activeElement σ) as Hact by apply Hfr.
    split; [rewrite timers_focus; apply Hfr |]. split; [| split].
    + intros n. by rewrite getNode_focus.
    + intros n Hn. rewrite getNode_focus.
      by apply validatedAll_textContent.
    + exists pre, k, fd, post. split_and!; [done .. | |].
      * by rewrite focus_activeElement, Hact.
      * intros Hoff. rewrite focus_activeElement, Hact.
        rewrite focusable_disabled; [done |].
        rewrite <- Hoff. apply Hdis.
Qed.

(** C6, as amended.  For a form with a submit button, [submitForm]
    disables the button, labels it ["Submitting..."] and starts a timer of
    2000 ms.  When the timer's callback runs, on whatever page, every
    control of the form is back at its default value, every tracked field
    is neutral, and the button is enabled again. *)
Theorem submission_sequence fm σ b :
  querySelector σ (fm_element (getForm σ fm)) sel_submit = Some b ->
  let form := fm_element (getForm σ fm) in
  (el_disabled (getNode (submitForm fm σ) b) = true /\
   el_textContent (getNode (submitForm fm σ) b) = js "Submitting..." /\
   timers (submitForm fm σ)
   = timers σ ++ [mkTimer (nextTimer σ) 2000 (Submitted fm form (Some b))]) /\
  forall σ',
    let σ2 := runTask (Submitted fm form (Some b)) σ' in
    (forall n,
        n ∈ querySelectorAll (showSuccessMessage form σ') form sel_inputs ->
        el_value (getNode σ2 n) = el_defaultValue (getNode σ2 n)) /\
    (forall fd, fd ∈ (fm_fields (getForm σ' fm)).*2 -> neutral σ2 fd) /\
    el_disabled (getNode σ2 b) = false.
Proof.
  intros Hb form. split; [by apply submitForm_button |].
  intros σ'. apply submitted_effect.
Qed.

(** C7, as amended.  On every page the script can reach, the [isValid]
    member of every [formData] object is [false]: it is set when the
    object is built and no event writes a [formData] object afterwards.
    The validity of a form is what [validateForm] returns, which is the
    conjunction of the flags its run leaves on the tracked fields. *)
Theorem form_isValid_never_updated σ :
  reachable σ ->
  (forall fm f, formObjs σ !! fm = Some f -> fm_isValid f = false) /\
  (forall ev, formObjs (step ev σ) = formObjs σ) /\
  (forall fm,
      fst (validateForm fm σ) = allFieldsValid (snd (validateForm fm σ)) fm).
Proof.
  intros Hreach. split; [by apply reachable_formsFalse |].
  split; [intros ev; apply step_formObjs |].
  intros fm. apply validateForm_flags.
Qed.

(** C8, as amended.  When the [pattern] attribute of a control is not a
    regular expression, [new FormValidator()] ends by the [SyntaxError]
    thrown while that control's rules are built, in the state reached
    just before: the forms before the control's form are registered and
    no other, and no listener has been added since the control's form was
    reached except on the controls that precede it in the form.  The
    control, those after it, its form and the forms after it are left
    uninitialised. *)
Theorem malformed_pattern_aborts_setup
    σ before form after σ0 fm σa pre input post σ1 p :
  querySelectorAll (set_forms [] σ) (document σ) sel_forms
  = before ++ form :: after ->
  forEach initializeForm before (set_forms [] σ) = Normal tt σ0 ->
  newFormData form σ0 = (fm, σa) ->
  querySelectorAll σa form sel_inputs = pre ++ input :: post ->
  forEach (initializeField fm) pre σa = Normal tt σ1 ->
  getAttribute (getNode σ1 input) "pattern" = Some p ->
  RegExp_new p = None ->
  FormValidator_new σ = Thrown SyntaxError σ1 /\
  registeredForms σ1 = before /\
  exists added,
    listeners σ1 = listeners σ0 ++ added /\
    Forall (fun l => l_target l ∈ pre) added.
Proof.
  intros Hforms Hbefore Hnew Hinputs Hpre Hp Hbad.
  assert (initFrame pre σa σ1) as Hfr1.
  { pose proof (forEach_initializeField_frame fm pre σa) as H.
    by rewrite Hpre in H. }
  assert (initFrame [] σ0 σa) as Hfra.
  { pose proof (newFormData_frame form σ0) as H. by rewrite Hnew in H. }
  split; [| split].
  - unfold FormValidator_new, setupFormValidation.
    change (document (set_forms [] σ)) with (document σ). rewrite Hforms.
    apply (forEach_throw _ _ _ _ _ σ0); [done |].
    unfold initializeForm. rewrite Hnew, Hinputs.
    by rewrite (forEach_throw _ pre input post σa σ1 SyntaxError σ1 Hpre
                  (initializeField_pattern_error _ _ _ _ Hp Hbad)).
  - assert (formsAllocated (set_forms [] σ)) as Hal
      by (intros k Hk; by apply elem_of_nil in Hk).
    destruct (forEach_initializeForm_normal _ _ _ Hal Hbefore) as [Hal0 Hr0].
    destruct (registeredForms_frame _ _ _ Hal0 Hfra) as [Hala Hra].
    destruct (registeredForms_frame _ _ _ Hala Hfr1) as [_ Hr1].
    by rewrite Hr1, Hra, Hr0.
  - destruct Hfr1 as (_ & _ & L & HL & HLin).
    destruct Hfra as (_ & _ & La & HLa & HLain).
    destruct La as [|l La]; [| by apply Forall_cons in HLain as [?%elem_of_nil _]].
    rewrite app_nil_r in HLa. exists L. by rewrite HL, HLa.
Qed.

(** C9, as amended.  After [clearFieldState], [setFieldError],
    [setFieldSuccess] or [validateField] the control never carries both
    the error and the success class, and after [clearFieldState] both
    indicators are hidden, the error and the success element of the field
    alike.  For a field whose two indicators are distinct
    elements, one of them is hidden after [validateField]; after
    [setFieldError] or [setFieldSuccess] run by itself, one is hidden
    provided the other indicator was hidden before.  The value
    [validateField] returns is the [isValid] flag it leaves. *)
Theorem field_state_exclusive fd msg σ :
  let f := getField σ fd in
  (classesExclusive (clearFieldState fd σ) fd /\
   classesExclusive (setFieldError fd msg σ) fd /\
   classesExclusive (setFieldSuccess fd σ) fd /\
   classesExclusive (snd (validateField fd σ)) fd) /\
  (hidden (clearFieldState fd σ)
     (fd_errorElement (getField (clearFieldState fd σ) fd)) /\
   hidden (clearFieldState fd σ)
     (fd_successElement (getField (clearFieldState fd σ) fd))) /\
  (fd_errorElement f ≠ fd_successElement f ->
   indicatorsExclusive (snd (validateField fd σ)) fd /\
   (hidden σ (fd_successElement f) ->
    indicatorsExclusive (setFieldError fd msg σ) fd) /\
   (hidden σ (fd_errorElement f) ->
    indicatorsExclusive (setFieldSuccess fd σ) fd)) /\
  fst (validateField fd σ)
  = fd_isValid (getField (snd (validateField fd σ)) fd).
Proof.
  intros f. split; [| split; [| split]].
  - split; [apply neutral_classesExclusive, clearFieldState_neutral |].
    split; [eapply invalidWith_classesExclusive, setFieldError_invalid |].
    split; [apply validShown_classesExclusive, setFieldSuccess_valid |].
    destruct (validateField_outcome fd σ) as [[_ H] | [_ (rule & _ & H)]].
    + by apply validShown_classesExclusive.
    + by eapply invalidWith_classesExclusive.
  - destruct (clearFieldState_neutral fd σ) as (_ & Herr & Hsucc & _).
    by split.
  - intros Hne. split; [by apply validateField_indicators |].
    unfold indicatorsExclusive, hidden. split; intros Hhid.
    + right. rewrite setFieldError_field, decide_True by done. simpl.
      rewrite setFieldError_display; [done |]. fold f. congruence.
    + left. rewrite setFieldSuccess_field, decide_True by done. simpl.
      rewrite setFieldSuccess_display; [done |]. by fold f.
  - by rewrite validateField_flag.
Qed.

(** C10.  A control with no [required] attribute, a type other than
    ["email"], no [minlength] and no [pattern] attribute, and an identifier
    other than ["phone"], gets the empty rule list; a field with these
    rules validates on every value, the empty one too: [validateField]
    returns [true] and leaves the field valid, its success element on
    display. *)
Theorem no_rules_always_valid σ0 input :
  let e := getNode σ0 input in
  hasAttribute e "required" = false ->
  el_type e ≠ js "email" ->
  hasAttribute e "minlength" = false ->
  hasAttribute e "pattern" = false ->
  orElse (el_name e) (el_id e) ≠ js "phone" ->
  getValidationRules σ0 input = Some [] /\
  forall σ fd,
    getValidationRules σ0 input = Some (fd_rules (getField σ fd)) ->
    fst (validateField fd σ) = true /\
    validShown (snd (validateField fd σ)) fd.
Proof.
  intros e Hreq Htype Hmin Hpat Hphone.
  pose proof (getValidationRules_none σ0 input Hreq Htype Hmin Hpat Hphone)
    as Hnone.
  split; [done |]. intros σ fd Hrules.
  rewrite Hnone in Hrules. injection Hrules as Hrules.
  unfold validateField. rewrite <- Hrules. simpl.
  split; [done | apply setFieldSuccess_valid].
Qed.

End Claims.

(** * The claims on the example pages *)

Module Scenarios.

Import ExampleEngine Examples.

(** The user has typed ["bob"] into the required e-mail field: Required
    passes, Email fails, and the Email message is shown. *)
Lemma first_failure_witness :
  fst (validateField 0 (step (Input 4 (js "bob")) ready)) = false /\
  invalidWith (snd (validateField 0 (step (Input 4 (js "bob")) ready))) 0
    (js "Please enter a valid email address").
Proof.
  apply (proj2 validateField_reports_first_failure
           (step (Input 4 (js "bob")) ready) 0%nat
           [Required (js "This field is required")]
           (Email (js "Please enter a valid email address")) []).
  - vm_compute. reflexivity.
  - repeat constructor.
  - vm_compute. reflexivity.
Defined.

(** A space, a tab and a space in the required message field. *)
Lemma required_blank_witness :
  fst (validateField 3 (step (Input 12 [32; 9; 32]) ready)) = false /\
  fd_isValid
    (getField (snd (validateField 3 (step (Input 12 [32; 9; 32]) ready))) 3)
  = false /\
  exists message,
    Required message
    ∈ fd_rules (getField (step (Input 12 [32; 9; 32]) ready) 3) /\
    invalidWith (snd (validateField 3 (step (Input 12 [32; 9; 32]) ready))) 3
      message /\
    forall σ0 input,
      getValidationRules σ0 input
      = Some (fd_rules (getField (step (Input 12 [32; 9; 32]) ready) 3)) ->
      message = getRequiredMessage σ0 input.
Proof.
  apply (required_blank_invalid (step (Input 12 [32; 9; 32]) ready) 3%nat
           (js "This field is required")).
  - vm_compute. constructor.
  - vm_compute. repeat constructor.
Defined.


(** The registration form and its button. *)
Lemma submission_sequence_witness :
  (el_disabled (getNode (submitForm 0 ready) 9) = true /\
   el_textContent (getNode (submitForm 0 ready) 9) = js "Submitting..." /\
   timers (submitForm 0 ready)
   = timers ready
     ++ [mkTimer (nextTimer ready) 2000
           (Submitted 0 (fm_element (getForm ready 0)) (Some 9%nat))]) /\
  forall σ',
    (forall n,
        n ∈ querySelectorAll
              (showSuccessMessage (fm_element (getForm ready 0)) σ')
              (fm_element (getForm ready 0)) sel_inputs ->
        el_value
          (getNode
             (runTask
                (Submitted 0 (fm_element (getForm ready 0)) (Some 9%nat)) σ')
             n)
        = el_defaultValue
            (getNode
               (runTask
                  (Submitted 0 (fm_element (getForm ready 0)) (Some 9%nat)) σ')
               n)) /\
    (forall fd,
        fd ∈ (fm_fields (getForm σ' 0)).*2 ->
        neutral
          (runTask (Submitted 0 (fm_element (getForm ready 0)) (Some 9%nat)) σ')
          fd) /\
    el_disabled
      (getNode
         (runTask (Submitted 0 (fm_element (getForm ready 0)) (Some 9%nat)) σ')
         9)
    = false.
Proof.
  apply (submission_sequence 0%nat ready 9%nat).
  vm_compute. reflexivity.
Defined.

(** The registration form is submitted with a well-formed address (timer 1
    is the debounce of the e-mail field, timer 2 that of the submission);
    when the submission timer has fired the phone field holds its default
    value, which is not empty, and the button, labelled ["Register"] before,
    reads ["Submit"]. *)
Lemma submission_counterexample :
  el_textContent (getNode ready 9) = js "Register" /\
  timers (step (Submit 2) (step (Input 4 (js "a@b.co")) ready))
  = [mkTimer 1 500 (Later 0 0); mkTimer 2 2000 (Submitted 0 2 (Some 9%nat))] /\
  el_textContent
    (getNode (step (Submit 2) (step (Input 4 (js "a@b.co")) ready)) 9)
  = js "Submitting..." /\
  el_value
    (getNode
       (step (TimerFired 2)
          (step (Submit 2) (step (Input 4 (js "a@b.co")) ready))) 8)
  = js "+1" /\
  el_textContent
    (getNode
       (step (TimerFired 2)
          (step (Submit 2) (step (Input 4 (js "a@b.co")) ready))) 9)
  = js "Submit".
Proof. repeat split; vm_compute; reflexivity. Qed.

(** The contact form after its two fields have been filled and left. *)
Lemma form_isValid_witness :
  (forall fm f,
      formObjs (step (Blur 12) (step (Input 12 (js "hello")) ready)) !! fm
      = Some f ->
      fm_isValid f = false) /\
  (forall ev,
      formObjs (step ev (step (Blur 12) (step (Input 12 (js "hello")) ready)))
      = formObjs (step (Blur 12) (step (Input 12 (js "hello")) ready))) /\
  (forall fm,
      fst (validateForm fm (step (Blur 12) (step (Input 12 (js "hello")) ready)))
      = allFieldsValid
          (snd (validateForm fm
                  (step (Blur 12) (step (Input 12 (js "hello")) ready)))) fm).
Proof.
  apply (form_isValid_never_updated
           (step (Blur 12) (step (Input 12 (js "hello")) ready))).
  apply reach_step, reach_step. exact (reach_load _ _ _).
Defined.

(** On a page the script reaches, both fields of the contact form are
    flagged valid and the form's [isValid] member is [false]. *)
Lemma form_isValid_counterexample :
  reachable
    (step (Blur 14) (step (Blur 12) (step (Input 12 (js "hello")) ready))) /\
  allFieldsValid
    (step (Blur 14) (step (Blur 12) (step (Input 12 (js "hello")) ready))) 1
  = true /\
  fm_isValid
    (getForm
       (step (Blur 14) (step (Blur 12) (step (Input 12 (js "hello")) ready)))
       1)
  = false.
Proof.
  split.
  - apply reach_step, reach_step, reach_step. exact (reach_load _ _ _).
  - split; vm_compute; reflexivity.
Qed.

(** The code field of the registration form carries the pattern ["("]. *)
Lemma malformed_pattern_witness :
  FormValidator_new (twoForms (js "("))
  = Thrown SyntaxError
      (final (forEach
                (initializeField
                   (newFormData 2 (set_forms [] (twoForms (js "(")))).1)
                [4%nat]
                (newFormData 2 (set_forms [] (twoForms (js "(")))).2)) /\
  registeredForms
    (final (forEach
              (initializeField
                 (newFormData 2 (set_forms [] (twoForms (js "(")))).1)
              [4%nat]
              (newFormData 2 (set_forms [] (twoForms (js "(")))).2))
  = [] /\
  exists added,
    listeners
      (final (forEach
                (initializeField
                   (newFormData 2 (set_forms [] (twoForms (js "(")))).1)
                [4%nat]
                (newFormData 2 (set_forms [] (twoForms (js "(")))).2))
    = listeners (set_forms [] (twoForms (js "("))) ++ added /\
    Forall (fun l => l_target l ∈ [4%nat]) added.
Proof.
  apply (malformed_pattern_aborts_setup
           (twoForms (js "(")) [] 2%nat [10%nat]
           (set_forms [] (twoForms (js "(")))
           (newFormData 2 (set_forms [] (twoForms (js "(")))).1
           (newFormData 2 (set_forms [] (twoForms (js "(")))).2
           [4%nat] 6%nat [8%nat] _ (js "(")).
  - vm_compute. reflexivity.
  - reflexivity.
  - reflexivity.
  - vm_compute. reflexivity.
  - vm_compute. reflexivity.
  - vm_compute. reflexivity.
  - vm_compute. reflexivity.
Defined.

(** With the pattern ["("] on the code field, setting up the validator
    throws; the e-mail field before it has its listeners, the phone field
    after it in the same form has none, neither form is registered or
    listened on, and the contact form's fields have none. *)
Lemma malformed_pattern_counterexample :
  getAttribute (getNode (twoForms (js "(")) 6) "pattern" = Some (js "(") /\
  RegExp_new (js "(") = None /\
  (exists σ', FormValidator_new (twoForms (js "(")) = Thrown SyntaxError σ') /\
  map l_target (listeners (final (FormValidator_new (twoForms (js "(")))))
  = [4; 4; 4]%nat /\
  map (fun kf => fd_element kf.2)
    (map_to_list (fieldObjs (final (FormValidator_new (twoForms (js "("))))))
  = [4%nat] /\
  forms (final (FormValidator_new (twoForms (js "(")))) = [].
Proof.
  split; [vm_compute; reflexivity |]. split; [vm_compute; reflexivity |].
  split.
  - eexists. vm_compute. reflexivity.
  - repeat split; vm_compute; reflexivity.
Qed.

(** First: the code field is valid, its success element on display, and
    [setFieldError] is run on it; both indicators are then on display.
    Second: on the page with one element for both indicators, a failed
    validation leaves that element, the success indicator too, on
    display. *)
Lemma field_state_counterexample :
  (fd_errorElement (getField ready 1) = 17%nat /\
   fd_successElement (getField ready 1) = 18%nat /\
   shown (snd (validateField 1 (step (Input 6 (js "abc")) ready))) 18 /\
   shown (setFieldError 1 (js "Code already used")
            (snd (validateField 1 (step (Input 6 (js "abc")) ready)))) 17 /\
   shown (setFieldError 1 (js "Code already used")
            (snd (validateField 1 (step (Input 6 (js "abc")) ready)))) 18) /\
  (fd_errorElement (getField (final (FormValidator_new sharedIndicator)) 0)
   = 5%nat /\
   fd_successElement (getField (final (FormValidator_new sharedIndicator)) 0)
   = 5%nat /\
   fst (validateField 0 (final (FormValidator_new sharedIndicator))) = false /\
   shown (snd (validateField 0 (final (FormValidator_new sharedIndicator)))) 5).
Proof. repeat split; vm_compute; reflexivity. Qed.

(** The company field of the contact form has no activating attribute. *)
Lemma no_rules_witness :
  getValidationRules ready 14 = Some [] /\
  forall σ fd,
    getValidationRules ready 14 = Some (fd_rules (getField σ fd)) ->
    fst (validateField fd σ) = true /\
    validShown (snd (validateField fd σ)) fd.
Proof.
  apply (no_rules_always_valid ready 14%nat).
  - vm_compute. reflexivity.
  - vm_compute. discriminate.
  - vm_compute. reflexivity.
  - vm_compute. reflexivity.
  - vm_compute. discriminate.
Defined.

(** The registration form submitted as the page loads: the required
    address is missing, so the focus goes to it, the button is untouched
    and no timer is started. *)
Example submit_blocked :
  activeElement (step (Submit 2) ready) = Some 4%nat /\
  timers (step (Submit 2) ready) = [] /\
  el_textContent (getNode (step (Submit 2) ready) 9) = js "Register" /\
  el_disabled (getNode (step (Submit 2) ready) 9) = false /\
  el_textContent (getNode (step (Submit 2) ready) 15)
  = js "This field is required".
Proof. repeat split; vm_compute; reflexivity. Qed.

(** A form whose one control is required, empty and disabled.  The submit
    event finds the field invalid and starts no submission; [focus()] is
    called on the control, which no host can focus, and the focus stays
    where it was, on no field at all. *)
Lemma submit_gate_counterexample :
  el_disabled (getNode lockedReady 4) = true /\
  map (fun kv => fd_element (getField lockedReady kv.2))
    (fm_fields (getForm lockedReady 0))
  = [4%nat] /\
  activeElement lockedReady = None /\
  fd_isValid (getField (step (Submit 2) lockedReady) 0) = false /\
  timers (step (Submit 2) lockedReady) = [] /\
  activeElement (step (Submit 2) lockedReady) = None.
Proof. repeat split; vm_compute; reflexivity. Qed.

(** A required field with [minlength="8"] holding ["short"]. *)
Example minlength_fails :
  passes (Required (js "Password is required")) (js "short") = true /\
  passes (MinLength (parseInt (js "8")) (js "Minimum 8 characters required"))
    (js "short") = false.
Proof. split; vm_compute; reflexivity. Qed.

End Scenarios.

(** * Further properties of the validator *)

(** ** The e-mail format and the length rule *)

Section MoreRuleFacts.

Context `{Engine : RegExpEngine} `{Host : Browser}.

Implicit Types (σ : State) (n : node) (fd fm : nat).

Lemma re_star_class p s :
  re_matches (re_star (re_class p)) s <-> Forall (fun c => p c = true) s.
Proof.
  split.
  - induction s as [|c s IH]; [constructor |].
    intros (s1 & s2 & -> & H1 & H2)%matches_star_cons.
    apply matches_class_iff in H1 as (d & [= -> Hs1] & Hd).
    symmetry in Hs1. subst s1. simpl in IH. constructor; auto.
  - induction 1 as [|c s Hc _ IH]; [constructor |].
    apply (m_star_cons _ [c] s); [by constructor | done].
Qed.

Lemma re_plus_class p s :
  re_matches (re_plus (re_class p)) s <->
  s ≠ [] /\ Forall (fun c => p c = true) s.
Proof.
  unfold re_plus. rewrite matches_seq_iff. split.
  - intros (s1 & s2 & -> & H1 & H2).
    apply matches_class_iff in H1 as (c & -> & Hc).
    apply re_star_class in H2. split; [done | by constructor].
  - intros [Hne Hall]. destruct Hall as [|c s Hc Hall]; [done |].
    exists [c], s. split; [done |]. split; [by constructor |].
    by apply re_star_class.
Qed.

Lemma not_space_at_emailChar c : not_space_at c = true <-> emailChar c.
Proof.
  unfold not_space_at, emailChar, chr. rewrite negb_true_iff, orb_false_iff.
  by rewrite N.eqb_neq.
Qed.

Lemma Forall_emailChar s :
  Forall (fun c => not_space_at c = true) s <-> Forall emailChar s.
Proof. apply Forall_iff. intros c. apply not_space_at_emailChar. Qed.

Lemma emailRegex_shape s : re_test emailRegex s = true <-> emailShape s.
Proof.
  rewrite re_test_spec. unfold emailRegex, emailShape.
  rewrite matches_seq_iff. split.
  - intros (a & r1 & -> & Ha & H1).
    apply matches_seq_iff in H1 as (at_ & r2 & -> & Hat & H2).
    apply matches_seq_iff in H2 as (b & r3 & -> & Hb & H3).
    apply matches_seq_iff in H3 as (dot & c & -> & Hdot & Hc).
    apply matches_class_iff in Hat as (x & -> & ->%N.eqb_eq).
    apply matches_class_iff in Hdot as (y & -> & ->%N.eqb_eq).
    apply re_plus_class in Ha as [Ha1 Ha2], Hb as [Hb1 Hb2], Hc as [Hc1 Hc2].
    exists a, b, c. rewrite <- !Forall_emailChar. by repeat split.
  - intros (a & b & c & -> & Ha & Hb & Hc & Ha' & Hb' & Hc').
    rewrite <- Forall_emailChar in Ha', Hb', Hc'.
    exists a, (64 :: b ++ 46 :: c). split; [done |].
    split; [by apply re_plus_class |].
    apply matches_seq_iff. exists [64], (b ++ 46 :: c). split; [done |].
    split; [by constructor |].
    apply matches_seq_iff. exists b, (46 :: c). split; [done |].
    split; [by apply re_plus_class |].
    apply matches_seq_iff. exists [46], c. split; [done |].
    split; [by constructor | by apply re_plus_class].
Qed.

Lemma passes_email msg value :
  passes (Email msg) value = true <-> value = [] \/ emailShape value.
Proof.
  unfold passes; simpl.
  rewrite orb_true_iff, negb_true_iff, truthy_false_iff, emailRegex_shape.
  tauto.
Qed.

Lemma passes_minlength (bound : option Z) msg value :
  passes (MinLength bound msg) value = true <->
  value = [] \/ exists k, bound = Some k /\ (k <= Z.of_nat (length value))%Z.
Proof.
  unfold passes; simpl.
  rewrite orb_true_iff, negb_true_iff, truthy_false_iff.
  destruct bound as [k|].
  - rewrite Z.leb_le. naive_solver.
  - naive_solver.
Qed.

(** [parseInt] on a decimal numeral. *)
Lemma is_digit_cases c :
  is_digit c = true ->
  c = 48 \/ c = 49 \/ c = 50 \/ c = 51 \/ c = 52 \/ c = 53 \/ c = 54
  \/ c = 55 \/ c = 56 \/ c = 57.
Proof.
  unfold is_digit. rewrite andb_true_iff, !N.leb_le. lia.
Qed.

Lemma digitValue_digit c :
  is_digit c = true -> digitValue 10 c = Some (c - 48).
Proof.
  intros H. destruct (is_digit_cases c H) as [-> | H'];
    [reflexivity |]. repeat (destruct H' as [-> | H']; [reflexivity |]).
  by subst.
Qed.

Lemma parseDigits_digits (acc : N) s :
  Forall (fun c => is_digit c = true) s ->
  parseDigits 10 (Some acc) s
  = Some (foldl (fun (k : N) c => k * 10 + (c - 48)) acc s).
Proof.
  revert acc. induction s as [|c s IH]; intros acc Hs; [done |].
  apply Forall_cons in Hs as [Hc Hs]. cbn [parseDigits foldl].
  rewrite (digitValue_digit c Hc). by rewrite IH.
Qed.

(** One numeral whose first characters are known: the sign and the radix
    are read off, the digits are left to [parseDigits]. *)
Local Ltac parseInt_step Hd :=
  unfold parseInt; cbn [trimStart]; change (is_space _) with false;
  cbv beta iota zeta; rewrite Hd; reflexivity.

Lemma parseInt_digits c s :
  is_digit c = true -> Forall (fun c => is_digit c = true) s ->
  parseInt (c :: s) = Some (Z.of_N (decimal (c :: s))).
Proof.
  intros Hc Hs.
  assert (parseDigits 10 None (c :: s) = Some (decimal (c :: s))) as Hd.
  { cbn [parseDigits]. rewrite (digitValue_digit c Hc).
    by rewrite parseDigits_digits. }
  revert Hd. generalize (decimal (c :: s)). intros v Hd.
  destruct (is_digit_cases c Hc) as [-> | H'].
  - destruct s as [|d s]; [by injection Hd as <- |].
    apply Forall_cons in Hs as [Hdg Hs].
    destruct (is_digit_cases d Hdg) as [-> | H''];
      [parseInt_step Hd |].
    repeat (destruct H'' as [-> | H'']; [parseInt_step Hd |]).
    subst. parseInt_step Hd.
  - repeat (destruct H' as [-> | H']; [parseInt_step Hd |]).
    subst. parseInt_step Hd.
Qed.

(** The name in the required message is never empty. *)
Lemma orElse_nonempty a b : b ≠ [] -> orElse a b ≠ [].
Proof. unfold orElse. by destruct a. Qed.

Lemma orDefault_nonempty a b : b ≠ [] -> orDefault a b ≠ [].
Proof. destruct a as [a|]; simpl; [apply orElse_nonempty | done]. Qed.

End MoreRuleFacts.

(** ** Validating twice *)

Section IdempotenceFacts.

Context `{Engine : RegExpEngine} `{Host : Browser}.

Implicit Types (σ : State) (n m : node) (fd fm : nat).

Lemma classList_remove_noop cs l :
  (forall c, c ∈ l -> c ∉ cs) -> classList_remove cs l = l.
Proof.
  unfold classList_remove. induction l as [|c l IH]; intros H; [done |].
  rewrite filter_cons_True by (apply H; left).
  f_equal. apply IH. intros d Hd. apply H. by right.
Qed.

Lemma classList_remove_app cs l1 l2 :
  classList_remove cs (l1 ++ l2)
  = classList_remove cs l1 ++ classList_remove cs l2.
Proof. apply filter_app. Qed.

Lemma classList_remove_idem cs l :
  classList_remove cs (classList_remove cs l) = classList_remove cs l.
Proof.
  apply classList_remove_noop. intros c Hc.
  by apply classList_remove_spec in Hc as [_ ?].
Qed.

(** The class list [setFieldError] leaves after [clearFieldState]: the other
    classes, then the error class. *)
Lemma classes_after_error l :
  classList_remove [form__input__success]
    (classList_add form__input__error
       (classList_remove [form__input__error; form__input__success] l))
  = classList_remove [form__input__error; form__input__success] l
    ++ [form__input__error].
Proof.
  set (l0 := classList_remove _ l).
  assert (form__input__error ∉ l0) as He
    by (unfold l0; rewrite classList_remove_spec; set_solver).
  assert (form__input__success ∉ l0) as Hs
    by (unfold l0; rewrite classList_remove_spec; set_solver).
  unfold classList_add. rewrite decide_False by done.
  apply classList_remove_noop. intros c Hc.
  pose proof error_success_distinct. set_solver.
Qed.

Lemma classes_after_success l :
  classList_remove [form__input__error]
    (classList_add form__input__success
       (classList_remove [form__input__error; form__input__success] l))
  = classList_remove [form__input__error; form__input__success] l
    ++ [form__input__success].
Proof.
  set (l0 := classList_remove _ l).
  assert (form__input__error ∉ l0) as He
    by (unfold l0; rewrite classList_remove_spec; set_solver).
  assert (form__input__success ∉ l0) as Hs
    by (unfold l0; rewrite classList_remove_spec; set_solver).
  unfold classList_add. rewrite decide_False by done.
  apply classList_remove_noop. intros c Hc.
  pose proof error_success_distinct. set_solver.
Qed.

Lemma classes_cleared_after l c :
  c = form__input__error \/ c = form__input__success ->
  classList_remove [form__input__error; form__input__success]
    (classList_remove [form__input__error; form__input__success] l ++ [c])
  = classList_remove [form__input__error; form__input__success] l.
Proof.
  intros Hc. rewrite classList_remove_app, classList_remove_idem.
  unfold classList_remove at 2. rewrite filter_cons_False, filter_nil.
  - apply app_nil_r.
  - set_solver.
Qed.

Lemma writeNodes_app ws1 ws2 els :
  writeNodes (ws1 ++ ws2) els = writeNodes ws2 (writeNodes ws1 els).
Proof. apply foldl_app. Qed.

Lemma writesAt_none ws i e :
  existsb (fun w => bool_decide (w.1 = i)) ws = false -> writesAt ws i e = e.
Proof.
  revert e. induction ws as [|[n f] ws IH]; intros e; simpl; [done |].
  intros [Hn Hws]%orb_false_iff. apply bool_decide_eq_false in Hn.
  simpl in Hn. rewrite decide_False by done. by apply IH.
Qed.

Lemma writeNodes_lookup ws els i :
  writeNodes ws els !! i
  = if existsb (fun w => bool_decide (w.1 = i)) ws
    then Some (writesAt ws i (els !!! i))
    else els !! i.
Proof.
  revert els. induction ws as [|[n f] ws IH]; intros els; simpl; [done |].
  rewrite IH. case_bool_decide as Hn; simpl in Hn; subst; simpl.
  - rewrite decide_True by done. rewrite lookup_total_insert_eq.
    destruct (existsb _ ws) eqn:E; [done |].
    by rewrite lookup_insert_eq, writesAt_none.
  - rewrite decide_False by done. rewrite lookup_total_insert_ne by done.
    destruct (existsb _ ws); [done |]. by rewrite lookup_insert_ne.
Qed.

(** Writing twice what is the same the second time is writing once. *)
Lemma writeNodes_idem ws els :
  (forall i e, writesAt ws i (writesAt ws i e) = writesAt ws i e) ->
  writeNodes ws (writeNodes ws els) = writeNodes ws els.
Proof.
  intros Hidem. apply map_eq. intros i.
  rewrite !writeNodes_lookup.
  destruct (existsb _ ws) eqn:E; [| done].
  rewrite (lookup_total_alt (writeNodes ws els)), writeNodes_lookup, E.
  simpl. by rewrite Hidem.
Qed.

Lemma updNode_first n f σ :
  updNode n f σ = set_nodes (writeNodes [(n, f)] (nodes σ)) σ.
Proof. reflexivity. Qed.

Lemma updNode_writes n f ws σ :
  updNode n f (set_nodes (writeNodes ws (nodes σ)) σ)
  = set_nodes (writeNodes (ws ++ [(n, f)]) (nodes σ)) σ.
Proof. unfold updNode, getNode, set_nodes; simpl. by rewrite writeNodes_app. Qed.

Lemma updField_writes fd v ws σ :
  updField fd (set_isValid v) (set_nodes (writeNodes ws (nodes σ)) σ)
  = writeField fd v ws σ.
Proof. reflexivity. Qed.

Lemma clearFieldState_writes fd σ :
  clearFieldState fd σ
  = writeField fd false (clearWrites (getField σ fd)) σ.
Proof.
  unfold clearFieldState. cbv zeta.
  by rewrite (updNode_first _ _ σ), !updNode_writes, updField_writes.
Qed.

Lemma setFieldError_writes fd msg σ :
  setFieldError fd msg σ
  = writeField fd false (errorWrites (getField σ fd) msg) σ.
Proof.
  unfold setFieldError. cbv zeta.
  by rewrite (updNode_first _ _ σ), !updNode_writes, updField_writes.
Qed.

Lemma setFieldSuccess_writes fd σ :
  setFieldSuccess fd σ
  = writeField fd true (successWrites (getField σ fd)) σ.
Proof.
  unfold setFieldSuccess. cbv zeta.
  by rewrite (updNode_first _ _ σ), !updNode_writes, updField_writes.
Qed.

Lemma getField_writeField fd v ws σ :
  getField (writeField fd v ws σ) fd = set_isValid v (getField σ fd).
Proof. unfold getField, writeField; simpl. apply lookup_total_insert_eq. Qed.

Lemma writeField_writeField fd v1 v2 ws1 ws2 σ :
  writeField fd v2 ws2 (writeField fd v1 ws1 σ)
  = writeField fd v2 (ws1 ++ ws2) σ.
Proof.
  unfold writeField at 1. rewrite getField_writeField.
  unfold writeField, set_fieldObjs, set_nodes; simpl.
  rewrite insert_insert_eq, writeNodes_app. reflexivity.
Qed.

Lemma writeField_idem fd v ws σ :
  (forall i e, writesAt ws i (writesAt ws i e) = writesAt ws i e) ->
  writeField fd v (ws ++ ws) σ = writeField fd v ws σ.
Proof.
  intros Hidem. unfold writeField.
  by rewrite writeNodes_app, writeNodes_idem.
Qed.

Lemma writesAt_cons n f ws i e :
  writesAt ((n, f) :: ws) i e
  = writesAt ws i (if decide (n = i) then f e else e).
Proof. reflexivity. Qed.

Lemma writesAt_nil i e : writesAt [] i e = e.
Proof. reflexivity. Qed.

Ltac writes_step :=
  rewrite writesAt_cons;
  first [rewrite decide_True by done | rewrite decide_False by done].

Ltac elem_simpl :=
  cbn [set_classList set_display set_textContent
       el_tagName el_attributes el_type el_name el_id el_placeholder
       el_labels el_defaultValue el_value el_classList el_display
       el_textContent el_disabled el_parentNode el_childNodes].

Lemma error_pass_idem (f : FieldData) msg i e :
  writesAt (clearWrites f ++ errorWrites f msg) i
    (writesAt (clearWrites f ++ errorWrites f msg) i e)
  = writesAt (clearWrites f ++ errorWrites f msg) i e.
Proof.
  destruct f as [elem v rules err succ].
  unfold clearWrites, errorWrites.
  cbn [app fd_element fd_errorElement fd_successElement].
  destruct (decide (elem = i)), (decide (err = i)), (decide (succ = i)).
  all: repeat writes_step; rewrite !writesAt_nil; try reflexivity.
  all: elem_simpl; f_equal.
  all: by rewrite !classes_after_error, classes_cleared_after by auto.
Qed.

Lemma success_pass_idem (f : FieldData) i e :
  writesAt (clearWrites f ++ successWrites f) i
    (writesAt (clearWrites f ++ successWrites f) i e)
  = writesAt (clearWrites f ++ successWrites f) i e.
Proof.
  destruct f as [elem v rules err succ].
  unfold clearWrites, successWrites.
  cbn [app fd_element fd_errorElement fd_successElement].
  destruct (decide (elem = i)), (decide (err = i)), (decide (succ = i)).
  all: repeat writes_step; rewrite !writesAt_nil; try reflexivity.
  all: elem_simpl; f_equal.
  all: by rewrite !classes_after_success, classes_cleared_after by auto.
Qed.

Lemma setFieldError_idem fd msg σ :
  setFieldError fd msg
    (clearFieldState fd (setFieldError fd msg (clearFieldState fd σ)))
  = setFieldError fd msg (clearFieldState fd σ).
Proof.
  rewrite !setFieldError_writes, !clearFieldState_writes.
  rewrite !getField_writeField, !writeField_writeField.
  change (clearWrites (set_isValid false ?f)) with (clearWrites f).
  change (errorWrites (set_isValid false ?f) msg) with (errorWrites f msg).
  rewrite (app_assoc _ _ (clearWrites _ ++ _)).
  apply writeField_idem. apply error_pass_idem.
Qed.

Lemma setFieldSuccess_idem fd σ :
  setFieldSuccess fd
    (clearFieldState fd (setFieldSuccess fd (clearFieldState fd σ)))
  = setFieldSuccess fd (clearFieldState fd σ).
Proof.
  rewrite !setFieldSuccess_writes, !clearFieldState_writes.
  rewrite !getField_writeField, !writeField_writeField.
  change (clearWrites (set_isValid ?v ?f)) with (clearWrites f).
  change (successWrites (set_isValid ?v ?f)) with (successWrites f).
  rewrite (app_assoc _ _ (clearWrites _ ++ _)).
  apply writeField_idem. apply success_pass_idem.
Qed.

Lemma validateField_find fd σ :
  validateField fd σ
  = match List.find (fun rule => negb (passes rule (currentValue σ fd)))
            (fd_rules (getField σ fd)) with
    | Some rule =>
        (false, setFieldError fd (rule_message rule) (clearFieldState fd σ))
    | None => (true, setFieldSuccess fd (clearFieldState fd σ))
    end.
Proof. unfold validateField. by rewrite validateField_rules_find. Qed.

Lemma fieldFrame_rules σ σ' fd :
  fieldFrame σ σ' -> fd_rules (getField σ' fd) = fd_rules (getField σ fd).
Proof. intros (_ & Hf & _). by destruct (Hf fd) as (_ & -> & _). Qed.

(** X1 ([validateField], with [clearFieldState], [setFieldError] and
    [setFieldSuccess]): validating a field a second time, with nothing done
    in between, returns the same verdict and leaves the page exactly as the
    first validation left it. *)
Theorem validateField_idempotent fd σ :
  validateField fd (snd (validateField fd σ)) = validateField fd σ.
Proof.
  pose proof (validateField_frame fd σ) as Hframe.
  rewrite (validateField_find fd (snd _)).
  rewrite (fieldFrame_currentValue _ _ _ Hframe), (fieldFrame_rules _ _ _ Hframe).
  rewrite (validateField_find fd σ).
  destruct (List.find _ _) as [rule|]; simpl.
  - by rewrite setFieldError_idem.
  - by rewrite setFieldSuccess_idem.
Qed.

End IdempotenceFacts.

(** ** Rules and fields: further properties *)

Section FieldProperties.

Context `{Engine : RegExpEngine} `{Host : Browser}.

Implicit Types (σ : State) (n m input : node) (fd fm : nat).

(** X2 ([runValidationRule], case [email]): the e-mail rule accepts the
    empty string and the strings made of a local part, an [@], a domain
    and, after a dot of the domain, a last part, where the three parts are
    not empty and hold neither white space nor [@]; it accepts no other
    string. *)
Theorem email_rule_format msg value :
  result_isValid (runValidationRule (Email msg) value) = true
  <-> value = [] \/ emailShape value.
Proof. exact (passes_email msg value). Qed.

(** X3 ([getValidationRules], the [minlength] block, with
    [runValidationRule], case [minlength]): a control whose [minlength]
    attribute is [a] gets one length rule, and no other: its bound is
    [parseInt a] and its message quotes [a] as it is written.  That rule
    accepts the empty string, and a string that is not empty exactly when
    [parseInt a] is a number not above the string's length.  So an attribute
    that is a decimal numeral asks for as many characters as it denotes, and
    an attribute [parseInt] reads no number from rejects every string but
    the empty one. *)
Theorem minlength_rule_bound σ input a rules :
  getAttribute (getNode σ input) "minlength" = Some a ->
  getValidationRules σ input = Some rules ->
  let rule :=
    MinLength (parseInt a) (js "Minimum " ++ a ++ js " characters required") in
  rule ∈ rules /\
  (forall bound msg, MinLength bound msg ∈ rules -> MinLength bound msg = rule) /\
  (forall value,
      result_isValid (runValidationRule rule value) = true
      <-> value = [] \/
          exists k, parseInt a = Some k /\ (k <= Z.of_nat (length value))%Z) /\
  (numeral a ->
   parseInt a = Some (Z.of_N (decimal a)) /\
   forall value,
     value ≠ [] ->
     result_isValid (runValidationRule rule value)
     = bool_decide (decimal a <= N.of_nat (length value))) /\
  (parseInt a = None ->
   forall value,
     value ≠ [] -> result_isValid (runValidationRule rule value) = false).
Proof.
  intros Ha Hrules rule.
  assert (rule ∈ rules /\
          forall bound msg,
            MinLength bound msg ∈ rules -> MinLength bound msg = rule)
    as [Hin Hone].
  { assert (hasAttribute (getNode σ input) "minlength" = true) as Hhas
      by (unfold hasAttribute; unfold getAttribute in Ha; by rewrite Ha).
    assert (attr (getNode σ input) "minlength" = a) as Hattr
      by (unfold attr; by rewrite Ha).
    unfold getValidationRules in Hrules.
    rewrite Hhas, Hattr in Hrules. fold rule in Hrules.
    destruct (hasAttribute _ "required"), (bool_decide (el_type _ = _)),
      (hasAttribute _ "pattern"), (bool_decide (orElse _ _ = _));
      cbn [app] in Hrules;
      try (destruct (RegExp_new _); [| discriminate Hrules]);
      injection Hrules as <-;
      (split;
       [ set_solver
       | intros bound msg Hm; set_unfold in Hm; naive_solver ]). }
  assert (forall value,
             result_isValid (runValidationRule rule value) = true
             <-> value = [] \/
                 exists k, parseInt a = Some k /\
                           (k <= Z.of_nat (length value))%Z) as Hpass
    by (intros value;
        exact (passes_minlength (parseInt a)
                 (js "Minimum " ++ a ++ js " characters required") value)).
  split; [done |]. split; [done |]. split; [done |]. split.
  - intros [Hne Hdig]. destruct a as [|c a]; [done |].
    apply Forall_cons in Hdig as [Hc Hdig].
    pose proof (parseInt_digits c a Hc Hdig) as Hp.
    split; [done |]. intros value Hv.
    apply eq_true_iff_eq. rewrite Hpass, bool_decide_eq_true, Hp.
    split.
    + intros [? | (k & [= <-] & Hk)]; [done | lia].
    + intros Hk. right. eexists. split; [done | lia].
  - intros Hnan value Hv.
    apply not_true_is_false. rewrite Hpass, Hnan.
    intros [? | (k & ? & _)]; [done | discriminate].
Qed.

(** X4 ([validateField], [runValidationRule]): a field without a required
    rule is valid while its control is blank, whatever its other rules are:
    the e-mail, length, pattern and phone rules all let the empty string
    pass, and the value is trimmed first. *)
Theorem optional_blank_valid fd σ :
  Forall (fun rule => rule_rank rule ≠ 0%nat) (fd_rules (getField σ fd)) ->
  blank (el_value (getNode σ (fd_element (getField σ fd)))) ->
  fst (validateField fd σ) = true /\
  validShown (snd (validateField fd σ)) fd.
Proof.
  intros Hopt Hblank.
  assert (fst (validateField fd σ) = true) as Hok.
  { rewrite validateField_verdict. unfold fieldPasses, currentValue.
    rewrite (trim_blank _ Hblank). apply forallb_forall.
    intros rule Hin%list_elem_of_In. rewrite passes_empty.
    rewrite Forall_forall in Hopt. apply Hopt in Hin.
    by destruct rule. }
  split; [done |].
  destruct (validateField_outcome fd σ) as [[_ ?]|[? _]]; [done | congruence].
Qed.

(** X5 ([getRequiredMessage]): the message of a required rule is a field
    name followed by [" is required"]; the name is never empty, and it is
    the [data-field-name] attribute whenever the control has one that is
    not empty, whatever its label and placeholder. *)
Theorem required_message_names_field σ input :
  exists name,
    getRequiredMessage σ input = name ++ js " is required" /\
    name ≠ [] /\
    (forall v, getAttribute (getNode σ input) "data-field-name" = Some v ->
               v ≠ [] -> name = v).
Proof.
  unfold getRequiredMessage. eexists. split; [reflexivity |]. split.
  - apply orDefault_nonempty, orDefault_nonempty, orElse_nonempty.
    by vm_compute.
  - intros v -> Hv. unfold orDefault. by destruct v.
Qed.

End FieldProperties.

(** ** Setting up: further properties *)

Section SetupProperties.

Context `{Engine : RegExpEngine} `{Host : Browser}.

Implicit Types (σ : State) (n m input form : node) (fd fm : nat).

(** Queries read the elements only. *)
Lemma descendants_nodes k σ σ' n :
  nodes σ = nodes σ' -> descendants k σ n = descendants k σ' n.
Proof.
  intros Hn. revert n. induction k as [|k IH]; intros n; simpl; [done |].
  unfold getNode. rewrite Hn. apply flat_map_ext. intros c. by rewrite IH.
Qed.

Lemma querySelectorAll_nodes σ σ' root sel :
  nodes σ = nodes σ' ->
  querySelectorAll σ root sel = querySelectorAll σ' root sel.
Proof.
  intros Hn. unfold querySelectorAll, getNode.
  by rewrite Hn, (descendants_nodes _ σ σ').
Qed.

Lemma submitWired_allocated σ : submitWired σ -> formsAllocated σ.
Proof. intros H fm Hfm. by apply H. Qed.

Lemma initializeForm_wired form σ σ' :
  submitWired σ ->
  initializeForm form σ = Normal tt σ' ->
  submitWired σ'.
Proof.
  intros Hw. unfold initializeForm.
  pose proof (newFormData_frame form σ) as Hnew.
  assert (formObjs (newFormData form σ).2 !! (newFormData form σ).1
          = Some (mkForm form [] false)) as Hfm
    by (unfold newFormData; simpl; apply lookup_insert_eq).
  destruct (newFormData form σ) as [fm σa]; simpl in Hnew, Hfm.
  pose proof (forEach_initializeField_frame fm
                (querySelectorAll σa form sel_inputs) σa) as Hin.
  destruct (forEach _ _ σa) as [[] σb | e σb]; [| discriminate].
  simpl in Hin. intros [= <-].
  destruct Hin as (Hf & Ho & L & HL & _), Hnew as (Hfa & Hoa & La & HLa & _).
  intros k. cbn -[js]. rewrite Hf, Hfa, HL, HLa.
  rewrite elem_of_app, list_elem_of_singleton. intros [Hk | ->].
  - destruct (Hw k Hk) as [[f Hkf] Hl].
    destruct (Hoa k f Hkf) as (fa & Hka & Hea).
    destruct (Ho k fa Hka) as (fb & Hkb & Heb).
    split; [eauto |]. unfold getForm in *. cbn -[js].
    rewrite lookup_total_alt, Hkb. rewrite lookup_total_alt, Hkf in Hl.
    simpl in *. rewrite Heb, Hea. set_solver.
  - destruct (Ho fm _ Hfm) as (f' & Hfm' & He').
    split; [eauto |]. unfold getForm. cbn -[js].
    rewrite lookup_total_alt, Hfm'. simpl in *. rewrite He'. set_solver.
Qed.

Lemma forEach_initializeForm_wired F σ σ' :
  submitWired σ ->
  forEach initializeForm F σ = Normal tt σ' ->
  submitWired σ'.
Proof.
  revert σ. induction F as [|form F IH]; intros σ Hw; simpl.
  - by intros [= <-].
  - destruct (initializeForm form σ) as [[] σ1 | e σ1] eqn:E; [| discriminate].
    apply IH. by eapply initializeForm_wired.
Qed.

(** X6 ([setupFormValidation], [initializeForm]): when the constructor
    returns normally, [this.forms] holds one object for each form of the
    document that carries [data-validate], in document order, and each of
    them has its submit listener on its form. *)
Theorem setup_registers_forms σ σ' :
  FormValidator_new σ = Normal tt σ' ->
  registeredForms σ' = querySelectorAll σ (document σ) sel_forms /\
  submitWired σ'.
Proof.
  unfold FormValidator_new, setupFormValidation. intros Hnew.
  assert (submitWired (set_forms [] σ)) as Hw
    by (intros fm Hfm; simpl in Hfm; by apply elem_of_nil in Hfm).
  split.
  - destruct (forEach_initializeForm_normal _ _ _
                (submitWired_allocated _ Hw) Hnew) as [_ ->].
    by apply (querySelectorAll_nodes (set_forms [] σ) σ).
  - by eapply forEach_initializeForm_wired.
Qed.

End SetupProperties.

(** ** Indicator elements *)

Section IndicatorProperties.

Context `{Engine : RegExpEngine} `{Host : Browser}.

Implicit Types (σ : State) (n m input parent : node) (fd fm : nat).

Lemma createErrorElement_indicator input σ :
  createErrorElement input σ
  = createIndicator form__error
      (set_classList [form__error] (newElement "div")) input σ.
Proof. reflexivity. Qed.

Lemma createSuccessElement_indicator input σ :
  createSuccessElement input σ
  = createIndicator form__success
      (set_textContent (10003 :: js " Looks good")
         (set_classList [form__success] (newElement "div"))) input σ.
Proof. reflexivity. Qed.

Lemma querySelector_matches σ root sel n :
  querySelector σ root sel = Some n -> sel_matches sel (getNode σ n) = true.
Proof.
  unfold querySelector, querySelectorAll. intros H%head_Some_elem_of.
  by apply list_elem_of_In, filter_In in H as [_ ?].
Qed.

Lemma querySelector_child σ root sel c :
  c ∈ el_childNodes (getNode σ root) ->
  sel_matches sel (getNode σ c) = true ->
  nodes σ ≠ ∅ ->
  is_Some (querySelector σ root sel).
Proof.
  intros Hc Hsel Hne. unfold querySelector, querySelectorAll.
  destruct (size (nodes σ)) as [|k] eqn:Hk;
    [by apply map_size_empty_iff in Hk |].
  assert (c ∈ List.filter (fun n => sel_matches sel (getNode σ n))
                (descendants (S k) σ root)) as Hin.
  { apply list_elem_of_In, filter_In. split; [| done].
    simpl. apply in_flat_map. exists c. split; [by apply list_elem_of_In |].
    by left. }
  destruct (List.filter _ _); [by apply elem_of_nil in Hin | by eexists].
Qed.

(** *** Descendants and chains of children

    [descendants] stops after as many levels as the document has elements.
    That loses nothing, whatever the shape of the document: an element that
    a chain of children reaches is reached by a chain that repeats no
    element, and such a chain is shorter than the number of elements. *)

Lemma walk_app σ r a y b :
  walk σ r (a ++ y :: b) <-> walk σ r (a ++ [y]) /\ walk σ y b.
Proof.
  revert r. induction a as [|z a IH]; intros r; simpl; [tauto |].
  rewrite IH. tauto.
Qed.

Lemma descendants_walk f σ r x :
  x ∈ descendants f σ r
  <-> exists l, walk σ r (l ++ [x]) /\ (length l < f)%nat.
Proof.
  revert r x. induction f as [|f IH]; intros r x.
  - simpl. split; [by intros ?%elem_of_nil | intros (l & _ & ?); lia].
  - cbn [descendants]. rewrite list_elem_of_In, in_flat_map. split.
    + intros (c & Hc%list_elem_of_In & [<- | Hx]).
      * exists []. simpl. split; [done | lia].
      * apply list_elem_of_In, IH in Hx as (l & Hw & Hl).
        exists (c :: l). simpl. split; [done | lia].
    + intros (l & Hw & Hl). destruct l as [|c l]; simpl in Hw, Hl.
      * destruct Hw as [Hc _]. exists x.
        split; [by apply list_elem_of_In | by left].
      * destruct Hw as [Hc Hw]. exists c.
        split; [by apply list_elem_of_In |]. right.
        apply list_elem_of_In, IH. exists l. split; [done | lia].
Qed.

Lemma child_dom σ y z :
  z ∈ el_childNodes (getNode σ y) -> y ∈ dom (nodes σ).
Proof.
  unfold getNode. rewrite lookup_total_alt.
  destruct (nodes σ !! y) as [e|] eqn:E; simpl.
  - intros _. apply elem_of_dom. by exists e.
  - by intros ?%elem_of_nil.
Qed.

Lemma walk_parents σ r l x :
  walk σ r (l ++ [x]) -> forall y, y ∈ r :: l -> y ∈ dom (nodes σ).
Proof.
  revert r. induction l as [|z l IH]; intros r; simpl.
  - intros [Hx _] y ->%list_elem_of_singleton. by apply (child_dom σ r x).
  - intros [Hz Hw] y [-> | Hy]%elem_of_cons.
    + by apply (child_dom σ r z).
    + by apply (IH z).
Qed.

Lemma walk_short σ r l x :
  walk σ r (l ++ [x]) ->
  exists l', walk σ r (l' ++ [x]) /\ NoDup (r :: l').
Proof.
  revert r. induction l as [|y l IH]; intros r Hw.
  - exists []. split; [done | apply NoDup_singleton].
  - simpl in Hw. destruct Hw as [Hy Hw].
    destruct (IH y Hw) as (l2 & Hw2 & Hnd).
    destruct (decide (r ∈ y :: l2)) as [Hin | Hnin].
    + apply list_elem_of_split in Hin as (a & b & Hab).
      exists b. rewrite Hab in Hnd. apply NoDup_app in Hnd as (_ & _ & Hnd).
      split; [| done]. destruct a as [|y' a]; simplify_eq/=; [done |].
      rewrite <- app_assoc in Hw2. simpl in Hw2.
      by apply walk_app in Hw2 as [_ Hw2].
    + exists (y :: l2). split; [done | by apply NoDup_cons].
Qed.

Lemma walk_descendants σ r l x :
  walk σ r (l ++ [x]) -> x ∈ descendants (size (nodes σ)) σ r.
Proof.
  intros Hw. destruct (walk_short _ _ _ _ Hw) as (l' & Hw' & Hnd).
  apply descendants_walk. exists l'. split; [done |].
  pose proof (walk_parents _ _ _ _ Hw') as Hdom.
  assert (length (r :: l') <= size (nodes σ))%nat as Hlen.
  { rewrite <- (size_dom (D := gset node)).
    rewrite <- (size_list_to_set (C := gset node)) by done.
    apply subseteq_size. intros y Hy%elem_of_list_to_set. by apply Hdom. }
  simpl in Hlen. lia.
Qed.

(** A chain from an element whose one child, if any, is itself ends
    there. *)
Lemma walk_stuck σ n l x :
  (forall z, z ∈ el_childNodes (getNode σ n) -> z = n) ->
  walk σ n (l ++ [x]) -> x = n.
Proof.
  intros Hn. induction l as [|y l IH]; simpl.
  - intros [Hx _]. by apply Hn.
  - intros [Hy Hw]. apply Hn in Hy as ->. by apply IH.
Qed.

(** The chains of a page with one more leaf [n], as far as they end
    elsewhere, are chains of the page without it. *)
Lemma walk_old σ σ1 n r l x :
  (forall y z, y ≠ n -> z ≠ n ->
               z ∈ el_childNodes (getNode σ1 y) ->
               z ∈ el_childNodes (getNode σ y)) ->
  (forall z, z ∈ el_childNodes (getNode σ1 n) -> z = n) ->
  r ≠ n -> x ≠ n -> walk σ1 r (l ++ [x]) -> walk σ r (l ++ [x]).
Proof.
  intros Hch Hn. revert r. induction l as [|y l IH]; intros r Hr Hx; simpl.
  - intros [Hc _]. split; [by apply Hch | done].
  - intros [Hy Hw]. destruct (decide (y = n)) as [-> | Hyn].
    + by apply (walk_stuck σ1 n l x Hn) in Hw.
    + split; [by apply Hch | by apply IH].
Qed.

Lemma querySelector_only σ root sel n :
  n ∈ descendants (size (nodes σ)) σ root ->
  sel_matches sel (getNode σ n) = true ->
  (forall x, x ∈ descendants (size (nodes σ)) σ root ->
             sel_matches sel (getNode σ x) = true -> x = n) ->
  querySelector σ root sel = Some n.
Proof.
  intros Hin Hm Honly. unfold querySelector, querySelectorAll.
  assert (forall x,
             x ∈ List.filter (fun k => sel_matches sel (getNode σ k))
                   (descendants (size (nodes σ)) σ root)
             <-> x ∈ descendants (size (nodes σ)) σ root /\
                 sel_matches sel (getNode σ x) = true) as Hf
    by (intros x; by rewrite !list_elem_of_In, filter_In).
  destruct (List.filter _ _) as [|y ys] eqn:E.
  - assert (n ∈ @nil node) as []%elem_of_nil. by apply Hf.
  - simpl. f_equal. apply Honly; apply (Hf y); left.
Qed.

Lemma querySelector_none σ root sel x :
  querySelector σ root sel = None ->
  x ∈ descendants (size (nodes σ)) σ root ->
  sel_matches sel (getNode σ x) = false.
Proof.
  unfold querySelector, querySelectorAll. intros Hq Hx.
  apply not_true_is_false. intros Hm.
  assert (x ∈ List.filter (fun k => sel_matches sel (getNode σ k))
                (descendants (size (nodes σ)) σ root)) as Hin
    by (apply list_elem_of_In, filter_In; split;
        [by apply list_elem_of_In | done]).
  destruct (List.filter _ _); [by apply elem_of_nil in Hin | discriminate].
Qed.

(** The page after a new element [e0] was appended to [parent]. *)
Lemma appended_view e0 parent σ x :
  let n := fresh (dom (nodes σ)) in
  let e :=
    if decide (x = n) then set_parentNode (Some parent) e0
    else getNode σ x in
  getNode (appendChild parent n (createElement e0 σ).2) x
  = if decide (x = parent)
    then set_childNodes (el_childNodes e ++ [n]) e
    else e.
Proof.
  intros n e. unfold e, appendChild, createElement. cbn [snd].
  fold n. rewrite !getNode_updNode.
  repeat case_decide; simplify_eq; unfold getNode; cbn [nodes set_nodes];
    rewrite ?lookup_total_insert_eq, ?lookup_total_insert_ne by done;
    done.
Qed.

Lemma createIndicator_once c e0 input input' σ n σ1 :
  c ∈ el_classList e0 ->
  el_childNodes e0 = [] ->
  createIndicator c e0 input σ = Normal n σ1 ->
  el_parentNode (getNode σ1 input') = el_parentNode (getNode σ input) ->
  c ∈ el_classList (getNode σ1 n) /\
  createIndicator c e0 input' σ1 = Normal n σ1.
Proof.
  intros Hc Hleaf. unfold createIndicator at 1.
  destruct (el_parentNode (getNode σ input)) as [parent|] eqn:Hp;
    [| discriminate].
  destruct (querySelector σ parent (SelClass c)) as [existing|] eqn:Hq.
  - intros [= <- <-] Hp'. apply querySelector_matches in Hq as Hm.
    simpl in Hm. apply bool_decide_eq_true in Hm. split; [done |].
    unfold createIndicator. by rewrite Hp', Hq.
  - destruct (createElement e0 σ) as [n0 σ0] eqn:Hce.
    intros [= <- <-] Hp'.
    assert (n0 = fresh (dom (nodes σ)) /\ σ0 = (createElement e0 σ).2)
      as [Hn0 ->] by (by rewrite Hce; injection Hce as <- _).
    set (σ1 := appendChild parent n0 _) in *.
    pose proof (appended_view e0 parent σ) as Hview. cbv zeta in Hview.
    rewrite <- Hn0 in Hview. fold σ1 in Hview.
    assert (el_classList (getNode σ1 n0) = el_classList e0) as Hcn.
    { rewrite Hview. by repeat case_decide. }
    assert (forall x, x ≠ n0 ->
               el_classList (getNode σ1 x) = el_classList (getNode σ x))
      as Hcx.
    { intros x Hx. rewrite Hview. by repeat case_decide. }
    assert (n0 ∈ el_childNodes (getNode σ1 parent)) as Hlast.
    { rewrite Hview. rewrite (decide_True (P := parent = parent)) by done.
      simpl. set_solver. }
    assert (forall z, z ∈ el_childNodes (getNode σ1 n0) -> z = n0) as Hnn.
    { intros z. rewrite Hview.
      repeat case_decide; try done; simpl; rewrite ?Hleaf; set_solver. }
    assert (forall y z, y ≠ n0 -> z ≠ n0 ->
               z ∈ el_childNodes (getNode σ1 y) ->
               z ∈ el_childNodes (getNode σ y)) as Hch.
    { intros y z Hy Hz. rewrite Hview.
      repeat case_decide; try done; simpl; set_solver. }
    rewrite Hcn. split; [done |].
    unfold createIndicator. rewrite Hp'.
    rewrite (querySelector_only σ1 parent (SelClass c) n0); [done | | |].
    + by apply (walk_descendants σ1 parent []).
    + simpl. apply bool_decide_eq_true. by rewrite Hcn.
    + intros x [l [Hw _]]%descendants_walk Hm.
      destruct (decide (x = n0)) as [| Hx]; [done | exfalso].
      destruct (decide (parent = n0)) as [Hpn | Hpn].
      * rewrite Hpn in Hw. by apply (walk_stuck σ1 n0 l x Hnn) in Hw.
      * apply (walk_old σ σ1 n0 parent l x Hch Hnn Hpn Hx) in Hw.
        apply walk_descendants in Hw.
        apply (querySelector_none _ _ _ _ Hq) in Hw.
        simpl in Hm, Hw. rewrite (Hcx x Hx) in Hm. congruence.
Qed.

(** X7 ([createErrorElement], [createSuccessElement]): the element each of
    them returns carries the indicator's class, and a later call for a
    control with the same parent creates nothing: it returns that very
    element and leaves the page as it is, whether the first call found the
    element in the markup or created it.  The controls of a group thus
    share its indicators. *)
Theorem indicators_created_once input input' σ n σ1 :
  el_parentNode (getNode σ1 input') = el_parentNode (getNode σ input) ->
  (createErrorElement input σ = Normal n σ1 ->
   form__error ∈ el_classList (getNode σ1 n) /\
   createErrorElement input' σ1 = Normal n σ1) /\
  (createSuccessElement input σ = Normal n σ1 ->
   form__success ∈ el_classList (getNode σ1 n) /\
   createSuccessElement input' σ1 = Normal n σ1).
Proof.
  intros Hp. split; intros Hn.
  - rewrite createErrorElement_indicator in Hn |- *.
    by apply (createIndicator_once _ _ input input' σ n σ1);
      [apply list_elem_of_singleton | | |].
  - rewrite createSuccessElement_indicator in Hn |- *.
    by apply (createIndicator_once _ _ input input' σ n σ1);
      [apply list_elem_of_singleton | | |].
Qed.

End IndicatorProperties.

(** ** The fields a form tracks *)

Section TrackingProperties.

Context `{Engine : RegExpEngine} `{Host : Browser}.

Implicit Types (σ : State) (n m input parent : node) (fd fm : nat).
Implicit Types (k : jsstring) (M : list (jsstring * nat)).

Lemma Map_set_keys k v M :
  Map_keys (Map_set k v M)
  = if decide (k ∈ Map_keys M) then Map_keys M else Map_keys M ++ [k].
Proof.
  unfold Map_keys. induction M as [|[k' v'] M IH]; csimpl.
  - destruct (decide (k ∈ [])) as [Hin|_]; [by apply elem_of_nil in Hin | done].
  - destruct (decide (k' = k)) as [->|Hne]; csimpl.
    + destruct (decide (k ∈ k :: M.*1)) as [_|Hn]; [done |].
      exfalso. apply Hn. left.
    + rewrite IH. destruct (decide (k ∈ M.*1)) as [Hin|Hin].
      * destruct (decide (k ∈ k' :: M.*1)) as [_|Hn]; [done |].
        exfalso. apply Hn. by right.
      * destruct (decide (k ∈ k' :: M.*1)) as [Hn|_]; [| done].
        apply elem_of_cons in Hn as [->|?]; done.
Qed.

Lemma Map_set_elem k v M : (k, v) ∈ Map_set k v M.
Proof.
  induction M as [|[k' v'] M IH]; simpl; [left |].
  destruct (decide (k' = k)); [left | by right].
Qed.

Lemma Map_set_NoDup k v M :
  NoDup (Map_keys M) -> NoDup (Map_keys (Map_set k v M)).
Proof.
  intros HM. rewrite Map_set_keys. case_decide; [done |].
  apply NoDup_app. split; [done |]. split; [| apply NoDup_singleton].
  intros x Hx ->%list_elem_of_singleton. done.
Qed.

Lemma sameIdentity_refl e : sameIdentity e e.
Proof. by repeat split. Qed.

(** An indicator is created next to a control that is in the document, and
    the elements that were there keep their identity. *)
Lemma createIndicator_identity c e0 input σ n σ1 :
  createIndicator c e0 input σ = Normal n σ1 ->
  input ∈ dom (nodes σ) /\
  sameRegistry σ σ1 /\
  forall m, m ∈ dom (nodes σ) ->
            m ∈ dom (nodes σ1) /\
            sameIdentity (getNode σ m) (getNode σ1 m).
Proof.
  unfold createIndicator.
  destruct (el_parentNode (getNode σ input)) as [parent|] eqn:Hp;
    [| discriminate].
  assert (input ∈ dom (nodes σ)) as Hin.
  { apply elem_of_dom. destruct (nodes σ !! input) as [e|] eqn:E; [eauto |].
    unfold getNode in Hp. by rewrite lookup_total_alt, E in Hp. }
  split; [done |].
  destruct (querySelector σ parent (SelClass c)) as [existing|].
  - simplify_eq. split; [by repeat split |].
    intros m Hm. split; [done | apply sameIdentity_refl].
  - unfold createElement in *. simplify_eq. split; [by repeat split |].
    intros m Hm.
    assert (m ≠ fresh (dom (nodes σ))) as Hfresh
      by (intros ->; by apply (is_fresh (dom (nodes σ)))).
    split.
    + unfold appendChild, updNode; simpl. rewrite !dom_insert. set_solver.
    + unfold appendChild. rewrite !getNode_updNode.
      repeat case_decide; simplify_eq; unfold getNode; simpl;
        rewrite ?lookup_total_insert_ne by done; by repeat split.
Qed.

Lemma initializeField_normal fm input σ σ' :
  initializeField fm input σ = Normal tt σ' ->
  exists rules err succ,
    getValidationRules σ input = Some rules /\
    fieldObjs σ'
    = <[fresh (dom (fieldObjs σ)) := mkField input false rules err succ]>
        (fieldObjs σ) /\
    formObjs σ'
    = <[fm := mkForm (fm_element (getForm σ fm))
                (Map_set (fieldKey σ input) (fresh (dom (fieldObjs σ)))
                   (fm_fields (getForm σ fm)))
                (fm_isValid (getForm σ fm))]> (formObjs σ) /\
    exists extra,
      listeners σ'
      = listeners σ
        ++ mkListener input "blur" (OnBlur (fresh (dom (fieldObjs σ))))
        :: mkListener input "input" (OnInput (fresh (dom (fieldObjs σ))))
        :: extra /\
      Forall listenerTyped extra.
Proof.
  unfold initializeField.
  destruct (getValidationRules σ input) as [rules|]; [| discriminate].
  rewrite createErrorElement_indicator.
  destruct (createIndicator _ _ input σ) as [err σ1|] eqn:E1; [| discriminate].
  rewrite createSuccessElement_indicator.
  destruct (createIndicator _ _ input σ1) as [succ σ2|] eqn:E2;
    [| discriminate].
  apply createIndicator_identity in E1 as (Hin & R1 & I1).
  apply createIndicator_identity in E2 as (_ & R2 & I2).
  destruct (I1 input Hin) as [Hin1 (_&_&_& Hname1 & Hid1 &_)].
  destruct (I2 input Hin1) as [_ (_&_&_& Hname2 & Hid2 &_)].
  destruct R1 as (Hf1 & Ho1 & _ & Hl1 & _), R2 as (Hf2 & Ho2 & _ & Hl2 & _).
  intros [= <-]. exists rules, err, succ. split; [done |].
  unfold fieldKey. rewrite <- Hname1, <- Hname2, <- Hid1, <- Hid2.
  unfold debounce, addEventListener, getForm.
  destruct (bool_decide _); cbn -[js]; rewrite Hf2, Hf1, Ho2, Ho1, Hl2, Hl1;
    (split; [done |]); (split; [done |]); rewrite <- !app_assoc;
    eexists; (split; [reflexivity |]); by repeat constructor.
Qed.

(** X8 ([initializeField]): a control that initialises normally gets a new
    [fieldData] object, not yet valid, which the form tracks under the
    control's name or, failing that, its id, read before the indicators
    are created.  When the form already tracks a field under that
    identifier, the new object takes its place and the form tracks no more
    fields than before; otherwise the identifier is added last. *)
Theorem initializeField_tracks_by_identifier fm input σ σ' :
  initializeField fm input σ = Normal tt σ' ->
  exists fd,
    fieldObjs σ !! fd = None /\
    fd_element (getField σ' fd) = input /\
    fd_isValid (getField σ' fd) = false /\
    (fieldKey σ input, fd) ∈ fm_fields (getForm σ' fm) /\
    Map_keys (fm_fields (getForm σ' fm))
    = if decide (fieldKey σ input ∈ Map_keys (fm_fields (getForm σ fm)))
      then Map_keys (fm_fields (getForm σ fm))
      else Map_keys (fm_fields (getForm σ fm)) ++ [fieldKey σ input].
Proof.
  intros (rules & err & succ & _ & Hf & Ho & _)%initializeField_normal.
  exists (fresh (dom (fieldObjs σ))). unfold getField, getForm at 1 2.
  rewrite Hf, Ho, !lookup_total_insert_eq. simpl.
  split; [apply not_elem_of_dom, is_fresh |].
  split; [done |]. split; [done |].
  split; [apply Map_set_elem | apply Map_set_keys].
Qed.

Lemma initializeField_thrown fm input σ e σ' :
  initializeField fm input σ = Thrown e σ' -> sameRegistry σ σ'.
Proof.
  unfold initializeField.
  destruct (getValidationRules σ input) as [rules|];
    [| intros [= _ <-]; by repeat split].
  pose proof (createErrorElement_registry input σ) as H1.
  destruct (createErrorElement input σ) as [err σ1 | e1 σ1]; simpl in H1;
    [| by intros [= _ <-]].
  pose proof (createSuccessElement_registry input σ1) as H2.
  destruct (createSuccessElement input σ1) as [succ σ2 | e2 σ2];
    simpl in H2; [discriminate |].
  intros [= _ <-]. unfold sameRegistry in *. naive_solver congruence.
Qed.

Lemma Map_set_elem_inv k v M x : x ∈ Map_set k v M -> x = (k, v) \/ x ∈ M.
Proof.
  induction M as [|[k' v'] M IH]; simpl.
  - intros ->%list_elem_of_singleton. by left.
  - destruct (decide (k' = k)).
    + intros [->|?]%elem_of_cons; [by left | right; by right].
    + intros [->|[->|?]%IH]%elem_of_cons;
        [right; left | by left | right; by right].
Qed.

Lemma initializeField_keysDistinct fm input σ :
  keysDistinct σ -> keysDistinct (final (initializeField fm input σ)).
Proof.
  intros HI.
  destruct (initializeField fm input σ) as [[] σ'|e σ'] eqn:E; simpl.
  - apply initializeField_normal in E as (rules & err & succ & _ & _ & Ho & _).
    intros k f. rewrite Ho, lookup_insert. case_decide; [| apply HI].
    intros [= <-]. simpl. apply Map_set_NoDup.
    unfold getForm. rewrite lookup_total_alt.
    destruct (formObjs σ !! fm) as [f|] eqn:Hfm; simpl.
    + by apply (HI fm).
    + apply NoDup_nil_2.
  - pose proof (initializeField_frame fm input σ) as Hfr. rewrite E in Hfr.
    revert E. unfold initializeField.
    destruct (getValidationRules σ input) as [rules|];
      [| by intros [= _ <-]].
    pose proof (createErrorElement_registry input σ) as H1.
    destruct (createErrorElement input σ) as [err σ1 | e1 σ1]; simpl in H1;
      destruct H1 as (_ & Ho1 & _).
    2: { intros [= _ <-]. intros k f. rewrite Ho1. apply HI. }
    pose proof (createSuccessElement_registry input σ1) as H2.
    destruct (createSuccessElement input σ1) as [succ σ2 | e2 σ2];
      simpl in H2; destruct H2 as (_ & Ho2 & _); [discriminate |].
    intros [= _ <-]. intros k f. rewrite Ho2, Ho1. apply HI.
Qed.

Lemma initializeForm_keysDistinct form σ :
  keysDistinct σ -> keysDistinct (final (initializeForm form σ)).
Proof.
  intros HI. unfold initializeForm, newFormData.
  set (fm := fresh (dom (formObjs σ))).
  set (σa := set_formObjs _ σ).
  assert (keysDistinct σa) as Ha.
  { intros k f. unfold σa; simpl. rewrite lookup_insert. case_decide.
    - intros [= <-]. apply NoDup_nil_2.
    - apply HI. }
  pose proof (forEach_final keysDistinct (initializeField fm)
                (querySelectorAll σa form sel_inputs) σa
                (initializeField_keysDistinct fm) Ha) as Hb.
  by destruct (forEach _ _ σa) as [[] σb | e σb].
Qed.


End TrackingProperties.

(** ** Timers and the debounced validation *)

Section DebounceProperties.

Context `{Engine : RegExpEngine} `{Host : Browser}.

Implicit Types (σ : State) (n m input : node) (fd fm cell : nat).

Lemma debounceInv_view σ σ' :
  timers σ' = timers σ -> nextTimer σ' = nextTimer σ -> cells σ' = cells σ ->
  debounceInv σ -> debounceInv σ'.
Proof. unfold debounceInv. by intros -> -> ->. Qed.

Lemma debounceInv_frame σ σ' :
  fieldFrame σ σ' -> debounceInv σ -> debounceInv σ'.
Proof. intros (_&_&_&_&_& Ht & Hn & Hc &_). by apply debounceInv_view. Qed.

Lemma debounceInv_filter (P : Timer -> Prop) `{forall t, Decision (P t)} σ :
  debounceInv σ ->
  debounceInv (set_timers (filter P (timers σ)) (nextTimer σ) σ).
Proof.
  intros (Hnd & Hlt & Hc). unfold debounceInv; simpl. split; [| split].
  - eapply sublist_NoDup; [done |]. apply fmap_sublist, sublist_filter.
  - intros t [_ Ht]%list_elem_of_filter. by apply Hlt.
  - intros t cell fd [_ Ht]%list_elem_of_filter. by apply Hc.
Qed.

Lemma debounceInv_clearTimeout id σ :
  debounceInv σ -> debounceInv (clearTimeout id σ).
Proof. destruct id; [apply debounceInv_filter; apply _ | done]. Qed.

Lemma debounceInv_setTimeout task d σ :
  (forall cell fd, task ≠ Later cell fd) ->
  debounceInv σ -> debounceInv (snd (setTimeout task d σ)).
Proof.
  intros Hne (Hnd & Hlt & Hc). unfold debounceInv, setTimeout; simpl.
  split; [| split].
  - rewrite fmap_app. apply NoDup_app. split; [done |].
    split; [| apply NoDup_singleton].
    intros x (t & -> & Ht)%list_elem_of_fmap Hx%list_elem_of_singleton.
    apply Hlt in Ht. simpl in Hx. lia.
  - intros t [Ht | ->%list_elem_of_singleton]%elem_of_app;
      [apply Hlt in Ht; lia | simpl; lia].
  - intros t cell fd [Ht | ->%list_elem_of_singleton]%elem_of_app Htask;
      [by eapply Hc | by apply Hne in Htask].
Qed.

Lemma clearTimeout_timers id σ t :
  t ∈ timers (clearTimeout id σ) ->
  t ∈ timers σ /\ id ≠ Some (t_id t).
Proof.
  destruct id as [i|]; simpl; [| done].
  intros [Hne Ht]%list_elem_of_filter. split; [done | congruence].
Qed.

(** The debounced listener: the pending call is cancelled and a new one
    is scheduled, whose identifier goes into [timeout]. *)
Lemma debounceInv_debounced cell fd σ :
  debounceInv σ -> debounceInv (runHandler (OnInputDebounced cell fd) σ).
Proof.
  intros HI. simpl.
  set (old := default None (cells σ !! cell)).
  pose proof (debounceInv_clearTimeout old σ HI) as (Hnd & Hlt & Hc).
  assert (forall t fd', t ∈ timers (clearTimeout old σ) ->
                        t_task t ≠ Later cell fd') as Hgone.
  { intros t fd' [Ht Hne]%clearTimeout_timers Htask.
    destruct HI as (_ & _ & Hc0). apply Hne. unfold old.
    by rewrite (Hc0 t cell fd' Ht Htask). }
  assert (cells (clearTimeout old σ) = cells σ) as Hcells by by destruct old.
  revert Hnd Hlt Hc Hgone Hcells. generalize (clearTimeout old σ).
  intros σ1 Hnd Hlt Hc Hgone Hcells.
  unfold debounceInv, setTimeout; simpl. split; [| split].
  - rewrite fmap_app. apply NoDup_app. split; [done |].
    split; [| apply NoDup_singleton].
    intros x (t & -> & Ht)%list_elem_of_fmap Hx%list_elem_of_singleton.
    apply Hlt in Ht. simpl in Hx. lia.
  - intros t [Ht | ->%list_elem_of_singleton]%elem_of_app;
      [apply Hlt in Ht; lia | simpl; lia].
  - intros t c f [Ht | ->%list_elem_of_singleton]%elem_of_app Htask.
    + rewrite lookup_insert_ne; [by eapply Hc |].
      intros <-. by apply (Hgone t f).
    + simpl in Htask. injection Htask as <- <-. simpl.
      apply lookup_insert_eq.
Qed.

Lemma debounceInv_submitForm fm σ :
  debounceInv σ -> debounceInv (submitForm fm σ).
Proof.
  intros HI. unfold submitForm. apply debounceInv_setTimeout; [done |].
  destruct (querySelector _ _ _); [| done].
  by apply (debounceInv_view σ).
Qed.

Lemma debounceInv_handleSubmit fm σ :
  debounceInv σ -> debounceInv (handleSubmit fm σ).
Proof.
  intros HI.
  destruct (forallb (fun '(_, fd) => fieldPasses σ fd)
              (fm_fields (getForm σ fm))) eqn:E.
  - rewrite handleSubmit_valid by done. apply debounceInv_submitForm.
    apply (debounceInv_frame σ); [apply validatedAll_frame | done].
  - destruct (handleSubmit_invalid fm σ E) as (?&?&?&?&_&_&_& ->).
    assert (debounceInv (validatedAll (fm_fields (getForm σ fm)) σ)) as HIv
      by (apply (debounceInv_frame σ); [apply validatedAll_frame | done]).
    match goal with
    | |- context [focus ?n ?s] => destruct (focus_cases n s) as [-> | ->]
    end; [| done].
    by apply (debounceInv_view (validatedAll (fm_fields (getForm σ fm)) σ)).
Qed.

Lemma debounceInv_runHandler h σ :
  debounceInv σ -> debounceInv (runHandler h σ).
Proof.
  intros HI. destruct h as [fd | fd | cell fd | fm].
  - apply (debounceInv_frame σ); [apply validateField_frame | done].
  - apply (debounceInv_frame σ); [apply clearFieldState_frame | done].
  - by apply debounceInv_debounced.
  - apply debounceInv_handleSubmit. by apply (debounceInv_view σ).
Qed.

Lemma debounceInv_dispatchEvent target type σ :
  debounceInv σ -> debounceInv (dispatchEvent target type σ).
Proof.
  intros HI. unfold dispatchEvent.
  generalize (List.filter
                (fun l => bool_decide (l_target l = target)
                          && bool_decide (l_type l = type)) (listeners σ)).
  intros ls.
  assert (debounceInv (set_defaultPrevented false σ)) as HI'
    by by apply (debounceInv_view σ).
  revert HI'. generalize (set_defaultPrevented false σ). clear σ HI.
  induction ls as [|l ls IH]; intros σ HI; simpl; [done |].
  by apply IH, debounceInv_runHandler.
Qed.

Lemma debounceInv_resetAll l σ : debounceInv σ -> debounceInv (resetAll l σ).
Proof.
  revert σ. induction l as [|m l IH]; intros σ HI; simpl; [done |].
  apply IH. by apply (debounceInv_view σ).
Qed.

Lemma debounceInv_showSuccessMessage form σ :
  debounceInv σ -> debounceInv (showSuccessMessage form σ).
Proof.
  intros HI. unfold showSuccessMessage, createSuccessModal, createElement.
  apply debounceInv_setTimeout; [done |].
  apply debounceInv_setTimeout; [done |].
  by apply (debounceInv_view σ).
Qed.

Lemma debounceInv_submitted fm form b σ :
  debounceInv σ -> debounceInv (submitted fm form b σ).
Proof.
  intros HI. unfold submitted.
  set (σa := showSuccessMessage form σ).
  set (σb := reset form σa).
  assert (debounceInv σb) as Hb.
  { unfold σb, reset. fold (resetAll (querySelectorAll σa form sel_inputs) σa).
    by apply debounceInv_resetAll, debounceInv_showSuccessMessage. }
  fold (clearedAll (fm_fields (getForm σb fm)) σb).
  pose proof (debounceInv_frame _ _
                (clearedAll_frame (fm_fields (getForm σb fm)) σb) Hb) as Hc.
  destruct b; [| done].
  by apply (debounceInv_view (clearedAll (fm_fields (getForm σb fm)) σb)).
Qed.

Lemma debounceInv_runTask task σ :
  debounceInv σ -> debounceInv (runTask task σ).
Proof.
  intros HI. destruct task as [cell fd | fm form b | modal | modal | modal];
    cbn [runTask].
  - eapply debounceInv_frame; [apply validateField_frame |].
    by apply debounceInv_clearTimeout.
  - by apply debounceInv_submitted.
  - by apply (debounceInv_view σ).
  - apply debounceInv_setTimeout; [done |]. by apply (debounceInv_view σ).
  - by apply (debounceInv_view σ).
Qed.

Lemma debounceInv_step ev σ : debounceInv σ -> debounceInv (step ev σ).
Proof.
  intros HI. destruct ev as [target | target value | target | id]; simpl.
  - by apply debounceInv_dispatchEvent.
  - apply debounceInv_dispatchEvent. by apply (debounceInv_view σ).
  - by apply debounceInv_dispatchEvent.
  - destruct (List.find _ _); [| done].
    apply debounceInv_runTask. by apply debounceInv_filter.
Qed.

(** Setting up starts no timer. *)
Lemma initializeField_timers fm input σ :
  timers σ = [] -> timers (final (initializeField fm input σ)) = [].
Proof.
  intros HI. unfold initializeField.
  destruct (getValidationRules σ input) as [rules|]; [| done].
  pose proof (createErrorElement_registry input σ) as H1.
  destruct (createErrorElement input σ) as [err σ1 | e σ1]; simpl in H1;
    destruct H1 as (_&_&_&_& Ht1 &_); [| simpl; congruence].
  pose proof (createSuccessElement_registry input σ1) as H2.
  destruct (createSuccessElement input σ1) as [succ σ2 | e σ2]; simpl in H2;
    destruct H2 as (_&_&_&_& Ht2 &_); [| simpl; congruence].
  unfold final, debounce, addEventListener.
  destruct (bool_decide _); cbn -[js]; congruence.
Qed.

Lemma initializeForm_timers form σ :
  timers σ = [] -> timers (final (initializeForm form σ)) = [].
Proof.
  intros HI. unfold initializeForm, newFormData.
  set (fm := fresh (dom (formObjs σ))).
  set (σa := set_formObjs _ σ).
  pose proof (forEach_final (fun σ => timers σ = []) (initializeField fm)
                (querySelectorAll σa form sel_inputs) σa
                (initializeField_timers fm) HI) as Hb.
  by destruct (forEach _ _ σa) as [[] σb | e σb].
Qed.

Lemma reachable_debounceInv σ : reachable σ -> debounceInv σ.
Proof.
  induction 1 as [els doc bdy | σ ev _ IH]; [| by apply debounceInv_step].
  assert (timers (final (FormValidator_new (pageLoad els doc bdy))) = [])
    as Ht.
  { unfold FormValidator_new, setupFormValidation.
    by apply (forEach_final (fun σ => timers σ = []));
      [apply initializeForm_timers |]. }
  unfold debounceInv. rewrite Ht. split; [apply NoDup_nil_2 |].
  split; [intros t Hin | intros t cell fd Hin]; by apply elem_of_nil in Hin.
Qed.

Lemma pendingLater_elem cell σ t :
  t ∈ pendingLater cell σ <->
  t ∈ timers σ /\ exists fd, t_task t = Later cell fd.
Proof.
  unfold pendingLater. rewrite list_elem_of_In, filter_In, <- list_elem_of_In.
  split.
  - intros [Ht Htask]. split; [done |].
    destruct (t_task t) as [c fd| | | |]; try discriminate.
    apply bool_decide_eq_true in Htask as ->. eauto.
  - intros [Ht [fd ->]]. split; [done |]. by apply bool_decide_eq_true.
Qed.

Lemma filter_bool_sublist {A} (p : A -> bool) (l : list A) :
  List.filter p l `sublist_of` l.
Proof.
  induction l as [|x l IH]; simpl; [constructor |].
  destruct (p x); by constructor.
Qed.

Lemma NoDup_fmap_const {A B} (f : A -> B) (l : list A) b :
  NoDup (f <$> l) -> (forall x, x ∈ l -> f x = b) -> (length l <= 1)%nat.
Proof.
  destruct l as [|x [|y l]]; simpl; [lia | lia |].
  intros Hnd Hall. exfalso.
  apply NoDup_cons in Hnd as [Hx _]. apply Hx.
  rewrite (Hall x), <- (Hall y) by set_solver. left.
Qed.

(** X10 ([debounce], with the listener of [initializeField] and
    [submitForm]): on every page the script can reach, timer identifiers
    are distinct, and each debounced listener has at most one call pending,
    the one whose identifier its [timeout] variable holds: an input event
    cancels the pending call before it schedules the next. *)
Theorem debounce_one_pending σ cell :
  reachable σ ->
  NoDup (t_id <$> timers σ) /\
  (length (pendingLater cell σ) <= 1)%nat /\
  forall t, t ∈ pendingLater cell σ ->
            cells σ !! cell = Some (Some (t_id t)).
Proof.
  intros (Hnd & _ & Hc)%reachable_debounceInv. split; [done |].
  assert (forall t, t ∈ pendingLater cell σ ->
                    cells σ !! cell = Some (Some (t_id t))) as Hcell.
  { intros t [Ht [fd Htask]]%pendingLater_elem. by eapply Hc. }
  split; [| done].
  destruct (cells σ !! cell) as [[id|]|] eqn:E.
  - apply (NoDup_fmap_const t_id _ id).
    + eapply sublist_NoDup; [done |].
      apply fmap_sublist, filter_bool_sublist.
    + intros t Ht%Hcell. congruence.
  - destruct (pendingLater cell σ) as [|t l]; [simpl; lia |].
    assert (t ∈ t :: l) as Ht%Hcell by left. discriminate.
  - destruct (pendingLater cell σ) as [|t l]; [simpl; lia |].
    assert (t ∈ t :: l) as Ht%Hcell by left. discriminate.
Qed.

End DebounceProperties.

(** ** Events *)

Section EventProperties.

Context `{Engine : RegExpEngine} `{Host : Browser}.

Implicit Types (σ : State) (n m input : node) (fd fm cell : nat).

Lemma sameWiring_refl σ : sameWiring σ σ.
Proof. repeat split; auto using sameField_refl. Qed.

Lemma sameWiring_trans σ1 σ2 σ3 :
  sameWiring σ1 σ2 -> sameWiring σ2 σ3 -> sameWiring σ1 σ3.
Proof.
  intros (Hl1 & Hf1 & Ho1 & H1) (Hl2 & Hf2 & Ho2 & H2).
  repeat split; try congruence; destruct (H1 fd) as (?&?&?&?),
    (H2 fd) as (?&?&?&?); congruence.
Qed.

Lemma handlerFrame_refl σ : handlerFrame σ σ.
Proof. split; [apply sameWiring_refl | done]. Qed.

Lemma handlerFrame_trans σ1 σ2 σ3 :
  handlerFrame σ1 σ2 -> handlerFrame σ2 σ3 -> handlerFrame σ1 σ3.
Proof.
  intros [W1 V1] [W2 V2]. split; [by eapply sameWiring_trans |].
  intros n. by rewrite V2, V1.
Qed.

(** A step that writes neither objects nor values. *)
Lemma handlerFrame_objs σ σ' :
  listeners σ' = listeners σ -> forms σ' = forms σ ->
  formObjs σ' = formObjs σ -> fieldObjs σ' = fieldObjs σ ->
  (forall n, el_value (getNode σ' n) = el_value (getNode σ n)) ->
  handlerFrame σ σ'.
Proof.
  intros Hl Hf Ho Hd Hv. split; [| done]. repeat split; try done;
    unfold getField; by rewrite Hd.
Qed.

Lemma handlerFrame_fieldFrame σ σ' : fieldFrame σ σ' -> handlerFrame σ σ'.
Proof.
  intros (Hn & Hd & Ho & Hf & Hl & _). split; [by split_and! |].
  intros n. by destruct (Hn n) as (_&_&_&_&_&_&_&_& -> &_).
Qed.

Lemma handlerFrame_updNode n f σ :
  (forall e, el_value (f e) = el_value e) -> handlerFrame σ (updNode n f σ).
Proof.
  intros Hf. apply handlerFrame_objs; try done.
  intros m. by apply getNode_updNode_frame.
Qed.

Lemma handlerFrame_submitForm fm σ : handlerFrame σ (submitForm fm σ).
Proof.
  unfold submitForm. destruct (querySelector _ _ _) as [b|].
  - set (σ1 := updNode b (set_textContent (js "Submitting...")) σ).
    set (σ2 := updNode b (set_disabled true) σ1).
    apply (handlerFrame_trans _ σ1); [by apply handlerFrame_updNode |].
    apply (handlerFrame_trans _ σ2); [by apply handlerFrame_updNode |].
    by apply handlerFrame_objs.
  - by apply handlerFrame_objs.
Qed.

Lemma handlerFrame_handleSubmit fm σ : handlerFrame σ (handleSubmit fm σ).
Proof.
  destruct (forallb (fun '(_, fd) => fieldPasses σ fd)
              (fm_fields (getForm σ fm))) eqn:E.
  - rewrite handleSubmit_valid by done.
    eapply handlerFrame_trans; [| apply handlerFrame_submitForm].
    apply handlerFrame_fieldFrame, validatedAll_frame.
  - destruct (handleSubmit_invalid fm σ E) as (?&?&?&?&_&_&_& ->).
    eapply handlerFrame_trans;
      [apply handlerFrame_fieldFrame, validatedAll_frame |].
    match goal with
    | |- context [focus ?n ?s] => destruct (focus_cases n s) as [-> | ->]
    end; by apply handlerFrame_objs.
Qed.

Lemma handlerFrame_clearTimeout id σ : handlerFrame σ (clearTimeout id σ).
Proof. destruct id; by apply handlerFrame_objs. Qed.

Lemma handlerFrame_runHandler h σ : handlerFrame σ (runHandler h σ).
Proof.
  destruct h as [fd | fd | cell fd | fm]; cbn [runHandler].
  - apply handlerFrame_fieldFrame, validateField_frame.
  - apply handlerFrame_fieldFrame, clearFieldState_frame.
  - eapply handlerFrame_trans; [apply handlerFrame_clearTimeout |].
    by apply handlerFrame_objs.
  - eapply handlerFrame_trans; [| apply handlerFrame_handleSubmit].
    by apply handlerFrame_objs.
Qed.

Lemma handlerFrame_handlers ls σ :
  handlerFrame σ (foldl (fun σ l => runHandler (l_handler l) σ) σ ls).
Proof.
  revert σ. induction ls as [|l ls IH]; intros σ; simpl;
    [apply handlerFrame_refl |].
  eapply handlerFrame_trans; [apply handlerFrame_runHandler | apply IH].
Qed.

Lemma handlerFrame_dispatchEvent target type σ :
  handlerFrame σ (dispatchEvent target type σ).
Proof.
  unfold dispatchEvent.
  eapply handlerFrame_trans; [| apply handlerFrame_handlers].
  by apply handlerFrame_objs.
Qed.

Lemma sameWiring_resetAll l σ : sameWiring σ (resetAll l σ).
Proof.
  revert σ. induction l as [|m l IH]; intros σ; simpl;
    [apply sameWiring_refl |].
  eapply sameWiring_trans; [| apply IH]. by repeat split.
Qed.

Lemma sameWiring_submitted fm form b σ :
  sameWiring σ (submitted fm form b σ).
Proof.
  unfold submitted.
  set (σa := showSuccessMessage form σ).
  set (σb := reset form σa).
  assert (sameWiring σ σb) as Hb.
  { apply (sameWiring_trans _ σa); [by repeat split |].
    unfold σb, reset. fold (resetAll (querySelectorAll σa form sel_inputs) σa).
    apply sameWiring_resetAll. }
  fold (clearedAll (fm_fields (getForm σb fm)) σb).
  pose proof (handlerFrame_fieldFrame _ _
                (clearedAll_frame (fm_fields (getForm σb fm)) σb)) as [Hc _].
  pose proof (sameWiring_trans _ _ _ Hb Hc) as Hd.
  destruct b; [| done].
  eapply sameWiring_trans; [apply Hd | by repeat split].
Qed.

Lemma sameWiring_runTask task σ : sameWiring σ (runTask task σ).
Proof.
  destruct task as [cell fd | fm form b | modal | modal | modal];
    cbn [runTask].
  - apply (sameWiring_trans _ (clearTimeout (default None (cells σ !! cell)) σ)).
    + apply handlerFrame_clearTimeout.
    + apply handlerFrame_fieldFrame, validateField_frame.
  - apply sameWiring_submitted.
  - by repeat split.
  - by repeat split.
  - by repeat split.
Qed.

Lemma step_sameWiring ev σ : sameWiring σ (step ev σ).
Proof.
  destruct ev as [target | target value | target | id]; cbn [step].
  - apply handlerFrame_dispatchEvent.
  - eapply sameWiring_trans; [| apply handlerFrame_dispatchEvent].
    by repeat split.
  - apply handlerFrame_dispatchEvent.
  - destruct (List.find _ _); [| apply sameWiring_refl].
    eapply sameWiring_trans; [| apply sameWiring_runTask]. by repeat split.
Qed.


End EventProperties.

(** ** The listeners of tracked fields *)

Section WiredProperties.

Context `{Engine : RegExpEngine} `{Host : Browser}.

Implicit Types (σ : State) (n m input : node) (fd fm cell : nat).

Lemma initializeField_setupInv fm input σ :
  setupInv σ -> setupInv (final (initializeField fm input σ)).
Proof.
  intros (Ha & Hw & Ht).
  destruct (initializeField fm input σ) as [[] σ'|e σ'] eqn:E; simpl.
  - apply initializeField_normal in E
      as (rules & err & succ & _ & Hd & Ho & extra & Hl & Hextra).
    set (fd0 := fresh (dom (fieldObjs σ))) in *.
    assert (forall fm' f k fd,
               formObjs σ' !! fm' = Some f -> (k, fd) ∈ fm_fields f ->
               fd = fd0 \/
               fd ≠ fd0 /\ exists f0, formObjs σ !! fm' = Some f0 /\
                                      (k, fd) ∈ fm_fields f0) as Hcase.
    { intros fm' f k fd. rewrite Ho, lookup_insert. case_decide as Hfm.
      - subst fm'. intros [= <-]. simpl.
        intros [[= -> ->]|Hin]%Map_set_elem_inv; [by left |].
        unfold getForm in Hin. rewrite lookup_total_alt in Hin.
        destruct (formObjs σ !! fm) as [f0|] eqn:Hfm; simpl in Hin;
          [| by apply elem_of_nil in Hin].
        right. split; [| eauto]. intros ->.
        destruct (Ha fm f0 k fd0 Hfm Hin) as [x Hx].
        by apply (is_fresh (dom (fieldObjs σ))), elem_of_dom.
      - intros Hf Hin. right. split; [| eauto]. intros ->.
        destruct (Ha fm' f k fd0 Hf Hin) as [x Hx].
        by apply (is_fresh (dom (fieldObjs σ))), elem_of_dom. }
    split; [| split].
    + intros fm' f k fd Hf Hin. rewrite Hd.
      destruct (Hcase fm' f k fd Hf Hin) as [->|(Hne & f0 & Hf0 & Hin0)].
      * rewrite lookup_insert_eq. eauto.
      * rewrite lookup_insert_ne by done. by eapply Ha.
    + intros fm' f k fd Hf Hin. unfold getField. rewrite Hd, Hl.
      destruct (Hcase fm' f k fd Hf Hin) as [->|(Hne & f0 & Hf0 & Hin0)].
      * rewrite lookup_total_insert_eq. simpl. set_solver.
      * rewrite lookup_total_insert_ne by done.
        destruct (Hw fm' f0 k fd Hf0 Hin0) as [Hb Hi].
        unfold getField in Hb, Hi. set_solver.
    + rewrite Hl. apply Forall_app. split; [done |].
      by repeat constructor.
  - apply initializeField_thrown in E as (Hd & Ho & _ & Hl & _).
    unfold setupInv, trackedAllocated, trackedWired, getField.
    by rewrite Hd, Ho, Hl.
Qed.

Lemma initializeForm_setupInv form σ :
  setupInv σ -> setupInv (final (initializeForm form σ)).
Proof.
  intros (Ha & Hw & Ht). unfold initializeForm, newFormData.
  set (fm := fresh (dom (formObjs σ))).
  set (σa := set_formObjs _ σ).
  assert (setupInv σa) as HIa.
  { split; [| split; [| done]].
    - intros fm' f k fd. unfold σa; simpl. rewrite lookup_insert.
      case_decide; [intros [= <-] Hin; by apply elem_of_nil in Hin |].
      apply Ha.
    - intros fm' f k fd. unfold σa; simpl. rewrite lookup_insert.
      case_decide; [intros [= <-] Hin; by apply elem_of_nil in Hin |].
      apply Hw. }
  pose proof (forEach_final setupInv (initializeField fm)
                (querySelectorAll σa form sel_inputs) σa
                (initializeField_setupInv fm) HIa) as Hb.
  destruct (forEach _ _ σa) as [[] σb | e σb]; [| done].
  destruct Hb as (Hab & Hwb & Htb). cbn -[js]. split; [done |]. split.
  - intros fm' f k fd Hf Hin. destruct (Hwb fm' f k fd Hf Hin).
    cbn -[js]. set_solver.
  - cbn -[js]. apply Forall_app. split; [done |]. by repeat constructor.
Qed.

Lemma sameWiring_wiredInv σ σ' : sameWiring σ σ' -> wiredInv σ -> wiredInv σ'.
Proof.
  intros (Hl & _ & Ho & Hd) [Hw Ht]. split; [| by rewrite Hl].
  intros fm f k fd. rewrite Ho, Hl. intros Hf Hin.
  destruct (Hd fd) as (-> & _). by eapply Hw.
Qed.

Lemma reachable_wiredInv σ : reachable σ -> wiredInv σ.
Proof.
  induction 1 as [els doc bdy | σ ev _ IH].
  - assert (setupInv (final (FormValidator_new (pageLoad els doc bdy))))
      as (_ & Hw & Ht); [| by split].
    unfold FormValidator_new, setupFormValidation.
    apply forEach_final; [apply initializeForm_setupInv |].
    unfold pageLoad. split; [| split; [| by constructor]];
      intros fm f k fd; simpl; by rewrite lookup_empty.
  - eapply sameWiring_wiredInv; [apply step_sameWiring | done].
Qed.

End WiredProperties.

(** ** Leaving and editing a field *)

Section BlurInputProperties.

Context `{Engine : RegExpEngine} `{Host : Browser}.

Implicit Types (σ : State) (n m input : node) (fd fm cell : nat).

Lemma handlerFrame_passes σ σ' fd :
  handlerFrame σ σ' -> fieldPasses σ' fd = fieldPasses σ fd.
Proof.
  intros [(_ & _ & _ & Hd) Hv]. unfold fieldPasses, currentValue.
  destruct (Hd fd) as (-> & -> & _). by rewrite Hv.
Qed.

(** The listeners an event reaches, in registration order. *)
Lemma dispatchEvent_eq target type σ :
  dispatchEvent target type σ
  = foldl (fun σ l => runHandler (l_handler l) σ)
      (set_defaultPrevented false σ)
      (List.filter
         (fun l => bool_decide (l_target l = target) &&
                   bool_decide (l_type l = type))
         (listeners σ)).
Proof. reflexivity. Qed.

Lemma reached_listeners target type (ls : list Listener) l :
  l ∈ List.filter
        (fun l => bool_decide (l_target l = target) &&
                  bool_decide (l_type l = type)) ls <->
  l ∈ ls /\ l_target l = target /\ l_type l = type.
Proof.
  rewrite list_elem_of_In, filter_In, <- list_elem_of_In, andb_true_iff.
  by rewrite !bool_decide_eq_true.
Qed.

(** Validation listeners run one after the other: each field among them
    ends with the verdict of its rules as its flag. *)
Lemma blur_handlers_flags (ls : list Listener) σ fd :
  (forall l, l ∈ ls -> exists fd', l_handler l = OnBlur fd') ->
  (exists l, l ∈ ls /\ l_handler l = OnBlur fd) ->
  fd_isValid
    (getField (foldl (fun σ l => runHandler (l_handler l) σ) σ ls) fd)
  = fieldPasses σ fd.
Proof.
  induction ls as [|l ls IH] using rev_ind; intros Hall (l0 & Hl0 & Hfd);
    [by apply elem_of_nil in Hl0 |].
  rewrite foldl_app. simpl.
  set (σ1 := foldl _ σ ls).
  pose proof (handlerFrame_handlers ls σ) as Hfr. fold σ1 in Hfr.
  destruct (Hall l) as [fd' Hl]; [set_solver |]. rewrite Hl. simpl.
  destruct (decide (fd' = fd)) as [->|Hne].
  - rewrite validateField_flag, validateField_verdict.
    by apply handlerFrame_passes.
  - rewrite validateField_other by done. apply IH.
    + intros l' Hl'. apply Hall. set_solver.
    + apply elem_of_app in Hl0 as [?| ->%list_elem_of_singleton]; [eauto |].
      congruence.
Qed.

Lemma neutral_objs σ σ' fd :
  nodes σ' = nodes σ -> fieldObjs σ' = fieldObjs σ ->
  neutral σ fd -> neutral σ' fd.
Proof.
  unfold neutral, hidden, hasClass, getField, getNode. by intros -> ->.
Qed.

Lemma input_handlers_neutral (ls : list Listener) σ fd :
  (forall l, l ∈ ls ->
             (exists fd', l_handler l = OnInput fd') \/
             (exists cell fd', l_handler l = OnInputDebounced cell fd')) ->
  (exists l, l ∈ ls /\ l_handler l = OnInput fd) ->
  neutral (foldl (fun σ l => runHandler (l_handler l) σ) σ ls) fd.
Proof.
  induction ls as [|l ls IH] using rev_ind; intros Hall (l0 & Hl0 & Hfd);
    [by apply elem_of_nil in Hl0 |].
  rewrite foldl_app. simpl.
  set (σ1 := foldl _ σ ls).
  assert (l0 = l \/ neutral σ1 fd) as Hcase.
  { apply elem_of_app in Hl0 as [?| ->%list_elem_of_singleton]; [| by left].
    right. apply IH; [| eauto]. intros l' Hl'. apply Hall. set_solver. }
  destruct (Hall l) as [[fd' Hl]|(cell & fd' & Hl)]; [set_solver | |];
    rewrite Hl; cbn [runHandler].
  - destruct Hcase as [->|Hn].
    + rewrite Hfd in Hl. injection Hl as <-. apply clearFieldState_neutral.
    + by apply clearFieldState_keeps_neutral.
  - destruct Hcase as [->|Hn]; [congruence |].
    apply (neutral_objs σ1); [| | done]; by destruct (cells σ1 !! cell) as [[?|]|].
Qed.

Lemma tracked_listeners σ fm f k fd :
  reachable σ -> formObjs σ !! fm = Some f -> (k, fd) ∈ fm_fields f ->
  Forall listenerTyped (listeners σ) /\
  mkListener (fd_element (getField σ fd)) "blur" (OnBlur fd) ∈ listeners σ /\
  mkListener (fd_element (getField σ fd)) "input" (OnInput fd) ∈ listeners σ.
Proof.
  intros [Hw Ht]%reachable_wiredInv Hf Hin. split; [done |]. by eapply Hw.
Qed.


(** X13 (the input listeners of [initializeField], [clearFieldState]): on
    every page the script can reach, when the user edits the control of a
    field that a form tracks, the control holds the new value and the field
    is back in its neutral state, not valid and with no indicator shown,
    until it is validated again. *)
Theorem input_clears σ fm f k fd value :
  reachable σ -> formObjs σ !! fm = Some f -> (k, fd) ∈ fm_fields f ->
  neutral (step (Input (fd_element (getField σ fd)) value) σ) fd /\
  el_value
    (getNode (step (Input (fd_element (getField σ fd)) value) σ)
       (fd_element (getField σ fd)))
  = value.
Proof.
  intros Hr Hf Hin.
  destruct (tracked_listeners σ fm f k fd Hr Hf Hin) as (Ht & _ & Hi).
  cbn [step]. split.
  - rewrite dispatchEvent_eq. apply input_handlers_neutral.
    + intros l (Hl & _ & Htype)%reached_listeners.
      change (listeners (updNode ?n ?g σ)) with (listeners σ) in Hl.
      rewrite Forall_forall in Ht. apply Ht in Hl. unfold listenerTyped in Hl.
      destruct (l_handler l); [| eauto | eauto |];
        rewrite Htype in Hl; discriminate.
    + exists (mkListener (fd_element (getField σ fd)) "input" (OnInput fd)).
      split; [by apply reached_listeners | done].
  - destruct (handlerFrame_dispatchEvent (fd_element (getField σ fd)) "input"
                (updNode (fd_element (getField σ fd)) (set_value value) σ))
      as [_ ->].
    by rewrite getNode_updNode, decide_True.
Qed.

(** *** Flags *)

Lemma flagsSound_same σ σ' :
  (forall fd, fd_isValid (getField σ' fd) = fd_isValid (getField σ fd)) ->
  flagsSound σ σ'.
Proof. intros H fd. rewrite H. by left. Qed.

Lemma flagsSound_objs σ σ' : fieldObjs σ' = fieldObjs σ -> flagsSound σ σ'.
Proof. intros H. apply flagsSound_same. intros fd. unfold getField. by rewrite H. Qed.

Lemma flagsSound_trans σ1 σ2 σ3 :
  flagsSound σ1 σ2 -> handlerFrame σ2 σ3 -> flagsSound σ2 σ3 ->
  flagsSound σ1 σ3.
Proof.
  intros H12 Hfr H23 fd [H2|H3]%H23; [| by right].
  apply H12 in H2 as [?|H2]; [by left | right].
  by rewrite (handlerFrame_passes _ _ _ Hfr).
Qed.

Lemma flagsSound_validateField fd σ : flagsSound σ (snd (validateField fd σ)).
Proof.
  intros fd'. destruct (decide (fd = fd')) as [<-|Hne].
  - rewrite validateField_flag, validateField_verdict. intros <-. right.
    apply fieldFrame_passes, validateField_frame.
  - rewrite validateField_other by done. by left.
Qed.

Lemma flagsSound_clearFieldState fd σ : flagsSound σ (clearFieldState fd σ).
Proof.
  intros fd'. rewrite clearFieldState_field. case_decide; [done | by left].
Qed.

Lemma flagsSound_validatedAll fields σ : flagsSound σ (validatedAll fields σ).
Proof.
  unfold validatedAll. revert σ.
  induction fields as [|[k fd] fields IH] using rev_ind; intros σ;
    [by apply flagsSound_same |].
  rewrite foldl_app. simpl. eapply flagsSound_trans; [apply IH | |].
  - apply handlerFrame_fieldFrame, validateField_frame.
  - apply flagsSound_validateField.
Qed.

Lemma flagsSound_handleSubmit fm σ : flagsSound σ (handleSubmit fm σ).
Proof.
  destruct (forallb (fun '(_, fd) => fieldPasses σ fd)
              (fm_fields (getForm σ fm))) eqn:E.
  - rewrite handleSubmit_valid by done.
    eapply flagsSound_trans; [apply flagsSound_validatedAll | |].
    + apply handlerFrame_submitForm.
    + apply flagsSound_objs. unfold submitForm.
      by destruct (querySelector _ _ _).
  - destruct (handleSubmit_invalid fm σ E) as (?&?&?&?&_&_&_& ->).
    match goal with
    | |- context [focus ?n ?s] => destruct (focus_cases n s) as [-> | ->]
    end.
    + eapply flagsSound_trans; [apply flagsSound_validatedAll | |].
      * by apply handlerFrame_objs.
      * by apply flagsSound_objs.
    + apply flagsSound_validatedAll.
Qed.

Lemma flagsSound_runHandler h σ : flagsSound σ (runHandler h σ).
Proof.
  destruct h as [fd | fd | cell fd | fm]; cbn [runHandler].
  - apply flagsSound_validateField.
  - apply flagsSound_clearFieldState.
  - apply flagsSound_objs. by destruct (cells σ !! cell) as [[?|]|].
  - apply (flagsSound_trans _ (set_defaultPrevented true σ)).
    + by apply flagsSound_objs.
    + apply handlerFrame_handleSubmit.
    + apply flagsSound_handleSubmit.
Qed.

Lemma flagsSound_handlers ls σ :
  flagsSound σ (foldl (fun σ l => runHandler (l_handler l) σ) σ ls).
Proof.
  revert σ. induction ls as [|l ls IH] using rev_ind; intros σ;
    [by apply flagsSound_same |].
  rewrite foldl_app. simpl. eapply flagsSound_trans; [apply IH | |].
  - apply handlerFrame_runHandler.
  - apply flagsSound_runHandler.
Qed.

Lemma flagsSound_dispatchEvent target type σ :
  flagsSound σ (dispatchEvent target type σ).
Proof.
  rewrite dispatchEvent_eq.
  apply (flagsSound_trans _ (set_defaultPrevented false σ)).
  - by apply flagsSound_objs.
  - apply handlerFrame_handlers.
  - apply flagsSound_handlers.
Qed.

Lemma clearedAll_flag fields σ fd :
  fd_isValid (getField (clearedAll fields σ) fd) = true ->
  fd_isValid (getField σ fd) = true.
Proof.
  unfold clearedAll. revert σ.
  induction fields as [|[k fd'] fields IH] using rev_ind; intros σ; [done |].
  rewrite foldl_app. simpl. rewrite clearFieldState_field.
  case_decide; [done | apply IH].
Qed.

Lemma resetAll_fieldObjs l σ : fieldObjs (resetAll l σ) = fieldObjs σ.
Proof.
  revert σ. induction l as [|m l IH]; intros σ; simpl; [done | by rewrite IH].
Qed.

Lemma submitted_flag fm form b σ fd :
  fd_isValid (getField (submitted fm form b σ) fd) = true ->
  fd_isValid (getField σ fd) = true.
Proof.
  unfold submitted.
  set (σa := showSuccessMessage form σ).
  set (σb := reset form σa).
  assert (fieldObjs σb = fieldObjs σ) as Hb.
  { unfold σb, reset. fold (resetAll (querySelectorAll σa form sel_inputs) σa).
    by rewrite resetAll_fieldObjs. }
  fold (clearedAll (fm_fields (getForm σb fm)) σb).
  intros H.
  assert (fd_isValid (getField (clearedAll (fm_fields (getForm σb fm)) σb) fd)
          = true) as Hc by (by destruct b).
  apply clearedAll_flag in Hc. unfold getField in *. by rewrite <- Hb.
Qed.

Lemma flagsSound_runTask task σ : flagsSound σ (runTask task σ).
Proof.
  destruct task as [cell fd | fm form b | modal | modal | modal];
    cbn [runTask].
  - apply (flagsSound_trans _ (clearTimeout (default None (cells σ !! cell)) σ)).
    + apply flagsSound_objs. by destruct (cells σ !! cell) as [[?|]|].
    + apply handlerFrame_fieldFrame, validateField_frame.
    + apply flagsSound_validateField.
  - intros fd Hfd. left. by eapply submitted_flag.
  - by apply flagsSound_objs.
  - by apply flagsSound_objs.
  - by apply flagsSound_objs.
Qed.

Lemma flagsSound_step ev σ : flagsSound σ (step ev σ).
Proof.
  destruct ev as [target | target value | target | id]; cbn [step].
  - apply flagsSound_dispatchEvent.
  - intros fd [H|H]%flagsSound_dispatchEvent; [by left | by right].
  - apply flagsSound_dispatchEvent.
  - destruct (List.find _ _); [| by apply flagsSound_same].
    intros fd [H|H]%flagsSound_runTask; [by left | by right].
Qed.

(** X14 ([setFieldSuccess] as the one place that raises the flag): whatever
    the page and the event, a field that is flagged valid after the event
    was flagged valid before it or passes its rules on the trimmed value its
    control holds after the event.  No event flags a field valid without a
    validation that its current value passes. *)
Theorem flags_raised_by_validation ev σ fd :
  fd_isValid (getField (step ev σ) fd) = true ->
  fd_isValid (getField σ fd) = true \/ fieldPasses (step ev σ) fd = true.
Proof. apply flagsSound_step. Qed.

End BlurInputProperties.

(** ** The success notification *)

Section ModalProperties.

Context `{Engine : RegExpEngine} `{Host : Browser}.

Implicit Types (σ : State) (n m modal form : node).

Lemma filter_drop_last (m : node) (l : list node) :
  m ∉ l -> filter (fun c => c ≠ m) (l ++ [m]) = l.
Proof.
  intros Hm. rewrite filter_app, filter_cons_False, filter_nil, app_nil_r
    by (intros H; by apply H).
  induction l as [|c l IH]; [done |].
  rewrite filter_cons_True by set_solver. f_equal. apply IH. set_solver.
Qed.

Lemma getNode_created m e σ :
  getNode (set_nodes (<[m := e]> (nodes σ)) σ) m = e.
Proof. unfold getNode; simpl. apply lookup_total_insert_eq. Qed.

Lemma getNode_created_ne m e σ n :
  m ≠ n -> getNode (set_nodes (<[m := e]> (nodes σ)) σ) n = getNode σ n.
Proof. intros H. unfold getNode; simpl. by apply lookup_total_insert_ne. Qed.

Lemma getNode_set_timers t k σ n : getNode (set_timers t k σ) n = getNode σ n.
Proof. reflexivity. Qed.

Ltac nodes_simpl :=
  repeat first [rewrite getNode_updNode | rewrite getNode_set_timers];
  repeat first [rewrite decide_True by done | rewrite decide_False by done].

(** The page with the notification appended to the body. *)
Lemma showSuccessMessage_eq form σ :
  let m := fresh (dom (nodes σ)) in
  let σ0 :=
    set_nodes (<[m := set_classList [js "modal"] (newElement "div")]>
                 (nodes σ)) σ in
  showSuccessMessage form σ
  = snd (setTimeout (ModalDeactivate m) 3000
           (snd (setTimeout (ModalActivate m) 100
                   (appendChild (body σ) m σ0)))).
Proof. reflexivity. Qed.

(** X15 ([showSuccessMessage], [createSuccessModal] and the three timer
    callbacks): on a page whose body and its children are elements of the
    document, the notification is a new element appended to the body, not
    yet active, with one timer of 100 ms to activate it and one of 3000 ms
    to deactivate it; activation adds the class [modal--active],
    deactivation removes it and starts a timer of 300 ms, whose callback
    takes the element out of the body again: the body then has the children
    it had before. *)
Theorem success_modal_round_trip form σ :
  body σ ∈ dom (nodes σ) ->
  Forall (fun c => c ∈ dom (nodes σ)) (el_childNodes (getNode σ (body σ))) ->
  let m := fresh (dom (nodes σ)) in
  let σ1 := showSuccessMessage form σ in
  let σ2 := runTask (ModalActivate m) σ1 in
  let σ3 := runTask (ModalDeactivate m) σ2 in
  let σ4 := runTask (ModalRemove m) σ3 in
  (nodes σ !! m = None /\
   el_childNodes (getNode σ1 (body σ))
   = el_childNodes (getNode σ (body σ)) ++ [m] /\
   el_classList (getNode σ1 m) = [js "modal"] /\
   timers σ1
   = timers σ ++ [mkTimer (nextTimer σ) 100 (ModalActivate m);
                  mkTimer (S (nextTimer σ)) 3000 (ModalDeactivate m)]) /\
  modal__active ∈ el_classList (getNode σ2 m) /\
  (modal__active ∉ el_classList (getNode σ3 m) /\
   timers σ3 = timers σ2 ++ [mkTimer (nextTimer σ2) 300 (ModalRemove m)]) /\
  (el_childNodes (getNode σ4 (body σ)) = el_childNodes (getNode σ (body σ)) /\
   el_parentNode (getNode σ4 m) = None).
Proof.
  intros Hbody Hkids m.
  assert (nodes σ !! m = None) as Hm
    by apply not_elem_of_dom, is_fresh.
  assert (m ≠ body σ) as Hne
    by (intros Heq; apply (is_fresh (dom (nodes σ))); fold m; by rewrite Heq).
  assert (m ∉ el_childNodes (getNode σ (body σ))) as Hnot.
  { intros Hin. rewrite Forall_forall in Hkids. apply Hkids in Hin.
    by apply (is_fresh (dom (nodes σ))). }
  rewrite showSuccessMessage_eq. fold m.
  set (σ0 := set_nodes _ σ).
  assert (getNode (appendChild (body σ) m σ0) (body σ)
          = set_childNodes (el_childNodes (getNode σ (body σ)) ++ [m])
              (getNode σ (body σ))) as Hb.
  { unfold appendChild. rewrite !getNode_updNode, decide_True by done.
    rewrite decide_False by done. unfold σ0.
    by rewrite getNode_created_ne. }
  assert (getNode (appendChild (body σ) m σ0) m
          = set_parentNode (Some (body σ))
              (set_classList [js "modal"] (newElement "div"))) as Hmod.
  { unfold appendChild. rewrite !getNode_updNode, decide_False by done.
    rewrite decide_True by done. unfold σ0. by rewrite getNode_created. }
  cbn [runTask]. unfold setTimeout. cbn [snd].
  repeat change (body (set_timers ?t ?k ?s)) with (body s).
  repeat change (body (updNode ?n ?g ?s)) with (body s).
  repeat change (body (set_timers ?t ?k ?s)) with (body s).
  change (body (appendChild (body σ) m σ0)) with (body σ).
  assert (body σ ≠ m) as Hne' by done.
  split; [| split; [| split]].
  - split; [done |]. nodes_simpl.
    split; [by rewrite Hb |]. split; [by rewrite Hmod |].
    cbn -[js]. by rewrite <- app_assoc.
  - nodes_simpl. rewrite Hmod. cbn -[js].
    apply classList_add_spec. by right.
  - split; [| done]. nodes_simpl. cbn -[js].
    rewrite classList_remove_spec. set_solver.
  - unfold removeChild. split.
    + nodes_simpl. rewrite Hb. cbn -[js]. by apply filter_drop_last.
    + by nodes_simpl.
Qed.

End ModalProperties.

(** * ThemeToggle: properties *)

Module ThemeFacts.

Import ThemeToggle.

Section Facts.

Context `{Engine : RegExpEngine}.

Implicit Types (s : Theme) (σ : State) (n b : node) (theme c : jsstring).

Lemma theme_classes_distinct : theme__dark ≠ theme__light.
Proof. by vm_compute. Qed.

Lemma dark_light_distinct : dark ≠ light.
Proof. by vm_compute. Qed.

(** *** [updateToggleButton] *)

Lemma updateToggleButton_members s :
  html (updateToggleButton s) = html s /\
  localStorage (updateToggleButton s) = localStorage s /\
  prefersDark (updateToggleButton s) = prefersDark s /\
  currentTheme (updateToggleButton s) = currentTheme s /\
  toggleButton (updateToggleButton s) = toggleButton s.
Proof.
  unfold updateToggleButton. destruct (toggleButton s) eqn:E; [| done].
  by repeat split.
Qed.

Lemma updateToggleButton_classList s n :
  el_classList (getNode (page (updateToggleButton s)) n)
  = el_classList (getNode (page s) n).
Proof.
  unfold updateToggleButton. destruct (toggleButton s) as [b|]; [| done].
  cbn [page set_page].
  by rewrite !(getNode_updNode_frame el_classList).
Qed.

Lemma updateToggleButton_none s :
  toggleButton s = None -> updateToggleButton s = s.
Proof. unfold updateToggleButton. by intros ->. Qed.

Lemma updateToggleButton_labelled s : labelled (updateToggleButton s).
Proof.
  unfold labelled.
  destruct (updateToggleButton_members s) as (_ & _ & _ & -> & ->).
  unfold updateToggleButton. destruct (toggleButton s) as [b|]; [| done].
  cbn [page set_page]. rewrite !getNode_updNode, !decide_True by done.
  unfold getAttribute, setAttribute; cbn -[js].
  split; [done |]. split; [| by rewrite lookup_insert_eq].
  rewrite lookup_insert_ne by done. by rewrite lookup_insert_eq.
Qed.

(** *** [applyTheme] *)

Lemma applyTheme_members theme s :
  html (applyTheme theme s) = html s /\
  localStorage (applyTheme theme s) = localStorage s /\
  prefersDark (applyTheme theme s) = prefersDark s /\
  currentTheme (applyTheme theme s) = theme /\
  toggleButton (applyTheme theme s) = toggleButton s.
Proof.
  unfold applyTheme.
  destruct (updateToggleButton_members
              (set_currentTheme theme
                 (set_page
                    (if bool_decide (theme = dark)
                     then
                       updNode (html s)
                         (fun e => set_classList
                            (classList_remove [theme__light] (el_classList e))
                            e)
                         (updNode (html s)
                            (fun e => set_classList
                               (classList_add theme__dark (el_classList e)) e)
                            (page s))
                     else
                       updNode (html s)
                         (fun e => set_classList
                            (classList_remove [theme__dark] (el_classList e))
                            e)
                         (updNode (html s)
                            (fun e => set_classList
                               (classList_add theme__light (el_classList e)) e)
                            (page s))) s)))
    as (-> & -> & -> & -> & ->).
  done.
Qed.

Lemma applyTheme_classes theme s :
  htmlClasses (applyTheme theme s)
  = if bool_decide (theme = dark)
    then classList_remove [theme__light]
           (classList_add theme__dark (htmlClasses s))
    else classList_remove [theme__dark]
           (classList_add theme__light (htmlClasses s)).
Proof.
  unfold htmlClasses.
  destruct (applyTheme_members theme s) as (-> & _).
  unfold applyTheme. rewrite updateToggleButton_classList.
  cbn [page set_page set_currentTheme].
  destruct (bool_decide (theme = dark));
    by rewrite !getNode_updNode, !decide_True.
Qed.

Lemma applyTheme_shows theme s : shows (applyTheme theme s) theme.
Proof.
  unfold shows. rewrite applyTheme_classes.
  pose proof theme_classes_distinct.
  case_bool_decide as Hd;
    rewrite !classList_remove_spec, !classList_add_spec; set_solver.
Qed.

Lemma applyTheme_other_classes theme s c :
  c ≠ theme__dark -> c ≠ theme__light ->
  c ∈ htmlClasses (applyTheme theme s) <-> c ∈ htmlClasses s.
Proof.
  intros Hd Hl. rewrite applyTheme_classes.
  case_bool_decide;
    rewrite !classList_remove_spec, !classList_add_spec; set_solver.
Qed.

Lemma applyTheme_labelled theme s : labelled (applyTheme theme s).
Proof. apply updateToggleButton_labelled. Qed.

Lemma applyTheme_elsewhere theme s n :
  toggleButton s = None -> n ≠ html s ->
  getNode (page (applyTheme theme s)) n = getNode (page s) n.
Proof.
  intros Hb Hn. unfold applyTheme. rewrite updateToggleButton_none by done.
  cbn [page set_page set_currentTheme].
  destruct (bool_decide (theme = dark));
    by rewrite !getNode_updNode, !decide_False.
Qed.

(** *** [toggleTheme] *)

Lemma toggleTheme_eq s :
  toggleTheme s
  = setStoredTheme (if bool_decide (currentTheme s = dark) then light else dark)
      (applyTheme (if bool_decide (currentTheme s = dark) then light else dark)
         s).
Proof. reflexivity. Qed.

Lemma toggleTheme_facts s :
  let theme := if bool_decide (currentTheme s = dark) then light else dark in
  currentTheme (toggleTheme s) = theme /\
  getStoredTheme (toggleTheme s) = Some theme /\
  shows (toggleTheme s) theme /\
  labelled (toggleTheme s) /\
  html (toggleTheme s) = html s /\
  toggleButton (toggleTheme s) = toggleButton s /\
  prefersDark (toggleTheme s) = prefersDark s.
Proof.
  intros theme. rewrite toggleTheme_eq. fold theme.
  destruct (applyTheme_members theme s) as (Hh & _ & Hp & Hc & Hb).
  split; [done |].
  split; [unfold getStoredTheme, setStoredTheme; simpl;
          apply lookup_insert_eq |].
  split; [apply (applyTheme_shows theme s) |].
  split; [apply (applyTheme_labelled theme s) | done].
Qed.

Lemma toggleTheme_other_classes s c :
  c ≠ theme__dark -> c ≠ theme__light ->
  c ∈ htmlClasses (toggleTheme s) <-> c ∈ htmlClasses s.
Proof.
  intros Hd Hl.
  change (htmlClasses (toggleTheme s))
    with (htmlClasses
            (applyTheme
               (if bool_decide (currentTheme s = dark) then light else dark)
               s)).
  by apply applyTheme_other_classes.
Qed.

Lemma toggled_theme_truthy s :
  truthy (if bool_decide (currentTheme s = dark) then light else dark) = true.
Proof. by destruct (bool_decide _). Qed.

(** *** [createToggleButton] and the constructor *)

Lemma appendChild_classList parent child σ n :
  el_classList (getNode (appendChild parent child σ) n)
  = el_classList (getNode σ n).
Proof.
  unfold appendChild. by rewrite !(getNode_updNode_frame el_classList).
Qed.

Lemma createToggleButton_members s :
  html (createToggleButton s) = html s /\
  localStorage (createToggleButton s) = localStorage s /\
  prefersDark (createToggleButton s) = prefersDark s /\
  currentTheme (createToggleButton s) = currentTheme s.
Proof.
  unfold createToggleButton.
  destruct (querySelector (page s) _ sel_toggle); [done |].
  unfold createElement.
  match goal with
  | |- context [updateToggleButton ?t] =>
      destruct (updateToggleButton_members t) as (-> & -> & -> & -> & _)
  end.
  done.
Qed.

Lemma createToggleButton_classes s :
  html s ∈ dom (nodes (page s)) ->
  htmlClasses (createToggleButton s) = htmlClasses s.
Proof.
  intros Hin. unfold htmlClasses.
  destruct (createToggleButton_members s) as (-> & _).
  unfold createToggleButton.
  destruct (querySelector (page s) _ sel_toggle); [done |].
  unfold createElement. rewrite updateToggleButton_classList.
  cbn [page set_page set_toggleButton].
  assert (html s ≠ fresh (dom (nodes (page s)))) as Hne
    by (intros Heq; apply (is_fresh (dom (nodes (page s)))); by rewrite <- Heq).
  destruct (querySelector _ _ sel_header);
    rewrite appendChild_classList; unfold getNode; simpl;
    by rewrite lookup_total_insert_ne.
Qed.

Lemma createToggleButton_labelled s :
  labelled s -> labelled (createToggleButton s).
Proof.
  intros Hl. unfold createToggleButton.
  destruct (querySelector (page s) _ sel_toggle); [done |].
  unfold createElement. apply updateToggleButton_labelled.
Qed.

Lemma applyTheme_html_allocated theme s :
  html (applyTheme theme s) ∈ dom (nodes (page (applyTheme theme s))).
Proof.
  destruct (applyTheme_members theme s) as (-> & _).
  unfold applyTheme, updateToggleButton.
  cbn [toggleButton set_currentTheme set_page page currentTheme].
  destruct (toggleButton s) as [b|], (bool_decide (theme = dark));
    cbn [page set_page]; unfold updNode; simpl; rewrite !dom_insert;
    set_solver.
Qed.

Lemma ThemeToggle_new_facts env :
  let theme :=
    orDefault (env_storage env !! "theme"%string)
      (if env_prefersDark env then dark else light) in
  currentTheme (ThemeToggle_new env) = theme /\
  shows (ThemeToggle_new env) theme /\
  labelled (ThemeToggle_new env) /\
  html (ThemeToggle_new env) = env_html env /\
  localStorage (ThemeToggle_new env) = env_storage env.
Proof.
  intros theme.
  set (s0 := mkTheme (env_page env) (env_html env) (env_storage env)
               (env_prefersDark env) theme None).
  change (ThemeToggle_new env) with (createToggleButton (applyTheme theme s0)).
  destruct (createToggleButton_members (applyTheme theme s0))
    as (Hh & Hs & _ & Hc).
  destruct (applyTheme_members theme s0) as (Hh0 & Hs0 & _ & Hc0 & _).
  split; [congruence |].
  split.
  { unfold shows.
    rewrite createToggleButton_classes by apply applyTheme_html_allocated.
    apply applyTheme_shows. }
  split; [apply createToggleButton_labelled, applyTheme_labelled |].
  split; [by rewrite Hh, Hh0 | by rewrite Hs, Hs0].
Qed.

Lemma step_invariant ev s :
  shows s (currentTheme s) /\ labelled s ->
  shows (step ev s) (currentTheme (step ev s)) /\ labelled (step ev s).
Proof.
  intros [Hs Hl].
  assert (shows (toggleTheme s) (currentTheme (toggleTheme s)) /\
          labelled (toggleTheme s)) as Htoggle.
  { destruct (toggleTheme_facts s) as (-> & _ & ? & ? & _). done. }
  destruct ev as [matches | target | ctrlKey metaKey shiftKey key];
    cbn [step].
  - destruct (negb _); [| done].
    destruct (applyTheme_members (if matches then dark else light)
                (set_prefersDark matches s)) as (_ & _ & _ & -> & _).
    split; [apply applyTheme_shows | apply applyTheme_labelled].
  - by destruct (closest _ _ _).
  - by destruct (_ && _).
Qed.

Lemma reachable_invariant s :
  reachable s -> shows s (currentTheme s) /\ labelled s.
Proof.
  induction 1 as [env | s ev _ IH]; [| by apply step_invariant].
  destruct (ThemeToggle_new_facts env) as (-> & ? & ? & _). done.
Qed.

(** X16 ([applyTheme], [updateToggleButton], [createToggleButton], as the
    constructor and the three listeners run them): on every page the script
    has been loaded on, whatever happened since, the root element carries
    [theme--dark] exactly when the current theme is ['dark'] and
    [theme--light] exactly when it is not, and the button the object has
    created, if any, shows the icon and the label of the other theme. *)
Theorem theme_shown_and_labelled s :
  reachable s -> shows s (currentTheme s) /\ labelled s.
Proof. apply reachable_invariant. Qed.

(** X17 ([toggleTheme], [setStoredTheme]): from a dark or a light theme,
    toggling twice gives the theme back; it is then also the stored one,
    the root element shows it, and the other classes of the root element
    are the ones it had. *)
Theorem toggle_twice s :
  currentTheme s = dark \/ currentTheme s = light ->
  currentTheme (toggleTheme (toggleTheme s)) = currentTheme s /\
  getStoredTheme (toggleTheme (toggleTheme s)) = Some (currentTheme s) /\
  shows (toggleTheme (toggleTheme s)) (currentTheme s) /\
  forall c, c ≠ theme__dark -> c ≠ theme__light ->
            c ∈ htmlClasses (toggleTheme (toggleTheme s)) <-> c ∈ htmlClasses s.
Proof.
  intros Hcur.
  destruct (toggleTheme_facts s) as (H1 & _).
  destruct (toggleTheme_facts (toggleTheme s)) as (H2 & Hst & Hsh & _).
  assert ((if bool_decide (currentTheme (toggleTheme s) = dark)
           then light else dark) = currentTheme s) as Hback.
  { rewrite H1. pose proof dark_light_distinct.
    destruct Hcur as [Hc|Hc]; rewrite Hc.
    - rewrite (bool_decide_eq_true_2 (dark = dark)) by done.
      by rewrite bool_decide_eq_false_2.
    - rewrite (bool_decide_eq_false_2 (light = dark)) by done.
      by rewrite bool_decide_eq_true_2. }
  rewrite Hback in H2, Hst, Hsh. split; [done |]. split; [done |].
  split; [done |]. intros c Hd Hl.
  by rewrite !toggleTheme_other_classes.
Qed.

(** X18 (the constructor, [getStoredTheme], [toggleTheme]): a theme chosen
    by toggling survives a reload: a [ThemeToggle] built later on any page
    with the storage the toggle left starts with that theme and shows it,
    whatever the system preference then is. *)
Theorem reload_keeps_choice s σ h prefers :
  let env := mkEnv σ h (localStorage (toggleTheme s)) prefers in
  currentTheme (ThemeToggle_new env) = currentTheme (toggleTheme s) /\
  shows (ThemeToggle_new env) (currentTheme (toggleTheme s)).
Proof.
  intros env.
  destruct (ThemeToggle_new_facts env) as (Hc & Hs & _).
  destruct (toggleTheme_facts s) as (H1 & Hst & _).
  unfold getStoredTheme in Hst. cbn [env_storage env] in Hc, Hs.
  rewrite Hst in Hc, Hs. unfold orDefault, orElse in Hc, Hs.
  rewrite toggled_theme_truthy in Hc, Hs. by rewrite H1.
Qed.

(** X19 (the listener for system changes, [getStoredTheme]): a change of
    the system scheme is followed while no theme is stored, and ignored
    once one is: the page then stays as it is.  No event empties the
    storage, so after the first toggle the system scheme is never followed
    again. *)
Theorem system_change_respects_choice s matches :
  (truthy (default [] (getStoredTheme s)) = true ->
   step (SystemChange matches) s = set_prefersDark matches s) /\
  (truthy (default [] (getStoredTheme s)) = false ->
   currentTheme (step (SystemChange matches) s)
   = (if matches then dark else light) /\
   shows (step (SystemChange matches) s) (if matches then dark else light)) /\
  (forall ev,
      truthy (default [] (getStoredTheme s)) = true ->
      truthy (default [] (getStoredTheme (step ev s))) = true).
Proof.
  split; [| split].
  - intros H. cbn [step].
    change (getStoredTheme (set_prefersDark matches s))
      with (getStoredTheme s). by rewrite H.
  - intros H. cbn [step].
    change (getStoredTheme (set_prefersDark matches s))
      with (getStoredTheme s). rewrite H. cbn [negb].
    destruct (applyTheme_members (if matches then dark else light)
                (set_prefersDark matches s)) as (_ & _ & _ & -> & _).
    split; [done | apply applyTheme_shows].
  - intros ev H.
    assert (truthy (default [] (getStoredTheme (toggleTheme s))) = true)
      as Htoggle.
    { destruct (toggleTheme_facts s) as (_ & -> & _).
      apply toggled_theme_truthy. }
    destruct ev as [m | target | ctrlKey metaKey shiftKey key]; cbn [step].
    + change (getStoredTheme (set_prefersDark m s)) with (getStoredTheme s).
      rewrite H. cbn [negb]. done.
    + by destruct (closest _ _ _).
    + by destruct (_ && _).
Qed.

(** *** A button that is in the markup *)

Lemma descendants_children k σ σ' n :
  (forall m, el_childNodes (getNode σ' m) = el_childNodes (getNode σ m)) ->
  descendants k σ' n = descendants k σ n.
Proof.
  intros Hc. revert n. induction k as [|k IH]; intros n; simpl; [done |].
  rewrite Hc. apply flat_map_ext. intros c. by rewrite IH.
Qed.

Lemma querySelectorAll_frame σ σ' root sel :
  size (nodes σ') = size (nodes σ) ->
  (forall m, el_childNodes (getNode σ' m) = el_childNodes (getNode σ m)) ->
  (forall m, sel_matches sel (getNode σ' m) = sel_matches sel (getNode σ m)) ->
  querySelectorAll σ' root sel = querySelectorAll σ root sel.
Proof.
  intros Hsize Hc Hm. unfold querySelectorAll.
  rewrite Hsize, (descendants_children _ σ σ') by done.
  apply filter_ext. intros m. apply Hm.
Qed.

Lemma updNode_size n f σ :
  n ∈ dom (nodes σ) -> size (nodes (updNode n f σ)) = size (nodes σ).
Proof.
  intros [e He]%elem_of_dom. unfold updNode; simpl.
  by eapply map_size_insert_Some.
Qed.

Lemma updNode_dom n f σ m :
  m ∈ dom (nodes σ) -> m ∈ dom (nodes (updNode n f σ)).
Proof. unfold updNode; simpl. rewrite dom_insert. set_solver. Qed.

(** Without a button of its own, [applyTheme] writes the class list of the
    root element and nothing else. *)
Lemma applyTheme_page_none theme s :
  toggleButton s = None ->
  page (applyTheme theme s)
  = if bool_decide (theme = dark)
    then
      updNode (html s)
        (fun e => set_classList
                    (classList_remove [theme__light] (el_classList e)) e)
        (updNode (html s)
           (fun e => set_classList
                       (classList_add theme__dark (el_classList e)) e)
           (page s))
    else
      updNode (html s)
        (fun e => set_classList
                    (classList_remove [theme__dark] (el_classList e)) e)
        (updNode (html s)
           (fun e => set_classList
                       (classList_add theme__light (el_classList e)) e)
           (page s)).
Proof.
  intros Hb. unfold applyTheme. by rewrite updateToggleButton_none.
Qed.

Lemma applyTheme_query theme s :
  toggleButton s = None -> html s ∈ dom (nodes (page s)) ->
  querySelectorAll (page (applyTheme theme s))
    (document (page (applyTheme theme s))) sel_toggle
  = querySelectorAll (page s) (document (page s)) sel_toggle.
Proof.
  intros Hb Hin.
  assert (document (page (applyTheme theme s)) = document (page s)) as ->
    by (rewrite applyTheme_page_none by done; by destruct (bool_decide _)).
  apply querySelectorAll_frame.
  - rewrite applyTheme_page_none by done.
    destruct (bool_decide _);
      by rewrite !updNode_size by (try apply updNode_dom; done).
  - intros m. rewrite applyTheme_page_none by done.
    destruct (bool_decide _);
      by rewrite !(getNode_updNode_frame el_childNodes).
  - intros m. unfold sel_toggle, sel_matches. apply bool_decide_ext.
    destruct (decide (m = html s)) as [->|Hne].
    + pose proof (applyTheme_other_classes theme s (js "theme-toggle")) as H.
      unfold htmlClasses in H.
      destruct (applyTheme_members theme s) as (Hh & _). rewrite Hh in H.
      apply H; by vm_compute.
    + by rewrite applyTheme_elsewhere.
Qed.

Lemma step_untouched ev s :
  toggleButton s = None ->
  toggleButton (step ev s) = None /\
  html (step ev s) = html s /\
  forall n, n ≠ html s -> getNode (page (step ev s)) n = getNode (page s) n.
Proof.
  intros Hb.
  assert (toggleButton (toggleTheme s) = None /\
          html (toggleTheme s) = html s /\
          forall n, n ≠ html s ->
                    getNode (page (toggleTheme s)) n = getNode (page s) n)
    as Htoggle.
  { destruct (toggleTheme_facts s) as (_ & _ & _ & _ & -> & -> & _).
    split; [done |]. split; [done |]. intros n Hn.
    rewrite toggleTheme_eq. unfold setStoredTheme. cbn [page set_localStorage].
    by apply applyTheme_elsewhere. }
  destruct ev as [matches | target | ctrlKey metaKey shiftKey key];
    cbn [step].
  - destruct (negb _); [| done].
    destruct (applyTheme_members (if matches then dark else light)
                (set_prefersDark matches s)) as (-> & _ & _ & _ & ->).
    split; [done |]. split; [done |]. intros n Hn.
    by rewrite applyTheme_elsewhere.
  - by destruct (closest _ _ _).
  - by destruct (_ && _).
Qed.

Lemma steps_untouched evs s :
  toggleButton s = None ->
  toggleButton (foldl (fun s ev => step ev s) s evs) = None /\
  html (foldl (fun s ev => step ev s) s evs) = html s /\
  forall n, n ≠ html s ->
            getNode (page (foldl (fun s ev => step ev s) s evs)) n
            = getNode (page s) n.
Proof.
  revert s. induction evs as [|ev evs IH]; intros s Hb; simpl; [done |].
  destruct (step_untouched ev s Hb) as (Hb1 & Hh1 & Hn1).
  destruct (IH (step ev s) Hb1) as (Hb2 & Hh2 & Hn2).
  split; [done |]. split; [congruence |]. intros n Hn.
  rewrite Hn2 by congruence. by apply Hn1.
Qed.

(** X20 ([createToggleButton], [updateToggleButton]): when the markup of
    the page already has an element of class [theme-toggle], the object
    never gets a button: [createToggleButton] returns before it sets the
    member, so whatever happens afterwards no element but the root element
    is ever written, and the button of the markup keeps the text and the
    label it came with, whichever theme is shown. *)
Theorem markup_button_untouched env b evs :
  env_html env ∈ dom (nodes (env_page env)) ->
  querySelector (env_page env) (document (env_page env)) sel_toggle = Some b ->
  toggleButton (foldl (fun s ev => step ev s) (ThemeToggle_new env) evs)
  = None /\
  forall n,
    n ≠ env_html env ->
    getNode (page (foldl (fun s ev => step ev s) (ThemeToggle_new env) evs)) n
    = getNode (env_page env) n.
Proof.
  intros Hin Hq.
  set (theme := orDefault (env_storage env !! "theme"%string)
                  (if env_prefersDark env then dark else light)).
  set (s0 := mkTheme (env_page env) (env_html env) (env_storage env)
               (env_prefersDark env) theme None).
  assert (ThemeToggle_new env = applyTheme theme s0) as Hnew.
  { change (ThemeToggle_new env)
      with (createToggleButton (applyTheme theme s0)).
    unfold createToggleButton, querySelector.
    rewrite (applyTheme_query theme s0) by done.
    unfold querySelector in Hq. cbn [page s0]. by rewrite Hq. }
  rewrite Hnew.
  destruct (applyTheme_members theme s0) as (Hh & _ & _ & _ & Hb).
  destruct (steps_untouched evs (applyTheme theme s0) Hb) as (Hb' & _ & Hn').
  split; [done |]. intros n Hn. rewrite Hn' by (by rewrite Hh).
  by apply applyTheme_elsewhere.
Qed.

End Facts.

End ThemeFacts.

(** * MainApp: properties *)

Module MainAppFacts.

Import MainApp.

(** ** The active navigation link *)

Lemma split_segments sep s : Forall (fun seg => sep ∉ seg) (split sep s).
Proof.
  induction s as [|c s IH]; simpl.
  - constructor; [apply not_elem_of_nil | constructor].
  - destruct (c =? sep) eqn:E.
    + constructor; [apply not_elem_of_nil | done].
    + apply N.eqb_neq in E.
      destruct (split sep s) as [|seg segs].
      * constructor; [| constructor].
        intros [->|H]%elem_of_cons; [done | by apply elem_of_nil in H].
      * inversion IH; subst. constructor; [| done].
        intros [->|?]%elem_of_cons; done.
Qed.

Lemma last_Forall {A} (P : A -> Prop) (l : list A) d :
  Forall P l -> P d -> P (List.last l d).
Proof.
  intros Hl Hd. induction Hl as [|x l Hx Hl IH]; [done |].
  destruct l; [done | apply IH].
Qed.

Lemma currentPage_facts pathname :
  currentPage pathname ≠ [] /\ 47 ∉ currentPage pathname.
Proof.
  unfold currentPage, orElse, pop.
  pose proof (last_Forall (fun seg => 47 ∉ seg) (split 47 pathname) []
                (split_segments 47 pathname) (not_elem_of_nil _)) as Hlast.
  destruct (List.last (split 47 pathname) []) as [|c seg]; simpl.
  - split; [by vm_compute |]. vm_compute. intros H.
    repeat (apply elem_of_cons in H as [H|H]; [discriminate |]).
    by apply elem_of_nil in H.
  - done.
Qed.

(** ** The active link and the tabs *)

Section TabFacts.

Context `{Engine : RegExpEngine}.

Implicit Types (σ : State) (n b c btn : node) (x y : jsstring).

(** Marking links adds a class where the condition holds and writes
    nothing else. *)
Lemma marked_links currentPage (l : list node) σ n :
  let σ' :=
    foldl
      (fun σ link =>
         if isActiveLink currentPage (getAttribute (getNode σ link) "href")
         then updNode link
                (fun e => set_classList
                   (classList_add nav__link__active (el_classList e)) e) σ
         else σ)
      σ l in
  el_attributes (getNode σ' n) = el_attributes (getNode σ n) /\
  (nav__link__active ∈ el_classList (getNode σ' n)
   <-> nav__link__active ∈ el_classList (getNode σ n) \/
       (n ∈ l /\
        isActiveLink currentPage (getAttribute (getNode σ n) "href") = true)).
Proof.
  induction l as [|link l IH] using rev_ind; simpl.
  - split; [done |]. split; [by left |].
    intros [?|[H _]]; [done | by apply elem_of_nil in H].
  - rewrite foldl_app. simpl. destruct IH as [Hattr Hcls].
    set (σ1 := foldl _ σ l) in *.
    assert (getAttribute (getNode σ1 link) "href"
            = getAttribute (getNode σ link) "href") as Hhref.
    { unfold getAttribute.
      (* the attributes of every element are those it had *)
      clear Hcls. revert Hattr. generalize n. clear n. intros _ _.
      unfold σ1. clear σ1.
      induction l as [|k l IHl] using rev_ind; [done |].
      rewrite foldl_app. simpl.
      destruct (isActiveLink _ _); [| done].
      by rewrite (getNode_updNode_frame el_attributes). }
    rewrite Hhref. rewrite elem_of_app, list_elem_of_singleton.
    destruct (isActiveLink currentPage (getAttribute (getNode σ link) "href"))
      eqn:E.
    + rewrite (getNode_updNode_frame el_attributes) by done.
      split; [done |]. rewrite getNode_updNode. case_decide as Hn; simpl.
      * subst. rewrite classList_add_spec, Hcls. naive_solver.
      * rewrite Hcls. assert (n ≠ link) by congruence. tauto.
    + split; [done |]. rewrite Hcls.
      destruct (decide (n = link)) as [->|Hn]; [rewrite E |];
        intuition discriminate.
Qed.


Lemma removed_from_all x (l : list node) σ n y :
  y ∈ el_classList
        (getNode
           (foldl
              (fun σ b =>
                 updNode b
                   (fun e => set_classList
                               (classList_remove [x] (el_classList e)) e) σ)
              σ l) n)
  <-> y ∈ el_classList (getNode σ n) /\ (y = x -> n ∉ l).
Proof.
  revert σ. induction l as [|b l IH]; intros σ; simpl.
  - split; [intros H; split; [done | intros _; apply not_elem_of_nil] | tauto].
  - rewrite IH, getNode_updNode. case_decide as Hb; simpl.
    + subst b. rewrite classList_remove_spec, list_elem_of_singleton.
      rewrite not_elem_of_cons. split; [| tauto].
      intros [[Hy Hne] Hl]. split; [done |]. intros ->. done.
    + rewrite not_elem_of_cons. split; [| tauto].
      intros [Hy Hl]. split; [done |]. intros Hx. split; [done | auto].
Qed.

Lemma tabClick_button tabButtons tabContents btn index σ b :
  tabs__btn__active
  ∈ el_classList (getNode (tabClick tabButtons tabContents btn index σ) b)
  <-> b = btn \/
      (tabs__btn__active ∈ el_classList (getNode σ b) /\ b ∉ tabButtons).
Proof.
  assert (tabs__btn__active ≠ tabs__content__active) as Hne by by vm_compute.
  unfold tabClick.
  assert (forall σ0 : State,
             tabs__btn__active
             ∈ el_classList
                 (getNode
                    match tabContents !! index with
                    | Some c =>
                        updNode c
                          (fun e => set_classList
                             (classList_add tabs__content__active
                                (el_classList e)) e) σ0
                    | None => σ0
                    end b)
             <-> tabs__btn__active ∈ el_classList (getNode σ0 b)) as Hlast.
  { intros σ0. destruct (tabContents !! index) as [c|]; [| done].
    rewrite getNode_updNode. case_decide; [| done]. subst. simpl.
    rewrite classList_add_spec. naive_solver. }
  rewrite Hlast, getNode_updNode. case_decide as Hb; simpl.
  - subst. rewrite classList_add_spec. naive_solver.
  - rewrite !removed_from_all. naive_solver.
Qed.

Lemma tabClick_content tabButtons tabContents btn index σ c :
  tabs__content__active
  ∈ el_classList (getNode (tabClick tabButtons tabContents btn index σ) c)
  <-> tabContents !! index = Some c \/
      (tabs__content__active ∈ el_classList (getNode σ c) /\
       c ∉ tabContents).
Proof.
  assert (tabs__btn__active ≠ tabs__content__active) as Hne by by vm_compute.
  unfold tabClick.
  set (σ2 := foldl _ (foldl _ σ tabButtons) tabContents).
  assert (tabs__content__active ∈ el_classList (getNode σ2 c)
          <-> tabs__content__active ∈ el_classList (getNode σ c) /\
              c ∉ tabContents) as H2.
  { unfold σ2. rewrite !removed_from_all. naive_solver. }
  assert (tabs__content__active
          ∈ el_classList
              (getNode
                 (updNode btn
                    (fun e => set_classList
                       (classList_add tabs__btn__active (el_classList e)) e)
                    σ2) c)
          <-> tabs__content__active ∈ el_classList (getNode σ2 c)) as H3.
  { rewrite getNode_updNode. case_decide; [| done]. subst. simpl.
    rewrite classList_add_spec. naive_solver. }
  destruct (tabContents !! index) as [c'|] eqn:E.
  - rewrite getNode_updNode. case_decide as Hc; simpl.
    + subst. rewrite classList_add_spec. naive_solver.
    + rewrite H3, H2. naive_solver.
  - rewrite H3, H2. naive_solver.
Qed.


End TabFacts.

(** ** The lightbox *)

Lemma indexOf_range x l :
  (-1 <= indexOf x l < Z.of_nat (length l))%Z.
Proof.
  induction l as [|y l IH]; simpl; [lia |].
  destruct (decide (y = x)); [lia |].
  destruct (indexOf x l <? 0)%Z eqn:E; lia.
Qed.

Lemma indexOf_found x l :
  x ∈ l -> (0 <= indexOf x l)%Z /\ l !! Z.to_nat (indexOf x l) = Some x.
Proof.
  induction l as [|y l IH]; [by intros ?%elem_of_nil |].
  intros Hin. simpl. destruct (decide (y = x)) as [->|Hne]; [done |].
  apply elem_of_cons in Hin as [->|Hin]; [done |].
  destruct (IH Hin) as [Hpos Hat].
  destruct (indexOf x l <? 0)%Z eqn:E; [lia |].
  split; [lia |].
  replace (Z.to_nat (indexOf x l + 1)) with (S (Z.to_nat (indexOf x l)))
    by lia.
  done.
Qed.

Lemma indexOf_first x l k :
  (0 <= k < indexOf x l)%Z -> l !! Z.to_nat k ≠ Some x.
Proof.
  revert k. induction l as [|y l IH]; intros k; simpl; [lia |].
  destruct (decide (y = x)) as [->|Hne]; [lia |].
  destruct (indexOf x l <? 0)%Z eqn:E; [lia |]. intros Hk.
  destruct (decide (k = 0)%Z) as [->|Hk0]; [simpl; congruence |].
  replace (Z.to_nat k) with (S (Z.to_nat (k - 1))) by lia.
  simpl. apply IH. lia.
Qed.

Lemma step_galleryHasLightbox ev a :
  galleryHasLightbox a -> galleryHasLightbox (after (step ev a)).
Proof.
  intros Ha.
  destruct ev as [imageSrc images | | direction]; simpl.
  - unfold openLightbox. destruct (lightbox a) as [lb|] eqn:E; [| done].
    right. by eexists.
  - unfold closeLightbox. destruct (lightbox a) as [lb|] eqn:E; [| done].
    right. by eexists.
  - unfold lightboxNav.
    destruct Ha as [Hg|[lb Hlb]]; [rewrite Hg; by left |].
    assert (galleryHasLightbox a) as Ha by (right; by eexists).
    destruct (gallery a) as [[images index]|] eqn:Hg; [| done].
    destruct (length images <=? 1)%nat; [done |].
    cbn [lightbox]. rewrite Hlb. simpl. right. by eexists.
Qed.

Lemma reachable_galleryHasLightbox a :
  reachable a -> galleryHasLightbox a.
Proof.
  induction 1 as [markup | a ev _ IH];
    [| by apply step_galleryHasLightbox].
  left. by destruct markup.
Qed.

(** X23 ([lightboxNav], [openLightbox], [initializeLightbox]): navigation
    never fails on a missing lightbox.  The images are only recorded by
    [openLightbox], which returns before that when there is no lightbox,
    so whenever [lightboxNav] gets past its guard the lightbox it
    dereferences is there; this also holds when the markup brought its own
    lightbox and the script created none. *)
Theorem lightboxNav_never_fails a direction :
  reachable a -> exists a', lightboxNav direction a = Done a'.
Proof.
  intros Ha%reachable_galleryHasLightbox. unfold lightboxNav.
  destruct Ha as [Hg|[lb Hlb]]; [rewrite Hg; by eexists |].
  destruct (gallery a) as [[images index]|]; [| by eexists].
  destruct (length images <=? 1)%nat; [by eexists |].
  cbn [lightbox]. rewrite Hlb. by eexists.
Qed.

Lemma at_index_lookup l i :
  (0 <= i)%Z -> at_index l i = mjoin (l !! Z.to_nat i).
Proof.
  intros Hi. unfold at_index.
  by destruct (i <? 0)%Z eqn:E; [lia |].
Qed.

Lemma moved_range direction len index :
  (0 < len)%Z -> (0 <= moved direction len index < len)%Z.
Proof. intros Hlen. destruct direction; simpl; by apply Z.mod_pos_bound. Qed.

Lemma lightboxNav_coherent_eq direction a images index lb :
  gallery a = Some (images, index) -> lightbox a = Some lb ->
  (0 <= index < Z.of_nat (length images))%Z ->
  (1 < length images)%nat ->
  lightboxNav direction a
  = Done (mkApp
            (Some (mkLightbox (lb_active lb)
                     (at_index images
                        (moved direction (Z.of_nat (length images)) index))))
            (Some (images, moved direction (Z.of_nat (length images)) index))
            (bodyOverflow a)).
Proof.
  intros Hg Hlb Hi Hlen. unfold lightboxNav. rewrite Hg.
  destruct (length images <=? 1)%nat eqn:E;
    [apply Nat.leb_le in E; lia |].
  cbn [lightbox gallery bodyOverflow]. rewrite Hlb.
  assert ((match direction with
           | Next => Z.rem (index + 1) (Z.of_nat (length images))
           | Prev => if (index =? 0)%Z
                     then (Z.of_nat (length images) - 1)%Z
                     else (index - 1)%Z
           end)
          = moved direction (Z.of_nat (length images)) index) as ->; [| done].
  destruct direction; cbn [moved].
  - destruct (index =? 0)%Z eqn:E0.
    + apply Z.eqb_eq in E0. subst.
      replace (0 - 1)%Z
        with (Z.of_nat (length images) - 1
              + (-1) * Z.of_nat (length images))%Z by lia.
      rewrite Z.mod_add by lia. rewrite Z.mod_small; lia.
    + apply Z.eqb_neq in E0. rewrite Z.mod_small; lia.
  - rewrite Z.rem_mod_nonneg by lia. lia.
Qed.

Lemma lightboxNav_coherent direction a :
  coherent a -> coherent (after (lightboxNav direction a)).
Proof.
  unfold coherent at 1.
  destruct (gallery a) as [[images index]|] eqn:Hg;
    [| by unfold lightboxNav, coherent; rewrite Hg; simpl; rewrite Hg].
  intros (Hi & lb & Hlb & Hsrc).
  destruct (decide (1 < length images)%nat) as [Hlen|Hlen].
  - rewrite (lightboxNav_coherent_eq direction a images index lb) by done.
    unfold coherent; simpl. split; [apply moved_range; lia |]. by eexists.
  - unfold lightboxNav. rewrite Hg.
    destruct (length images <=? 1)%nat eqn:E;
      [| apply Nat.leb_gt in E; lia].
    unfold coherent; simpl. rewrite Hg. split; [done |]. by eexists.
Qed.

(** X24 ([openLightbox], [lightboxNav]): when a lightbox is opened on a
    source that is among the images of the page, the recorded index is the
    first position of that source; from then on, however the user
    navigates, the index is a position of the list and the image shows the
    source at that position. *)
Theorem lightbox_shows_indexed_image imageSrc images a direction :
  (forall lb, lightbox a = Some lb -> imageSrc ∈ images ->
     coherent (openLightbox imageSrc images a) /\
     gallery (openLightbox imageSrc images a)
     = Some (images, indexOf imageSrc images) /\
     images !! Z.to_nat (indexOf imageSrc images) = Some imageSrc /\
     forall k, (0 <= k < indexOf imageSrc images)%Z ->
               images !! Z.to_nat k ≠ Some imageSrc) /\
  (coherent a -> coherent (after (lightboxNav direction a))).
Proof.
  split; [| apply lightboxNav_coherent].
  intros lb Hlb Hin. destruct (indexOf_found _ _ Hin) as [Hpos Hat].
  unfold openLightbox, coherent. rewrite Hlb. cbn [gallery lightbox].
  split; [| split; [done | split; [done | apply indexOf_first]]].
  split; [pose proof (indexOf_range imageSrc images); lia |].
  eexists. split; [done |]. simpl. by rewrite at_index_lookup, Hat.
Qed.

Lemma navigate_eq direction k a images index lb :
  gallery a = Some (images, index) -> lightbox a = Some lb ->
  (0 <= index < Z.of_nat (length images))%Z ->
  (1 < length images)%nat ->
  (0 < k)%nat ->
  let index' :=
    match direction with
    | Next => ((index + Z.of_nat k) mod Z.of_nat (length images))%Z
    | Prev => ((index - Z.of_nat k) mod Z.of_nat (length images))%Z
    end in
  navigate direction k a
  = mkApp (Some (mkLightbox (lb_active lb) (at_index images index')))
      (Some (images, index')) (bodyOverflow a).
Proof.
  intros Hg Hlb Hi Hlen Hk. revert a index lb Hg Hlb Hi.
  induction k as [|k IH]; [lia |]. intros a index lb Hg Hlb Hi.
  cbn [navigate].
  rewrite (lightboxNav_coherent_eq direction a images index lb) by done.
  cbn [after].
  destruct (decide (k = 0)%nat) as [->|Hk0].
  - cbn [navigate]. destruct direction; simpl; done.
  - set (a1 := mkApp _ _ _).
    pose proof (moved_range direction (Z.of_nat (length images)) index) as Hm.
    rewrite (IH ltac:(lia) a1
               (moved direction (Z.of_nat (length images)) index)
               (mkLightbox (lb_active lb)
                  (at_index images
                     (moved direction (Z.of_nat (length images)) index))))
      by (try done; apply Hm; lia).
    cbn [lb_active bodyOverflow a1].
    assert (forall x y : Z, x = y ->
              mkApp (Some (mkLightbox (lb_active lb) (at_index images x)))
                (Some (images, x)) (bodyOverflow a)
              = mkApp (Some (mkLightbox (lb_active lb) (at_index images y)))
                  (Some (images, y)) (bodyOverflow a)) as Hcongr
      by (by intros x y ->).
    apply Hcongr. destruct direction; unfold moved.
    + rewrite Zminus_mod_idemp_l. f_equal. lia.
    + rewrite Zplus_mod_idemp_l. f_equal. lia.
Qed.

(** X25 ([lightboxNav]): on a gallery of more than one image whose index is
    in range, the two directions undo each other, and as many steps in one
    direction as there are images lead back to the index and the image one
    started from. *)
Theorem lightbox_navigation_cycles direction a images index :
  gallery a = Some (images, index) -> coherent a ->
  (1 < length images)%nat ->
  after (lightboxNav Prev (after (lightboxNav Next a))) = a /\
  after (lightboxNav Next (after (lightboxNav Prev a))) = a /\
  navigate direction (length images) a = a.
Proof.
  intros Hg Hco Hlen. unfold coherent in Hco. rewrite Hg in Hco.
  destruct Hco as (Hi & lb & Hlb & Hsrc).
  assert (a = mkApp (Some (mkLightbox (lb_active lb) (at_index images index)))
                (Some (images, index)) (bodyOverflow a)) as Ha.
  { destruct a as [l g o], lb as [act src]. simpl in *. by subst. }
  assert (forall d1 d2,
             ((d1 = Next /\ d2 = Prev) \/ (d1 = Prev /\ d2 = Next)) ->
             after (lightboxNav d2 (after (lightboxNav d1 a))) = a) as Hundo.
  { intros d1 d2 Hd.
    rewrite (lightboxNav_coherent_eq d1 a images index lb) by done.
    cbn [after].
    pose proof (moved_range d1 (Z.of_nat (length images)) index) as Hm.
    erewrite (lightboxNav_coherent_eq d2 _ images
                (moved d1 (Z.of_nat (length images)) index));
      [| done | done | apply Hm; lia | done].
    cbn [after lb_active bodyOverflow].
    etransitivity; [| symmetry; apply Ha].
    assert (moved d2 (Z.of_nat (length images))
              (moved d1 (Z.of_nat (length images)) index) = index) as ->;
      [| done].
    destruct Hd as [[-> ->]|[-> ->]]; unfold moved.
    - rewrite Zminus_mod_idemp_l.
      replace (index + 1 - 1)%Z with index by lia. apply Z.mod_small. lia.
    - rewrite Zplus_mod_idemp_l.
      replace (index - 1 + 1)%Z with index by lia. apply Z.mod_small. lia. }
  split; [apply Hundo; by left |]. split; [apply Hundo; by right |].
  rewrite (navigate_eq direction (length images) a images index lb)
    by (try done; lia).
  etransitivity; [| symmetry; apply Ha].
  assert (match direction with
          | Next => ((index + Z.of_nat (length images))
                     mod Z.of_nat (length images))%Z
          | Prev => ((index - Z.of_nat (length images))
                     mod Z.of_nat (length images))%Z
          end = index) as ->; [| done].
  destruct direction.
  - replace (index - Z.of_nat (length images))%Z
      with (index + (-1) * Z.of_nat (length images))%Z by lia.
    rewrite Z.mod_add by lia. apply Z.mod_small. lia.
  - replace (index + Z.of_nat (length images))%Z
      with (index + 1 * Z.of_nat (length images))%Z by lia.
    rewrite Z.mod_add by lia. apply Z.mod_small. lia.
Qed.

End MainAppFacts.

(** * Further properties on the example pages *)

Module MoreScenarios.

Import ExampleEngine Examples MoreExamples.

(** The code field of the registration form has a pattern and is empty. *)
Lemma optional_blank_witness :
  fst (validateField 1 ready) = true /\
  validShown (snd (validateField 1 ready)) 1.
Proof.
  apply (optional_blank_valid 1%nat ready).
  - vm_compute. repeat constructor; discriminate.
  - vm_compute. constructor.
Defined.

(** The user name of the sign-up form carries [minlength="3"]: its length
    rule asks for three characters. *)
Lemma minlength_witness :
  getValidationRules signup 5
  = Some [Required (js "Name is required");
          MinLength (Some 3%Z) (js "Minimum 3 characters required")] /\
  parseInt (js "3") = Some (Z.of_N (decimal (js "3"))) /\
  forall value,
    value ≠ [] ->
    result_isValid
      (runValidationRule
         (MinLength (parseInt (js "3"))
            (js "Minimum " ++ js "3" ++ js " characters required")) value)
    = bool_decide (decimal (js "3") <= N.of_nat (length value)).
Proof.
  assert (getValidationRules signup 5
          = Some [Required (js "Name is required");
                  MinLength (Some 3%Z) (js "Minimum 3 characters required")])
    as Hrules by (vm_compute; reflexivity).
  split; [exact Hrules |].
  apply (minlength_rule_bound signup 5%nat (js "3") _ eq_refl Hrules).
  split; [discriminate | repeat constructor].
Defined.

(** The two forms of the example page. *)
Lemma setup_registers_witness :
  registeredForms ready
  = querySelectorAll (twoForms (js "abc")) (document (twoForms (js "abc")))
      sel_forms /\
  submitWired ready.
Proof.
  apply (setup_registers_forms (twoForms (js "abc")) ready).
  vm_compute. reflexivity.
Defined.

(** The user name and the e-mail address of the sign-up form are in one
    group: the error indicator created for the first, element 9, is the one
    the second gets. *)
Lemma indicators_once_witness :
  createErrorElement 5 signup
  = Normal 9%nat (final (createErrorElement 5 signup)) /\
  form__error
  ∈ el_classList (getNode (final (createErrorElement 5 signup)) 9) /\
  createErrorElement 6 (final (createErrorElement 5 signup))
  = Normal 9%nat (final (createErrorElement 5 signup)).
Proof.
  assert (createErrorElement 5 signup
          = Normal 9%nat (final (createErrorElement 5 signup))) as Hfirst
    by (vm_compute; reflexivity).
  split; [exact Hfirst |].
  apply (proj1 (indicators_created_once 5%nat 6%nat signup 9%nat
                  (final (createErrorElement 5 signup)) eq_refl)).
  exact Hfirst.
Defined.

(** The second check box of the sign-up form, initialised once more: its
    name is tracked already. *)
Lemma tracks_by_identifier_witness :
  exists fd,
    fieldObjs signupReady !! fd = None /\
    fd_element (getField (final (initializeField 0 8 signupReady)) fd) = 8%nat /\
    fd_isValid (getField (final (initializeField 0 8 signupReady)) fd) = false /\
    (fieldKey signupReady 8, fd)
    ∈ fm_fields (getForm (final (initializeField 0 8 signupReady)) 0) /\
    Map_keys (fm_fields (getForm (final (initializeField 0 8 signupReady)) 0))
    = if decide (fieldKey signupReady 8
                 ∈ Map_keys (fm_fields (getForm signupReady 0)))
      then Map_keys (fm_fields (getForm signupReady 0))
      else Map_keys (fm_fields (getForm signupReady 0))
           ++ [fieldKey signupReady 8].
Proof.
  apply (initializeField_tracks_by_identifier 0%nat 8%nat signupReady
           (final (initializeField 0 8 signupReady))).
  vm_compute. reflexivity.
Defined.


(** Two key strokes in the e-mail field, one right after the other. *)
Lemma debounce_witness :
  NoDup (t_id <$> timers (step (Input 4 (js "ab")) (step (Input 4 (js "a")) ready))) /\
  (length (pendingLater 0
             (step (Input 4 (js "ab")) (step (Input 4 (js "a")) ready)))
   <= 1)%nat /\
  forall t,
    t ∈ pendingLater 0
          (step (Input 4 (js "ab")) (step (Input 4 (js "a")) ready)) ->
    cells (step (Input 4 (js "ab")) (step (Input 4 (js "a")) ready)) !! 0%nat
    = Some (Some (t_id t)).
Proof.
  apply (debounce_one_pending
           (step (Input 4 (js "ab")) (step (Input 4 (js "a")) ready)) 0%nat).
  apply reach_step, reach_step, reach_load.
Defined.


Lemma input_clears_witness :
  neutral (step (Input (fd_element (getField ready 0)) (js "a@b.c")) ready) 0 /\
  el_value
    (getNode (step (Input (fd_element (getField ready 0)) (js "a@b.c")) ready)
       (fd_element (getField ready 0)))
  = js "a@b.c".
Proof.
  apply (input_clears ready 0%nat (getForm ready 0) (js "email") 0%nat).
  - apply reach_load.
  - vm_compute. reflexivity.
  - vm_compute. left.
Defined.

(** The e-mail field of the registration form has two rules, the required
    and the e-mail rule.  Once a well-formed address is typed its flag is
    still down; leaving the control raises it, and the address passes both
    rules. *)
Lemma flags_witness :
  fd_rules (getField ready 0)
  = [Required (js "This field is required");
     Email (js "Please enter a valid email address")] /\
  fd_isValid (getField (step (Input 4 (js "a@b.co")) ready) 0) = false /\
  fd_isValid
    (getField (step (Blur 4) (step (Input 4 (js "a@b.co")) ready)) 0)
  = true /\
  (fd_isValid (getField (step (Input 4 (js "a@b.co")) ready) 0) = true \/
   fieldPasses (step (Blur 4) (step (Input 4 (js "a@b.co")) ready)) 0 = true).
Proof.
  split; [vm_compute; reflexivity |].
  split; [vm_compute; reflexivity |].
  split; [vm_compute; reflexivity |].
  apply (flags_raised_by_validation (Blur 4)
           (step (Input 4 (js "a@b.co")) ready) 0%nat).
  vm_compute. reflexivity.
Defined.

(** The notification on the example page, from its creation to its
    removal. *)
Lemma success_modal_witness :
  let m := fresh (dom (nodes ready)) in
  let σ1 := showSuccessMessage 2 ready in
  let σ2 := runTask (ModalActivate m) σ1 in
  let σ3 := runTask (ModalDeactivate m) σ2 in
  let σ4 := runTask (ModalRemove m) σ3 in
  (nodes ready !! m = None /\
   el_childNodes (getNode σ1 (body ready))
   = el_childNodes (getNode ready (body ready)) ++ [m] /\
   el_classList (getNode σ1 m) = [js "modal"] /\
   timers σ1
   = timers ready ++ [mkTimer (nextTimer ready) 100 (ModalActivate m);
                      mkTimer (S (nextTimer ready)) 3000 (ModalDeactivate m)]) /\
  modal__active ∈ el_classList (getNode σ2 m) /\
  (modal__active ∉ el_classList (getNode σ3 m) /\
   timers σ3 = timers σ2 ++ [mkTimer (nextTimer σ2) 300 (ModalRemove m)]) /\
  (el_childNodes (getNode σ4 (body ready))
   = el_childNodes (getNode ready (body ready)) /\
   el_parentNode (getNode σ4 m) = None).
Proof.
  apply (success_modal_round_trip 2%nat ready).
  - apply elem_of_dom. vm_compute. eauto.
  - apply Forall_forall. intros c Hc. apply elem_of_dom.
    vm_compute in Hc.
    repeat (apply elem_of_cons in Hc as [->|Hc]; [vm_compute; eauto |]).
    exfalso. apply elem_of_nil in Hc. exact Hc.
Defined.

End MoreScenarios.

Module ThemeScenarios.

Import ExampleEngine ThemeToggle ThemeExamples ThemeFacts.

(** A first visit, then a click on the button the script has created. *)
Lemma theme_shown_witness :
  shows (step (Click 4) (ThemeToggle_new firstVisit))
    (currentTheme (step (Click 4) (ThemeToggle_new firstVisit))) /\
  labelled (step (Click 4) (ThemeToggle_new firstVisit)).
Proof.
  apply (theme_shown_and_labelled (step (Click 4) (ThemeToggle_new firstVisit))).
  apply reach_step, reach_load.
Defined.

Lemma toggle_twice_witness :
  currentTheme (toggleTheme (toggleTheme (ThemeToggle_new firstVisit)))
  = currentTheme (ThemeToggle_new firstVisit) /\
  getStoredTheme (toggleTheme (toggleTheme (ThemeToggle_new firstVisit)))
  = Some (currentTheme (ThemeToggle_new firstVisit)) /\
  shows (toggleTheme (toggleTheme (ThemeToggle_new firstVisit)))
    (currentTheme (ThemeToggle_new firstVisit)) /\
  forall c, c ≠ theme__dark -> c ≠ theme__light ->
            c ∈ htmlClasses
                  (toggleTheme (toggleTheme (ThemeToggle_new firstVisit)))
            <-> c ∈ htmlClasses (ThemeToggle_new firstVisit).
Proof.
  apply (toggle_twice (ThemeToggle_new firstVisit)).
  left. vm_compute. reflexivity.
Defined.

(** Clicks on the button of the markup toggle the theme and leave the
    button as it was. *)
Lemma markup_button_witness :
  toggleButton
    (foldl (fun s ev => step ev s) (ThemeToggle_new firstVisitMarkup)
       [Click 4; SystemChange false; Click 4; Click 4])
  = None /\
  forall n,
    n ≠ env_html firstVisitMarkup ->
    getNode
      (page (foldl (fun s ev => step ev s) (ThemeToggle_new firstVisitMarkup)
               [Click 4; SystemChange false; Click 4; Click 4])) n
    = getNode (env_page firstVisitMarkup) n.
Proof.
  apply (markup_button_untouched firstVisitMarkup 4%nat
           [Click 4; SystemChange false; Click 4; Click 4]).
  - apply elem_of_dom. vm_compute. eauto.
  - vm_compute. reflexivity.
Defined.

End ThemeScenarios.

Module MainAppScenarios.

Import MainApp MainAppExamples MainAppFacts.

Lemma opened_reachable : reachable opened.
Proof. apply (reach_step _ (Open (Some (js "b.jpg")) pictures)), reach_init. Qed.

(** From the second of three pictures to the third. *)
Lemma lightboxNav_witness :
  exists a', lightboxNav Next opened = Done a'.
Proof. apply (lightboxNav_never_fails opened Next), opened_reachable. Defined.

Lemma lightbox_cycle_witness :
  after (lightboxNav Prev (after (lightboxNav Next opened))) = opened /\
  after (lightboxNav Next (after (lightboxNav Prev opened))) = opened /\
  navigate Prev (length pictures) opened = opened.
Proof.
  apply (lightbox_navigation_cycles Prev opened pictures 1%Z).
  - reflexivity.
  - split; [vm_compute; split; [discriminate | reflexivity] |].
    eexists. split; reflexivity.
  - vm_compute. lia.
Defined.

End MainAppScenarios.
